(** * Chess engine: board, moves, move generators, make/undo

    A shallow embedding of [Chess_Bot/ChessEngine.py] (classes [GameState]
    and [Move]) together with the properties of the move generators and of
    [make_move]/[undo_move] that the specification states.

    The board is the 8x8 numpy array of two-character strings of the source;
    indexing follows numpy: an index [i] with [-len <= i < 0] addresses
    position [i + len], and an index outside [-len .. len-1] raises
    [IndexError].  The generators append to the shared Python list [moves];
    here a statement is a function from the list so far to the list after,
    or to the exception raised.  The development ends with the notation of
    moves and with the event loop of [Chess_Bot/ChessMain.py] (module
    [ChessMain]), without its drawing. *)

From Stdlib Require Import ZArith Ascii String List Bool Lia.
From stdpp Require Import base list gmap strings.
Import ListNotations.

Local Open Scope Z_scope.

(** ** Exceptions and results *)

Inductive exn : Type := IndexError | KeyError.

Inductive result (A : Type) : Type :=
| Ok (a : A)
| Raise (e : exn).
Arguments Ok {A} a.
Arguments Raise {A} e.

Definition bind {A B : Type} (x : result A) (f : A -> result B) : result B :=
  match x with
  | Ok a => f a
  | Raise e => Raise e
  end.

Notation "'let*' x ':=' e 'in' k" := (bind e (fun x => k))
  (at level 10, x name, e at level 100, k at level 200).

(** ** Squares

    Each board entry is a string of two characters (source comment: "each
    element of the list has two characters"): the colour, ['w'] or ['b'],
    then the kind, one of [R N B Q K p]; ['--'] is the empty square.
    [colour] is the source's [sq[0]], [kind] is [sq[1]]. *)

Record square : Type := Sq { colour : ascii; kind : ascii }.

Definition empty : square := Sq "-"%char "-"%char.

Definition square_eqb (a b : square) : bool :=
  Ascii.eqb (colour a) (colour b) && Ascii.eqb (kind a) (kind b).

Definition wR := Sq "w"%char "R"%char.
Definition wN := Sq "w"%char "N"%char.
Definition wB := Sq "w"%char "B"%char.
Definition wQ := Sq "w"%char "Q"%char.
Definition wK := Sq "w"%char "K"%char.
Definition wp := Sq "w"%char "p"%char.
Definition bR := Sq "b"%char "R"%char.
Definition bN := Sq "b"%char "N"%char.
Definition bB := Sq "b"%char "B"%char.
Definition bQ := Sq "b"%char "Q"%char.
Definition bK := Sq "b"%char "K"%char.
Definition bp := Sq "b"%char "p"%char.

(** ** The board and numpy indexing *)

Abbreviation Board := (list (list square)).

(** [a[i]] on an axis of length [len]. *)
Definition np_index (len : nat) (i : Z) : result nat :=
  if (0 <=? i) && (i <? Z.of_nat len) then Ok (Z.to_nat i)
  else if (- Z.of_nat len <=? i) && (i <? 0) then Ok (Z.to_nat (i + Z.of_nat len))
  else Raise IndexError.

Definition get_row (b : Board) (r : Z) : result (nat * list square) :=
  let* i := np_index (length b) r in
  match b !! i with
  | Some row => Ok (i, row)
  | None => Raise IndexError
  end.

(** [board[r][c]] *)
Definition board_get (b : Board) (r c : Z) : result square :=
  let* ir := get_row b r in
  let* j := np_index (length (snd ir)) c in
  match snd ir !! j with
  | Some sq => Ok sq
  | None => Raise IndexError
  end.

(** [board[r][c] = v] *)
Definition board_set (b : Board) (r c : Z) (v : square) : result Board :=
  let* ir := get_row b r in
  let* j := np_index (length (snd ir)) c in
  Ok (<[fst ir := <[j := v]> (snd ir)]> b).

(** ** Move *)

Record Move : Type := mkMove {
  start_row : Z;
  start_col : Z;
  end_row : Z;
  end_col : Z;
  piece_moved : square;
  piece_captured : square;
  move_ID : Z
}.

(** [Move.__init__(start_sq, end_sq, board)] *)
Definition Move_init (start_sq end_sq : Z * Z) (board : Board) : result Move :=
  let sr := fst start_sq in
  let sc := snd start_sq in
  let er := fst end_sq in
  let ec := snd end_sq in
  let* pm := board_get board sr sc in
  let* pc := board_get board er ec in
  Ok (mkMove sr sc er ec pm pc (sr * 1000 + sc * 100 + er * 10 + ec)).

(** [Move.__eq__] between two [Move] values. *)
Definition Move_eq (m other : Move) : bool := move_ID m =? move_ID other.

(** ** GameState *)

Record GameState : Type := mkGameState {
  board : Board;
  whiteToMove : bool;
  moveLog : list Move
}.

(** [GameState.__init__] *)
Definition initial_board : Board :=
  [ [bR; bN; bB; bQ; bK; bB; bN; bR];
    repeat bp 8;
    repeat empty 8; repeat empty 8; repeat empty 8; repeat empty 8;
    repeat wp 8;
    [wR; wN; wB; wQ; wK; wB; wN; wR] ].

Definition GameState_init : GameState := mkGameState initial_board true [].

(** [list.pop()]: the last element and the list without it. *)
Fixpoint pop {A : Type} (l : list A) : option (list A * A) :=
  match l with
  | [] => None
  | x :: l' =>
      match pop l' with
      | None => Some ([], x)
      | Some (rest, y) => Some (x :: rest, y)
      end
  end.

(** [make_move] and [undo_move] mutate the state; the state after the call
    is returned also when the call raises. *)
Definition make_move (move : Move) (gs : GameState) : GameState * result unit :=
  match board_set (board gs) (start_row move) (start_col move) empty with
  | Raise e => (gs, Raise e)
  | Ok b1 =>
      match board_set b1 (end_row move) (end_col move) (piece_moved move) with
      | Raise e => (mkGameState b1 (whiteToMove gs) (moveLog gs), Raise e)
      | Ok b2 =>
          (mkGameState b2 (negb (whiteToMove gs)) (moveLog gs ++ [move]), Ok tt)
      end
  end.

Definition undo_move (gs : GameState) : GameState * result unit :=
  if negb (length (moveLog gs) =? 0)%nat then
    match pop (moveLog gs) with
    | None => (gs, Raise IndexError)
    | Some (log', move) =>
        match board_set (board gs) (start_row move) (start_col move)
                        (piece_moved move) with
        | Raise e => (mkGameState (board gs) (whiteToMove gs) log', Raise e)
        | Ok b1 =>
            match board_set b1 (end_row move) (end_col move)
                            (piece_captured move) with
            | Raise e => (mkGameState b1 (whiteToMove gs) log', Raise e)
            | Ok b2 => (mkGameState b2 (negb (whiteToMove gs)) log', Ok tt)
            end
        end
    end
  else (gs, Ok tt).

(** ** Statements over the shared list [moves]

    A statement receives the list built so far and returns the list after
    it ran, with a flag telling whether a [break] is pending. *)

Inductive ctl : Type := Normal | Break.

Definition stmt : Type := list Move -> result (ctl * list Move).
Definition cond : Type := result bool.

Definition skip : stmt := fun moves => Ok (Normal, moves).
Definition break : stmt := fun moves => Ok (Break, moves).

Definition seq2 (s1 s2 : stmt) : stmt := fun moves =>
  let* r := s1 moves in
  match fst r with
  | Normal => s2 (snd r)
  | Break => Ok (Break, snd r)
  end.

Definition block (ss : list stmt) : stmt := fold_right seq2 skip ss.

Definition IfElse (c : cond) (s1 s2 : stmt) : stmt := fun moves =>
  let* b := c in if b then s1 moves else s2 moves.

Definition If (c : cond) (s : stmt) : stmt := IfElse c s skip.

(** [x = e; s] for an expression that may raise *)
Definition Let {A : Type} (e : result A) (k : A -> stmt) : stmt := fun moves =>
  let* x := e in k x moves.

(** [for x in xs: body]; a [break] in the body ends the loop. *)
Fixpoint For {A : Type} (xs : list A) (body : A -> stmt) : stmt := fun moves =>
  match xs with
  | [] => Ok (Normal, moves)
  | x :: xs' =>
      let* r := body x moves in
      match fst r with
      | Normal => For xs' body (snd r)
      | Break => Ok (Normal, snd r)
      end
  end.

(** A method call: a pending [break] never leaves the callee. *)
Definition call (s : stmt) : stmt := fun moves =>
  let* r := s moves in Ok (Normal, snd r).

(** [moves.append(Move(start, end, self.board))] *)
Definition append (start_sq end_sq : Z * Z) (b : Board) : stmt := fun moves =>
  let* m := Move_init start_sq end_sq b in Ok (Normal, moves ++ [m]).

(** Python's [range(start, stop, step)] for a non-zero step. *)
Definition range (start stop step : Z) : list Z :=
  let n := if 0 <? step then (stop - start + step - 1) / step
           else (start - stop - step - 1) / (- step) in
  map (fun k => start + Z.of_nat k * step) (seq 0 (Z.to_nat n)).

(** Conditions *)
Definition pure (b : bool) : cond := Ok b.
Definition cand (a b : cond) : cond := let* x := a in if x then b else Ok false.
Definition cor (a b : cond) : cond := let* x := a in if x then Ok true else b.
Definition cnot (a : cond) : cond := let* x := a in Ok (negb x).

(** [board[r][c] == sq], [board[r][c] != sq], [board[r][c][0] == ch] *)
Definition sq_is (b : Board) (r c : Z) (sq : square) : cond :=
  let* x := board_get b r c in Ok (square_eqb x sq).
Definition sq_isnt (b : Board) (r c : Z) (sq : square) : cond :=
  let* x := board_get b r c in Ok (negb (square_eqb x sq)).
Definition colour_is (b : Board) (r c : Z) (ch : ascii) : cond :=
  let* x := board_get b r c in Ok (Ascii.eqb (colour x) ch).

(** ** The move generators *)

(** [get_pawn_moves(self, r, c, moves)] *)
Definition get_pawn_moves (gs : GameState) (r c : Z) : stmt :=
  let b := board gs in
  IfElse (pure (whiteToMove gs))
    (block [
       If (sq_is b (r-1) c empty) (block [
         append (r, c) (r-1, c) b;
         If (cand (pure (r =? 6)) (sq_is b (r-2) c empty))
            (append (r, c) (r-2, c) b) ]);
       If (pure (c-1 >=? 0))
          (If (colour_is b (r-1) (c-1) "b"%char)
              (append (r, c) (r-1, c-1) b));
       If (pure (c+1 <=? 7))
          (If (colour_is b (r-1) (c+1) "b"%char)
              (append (r, c) (r-1, c+1) b)) ])
    (block [
       If (sq_is b (r+1) c empty) (block [
         append (r, c) (r+1, c) b;
         If (cand (pure (r =? 1)) (sq_is b (r+2) c empty))
            (append (r, c) (r+2, c) b) ]);
       If (pure (c-1 >=? 0))
          (If (colour_is b (r+1) (c-1) "w"%char)
              (append (r, c) (r+1, c-1) b));
       If (pure (c+1 <=? 7))
          (If (colour_is b (r+1) (c+1) "w"%char)
              (append (r, c) (r+1, c+1) b)) ]).

(** [get_rook_moves(self, r, c, moves)] *)
Definition get_rook_moves (gs : GameState) (r c : Z) : stmt :=
  let b := board gs in
  IfElse (pure (whiteToMove gs))
    (block [
       If (pure (r-1 >=? 0))
          (For (range (r-1) (-1) (-1)) (fun i => block [
             If (sq_is b i c empty) (append (r, c) (i, c) b);
             If (sq_isnt b i c empty) (block [
               If (colour_is b i c "b"%char) (append (r, c) (i, c) b);
               If (colour_is b i c "w"%char) break ]) ]));
       If (pure (c-1 >=? 0))
          (For (range (c-1) (-1) (-1)) (fun i => block [
             If (sq_is b r i empty) (append (r, c) (r, i) b);
             If (sq_isnt b r i empty) (block [
               If (colour_is b r i "b"%char) (append (r, c) (r, i) b);
               If (colour_is b r i "w"%char) break ]) ]));
       If (pure (c+1 <=? 7))
          (For (range (c+1) 8 1) (fun i => block [
             If (sq_is b r i empty) (append (r, c) (r, i) b);
             If (sq_isnt b r i empty) (block [
               If (colour_is b r i "b"%char) (append (r, c) (r, i) b);
               If (colour_is b r i "w"%char) break ]) ]));
       If (pure (r+1 <=? 7))
          (For (range (r+1) 8 1) (fun i => block [
             If (sq_is b i c empty) (append (r, c) (i, c) b);
             If (sq_isnt b i c empty) (block [
               If (colour_is b i c "b"%char) (append (r, c) (i, c) b);
               If (colour_is b i c "w"%char) break ]) ])) ])
    (block [
       If (pure (r-1 >=? 0))
          (For (range (r-1) (-1) (-1)) (fun i => block [
             If (sq_is b i c empty) (append (r, c) (i, c) b);
             If (sq_isnt b i c empty) (block [
               If (colour_is b i c "w"%char) (append (r, c) (i, c) b);
               If (colour_is b i c "b"%char) break ]) ]));
       If (pure (c-1 >=? 0))
          (For (range (c-1) (-1) (-1)) (fun i => block [
             If (sq_is b r i empty) (append (r, c) (r, i) b);
             If (sq_isnt b r i empty) (block [
               If (colour_is b r i "w"%char) (append (r, c) (r, i) b);
               If (colour_is b r i "b"%char) break ]) ]));
       If (pure (c+1 <=? 7))
          (For (range (c+1) 8 1) (fun i => block [
             If (sq_is b r i empty) (append (r, c) (r, i) b);
             If (sq_isnt b r i empty) (block [
               If (colour_is b r i "w"%char) (append (r, c) (r, i) b);
               If (colour_is b r i "b"%char) break ]) ]));
       If (pure (r+1 <=? 7))
          (For (range (r+1) 8 1) (fun i => block [
             If (sq_is b i c empty) (append (r, c) (i, c) b);
             If (sq_isnt b i c empty) (block [
               If (colour_is b i c "w"%char) (append (r, c) (i, c) b);
               If (colour_is b i c "b"%char) break ]) ])) ]).

(** [get_knight_moves(self, r, c, moves)] *)
Definition get_knight_moves (gs : GameState) (r c : Z) : stmt :=
  let b := board gs in
  IfElse (pure (whiteToMove gs))
    (block [
       If (pure (c-1 >=? 0)) (block [
         If (pure (r-2 >=? 0)) (block [
           If (sq_is b (r-2) (c-1) empty) (append (r, c) (r-2, c-1) b);
           If (colour_is b (r-2) (c-1) "b"%char) (append (r, c) (r-2, c-1) b) ]);
         If (pure (r+2 <=? 7)) (block [
           If (sq_is b (r+2) (c-1) empty) (append (r, c) (r+2, c-1) b);
           If (colour_is b (r+2) (c-1) "b"%char) (append (r, c) (r+2, c-1) b) ]) ]);
       If (pure (c-2 >=? 0)) (block [
         If (pure (r-1 >=? 0)) (block [
           If (sq_is b (r-1) (c-2) empty) (append (r, c) (r-1, c-2) b);
           If (colour_is b (r-1) (c-2) "b"%char) (append (r, c) (r-1, c-2) b) ]);
         If (pure (r+1 <=? 7)) (block [
           If (sq_is b (r+1) (c-2) empty) (append (r, c) (r+1, c-2) b);
           If (colour_is b (r+1) (c-2) "b"%char) (append (r, c) (r+1, c-2) b) ]) ]);
       If (pure (c+1 <=? 7)) (block [
         If (pure (r-2 >=? 0)) (block [
           If (sq_is b (r-2) (c+1) empty) (append (r, c) (r-2, c+1) b);
           If (colour_is b (r-2) (c+1) "b"%char) (append (r, c) (r-2, c+1) b) ]);
         If (pure (r+2 <=? 7)) (block [
           If (sq_is b (r+2) (c+1) empty) (append (r, c) (r+2, c+1) b);
           If (colour_is b (r+2) (c+1) "b"%char) (append (r, c) (r+2, c+1) b) ]) ]);
       If (pure (c+2 <=? 7)) (block [
         If (pure (r-1 >=? 0)) (block [
           If (sq_is b (r-1) (c+2) empty) (append (r, c) (r-1, c+2) b);
           If (colour_is b (r-1) (c+2) "b"%char) (append (r, c) (r-1, c+2) b) ]);
         If (pure (r+1 <=? 7)) (block [
           If (sq_is b (r+1) (c+2) empty) (append (r, c) (r+1, c+2) b);
           If (colour_is b (r+1) (c+2) "b"%char) (append (r, c) (r+1, c+2) b) ]) ]) ])
    (block [
       If (pure (c-1 >=? 0)) (block [
         If (pure (r-2 >=? 0)) (block [
           If (sq_is b (r-2) (c-1) empty) (append (r, c) (r-2, c-1) b);
           If (colour_is b (r-2) (c-1) "w"%char) (append (r, c) (r-2, c-1) b) ]);
         If (pure (r+2 <=? 7)) (block [
           If (sq_is b (r+2) (c-1) empty) (append (r, c) (r+2, c-1) b);
           If (colour_is b (r+2) (c-1) "w"%char) (append (r, c) (r+2, c-1) b) ]) ]);
       If (pure (c-2 >=? 0)) (block [
         If (pure (r-1 >=? 0)) (block [
           If (sq_is b (r-1) (c-2) empty) (append (r, c) (r-1, c-2) b);
           If (colour_is b (r-1) (c-2) "w"%char) (append (r, c) (r+2, c-1) b) ]);
         If (pure (r+1 <=? 7)) (block [
           If (sq_is b (r+1) (c-2) empty) (append (r, c) (r+1, c-2) b);
           If (colour_is b (r+1) (c-2) "w"%char) (append (r, c) (r+1, c-2) b) ]) ]);
       If (pure (c+1 <=? 7)) (block [
         If (pure (r-2 >=? 0)) (block [
           If (sq_is b (r-2) (c+1) empty) (append (r, c) (r-2, c+1) b);
           If (colour_is b (r-2) (c+1) "w"%char) (append (r, c) (r-2, c+1) b) ]);
         If (pure (r+2 <=? 7)) (block [
           If (sq_is b (r+2) (c+1) empty) (append (r, c) (r+2, c+1) b);
           If (colour_is b (r+2) (c+1) "w"%char) (append (r, c) (r+2, c+1) b) ]) ]);
       If (pure (c+2 <=? 7)) (block [
         If (pure (r-1 >=? 0)) (block [
           If (sq_is b (r-1) (c+2) empty) (append (r, c) (r-1, c+2) b);
           If (colour_is b (r-1) (c+2) "w"%char) (append (r, c) (r-1, c+2) b) ]);
         If (pure (r+1 <=? 7)) (block [
           If (sq_is b (r+1) (c+2) empty) (append (r, c) (r+1, c+2) b);
           If (colour_is b (r+1) (c+2) "w"%char) (append (r, c) (r+1, c+2) b) ]) ]) ]).

(** [get_bishop_moves(self, r, c, moves)] *)
Definition get_bishop_moves (gs : GameState) (r c : Z) : stmt :=
  let b := board gs in
  let directions := [(-1, -1); (-1, 1); (1, -1); (1, 1)] in
  let enemy_color := if whiteToMove gs then "b"%char else "w"%char in
  For directions (fun d =>
    For (range 1 8 1) (fun i =>
      let end_row := r + fst d * i in
      let end_col := c + snd d * i in
      IfElse (pure ((0 <=? end_row) && (end_row <? 8) &&
                    ((0 <=? end_col) && (end_col <? 8))))
        (Let (board_get b end_row end_col) (fun end_piece =>
           IfElse (pure (square_eqb end_piece empty))
             (append (r, c) (end_row, end_col) b)
             (IfElse (pure (Ascii.eqb (colour end_piece) enemy_color))
                (block [append (r, c) (end_row, end_col) b; break])
                break)))
        break)).

(** [get_queen_moves(self, r, c, moves)] *)
Definition get_queen_moves (gs : GameState) (r c : Z) : stmt :=
  block [call (get_rook_moves gs r c); call (get_bishop_moves gs r c)].

(** [get_king_moves(self, r, c, moves)] *)
Definition get_king_moves (gs : GameState) (r c : Z) : stmt :=
  let b := board gs in
  let king_moves :=
    [(-1, -1); (-1, 0); (-1, 1); (0, -1); (0, 1); (1, -1); (1, 0); (1, 1)] in
  let ally_color := if whiteToMove gs then "w"%char else "b"%char in
  For (range 0 8 1) (fun i =>
    let end_row := r + fst (nth (Z.to_nat i) king_moves (0, 0)) in
    let end_col := c + snd (nth (Z.to_nat i) king_moves (0, 0)) in
    If (pure ((0 <=? end_row) && (end_row <? 8) &&
              ((0 <=? end_col) && (end_col <? 8))))
      (Let (board_get b end_row end_col) (fun end_piece =>
         If (pure (negb (Ascii.eqb (colour end_piece) ally_color)))
            (append (r, c) (end_row, end_col) b)))).

(** The dictionary [self.move_functions]; a missing key raises [KeyError]. *)
Definition move_functions (gs : GameState) (piece : ascii)
  : result (Z -> Z -> stmt) :=
  if Ascii.eqb piece "p"%char then Ok (get_pawn_moves gs)
  else if Ascii.eqb piece "R"%char then Ok (get_rook_moves gs)
  else if Ascii.eqb piece "N"%char then Ok (get_knight_moves gs)
  else if Ascii.eqb piece "B"%char then Ok (get_bishop_moves gs)
  else if Ascii.eqb piece "Q"%char then Ok (get_queen_moves gs)
  else if Ascii.eqb piece "K"%char then Ok (get_king_moves gs)
  else Raise KeyError.

(** The body run for the square [(r, c)] by the scan of
    [get_all_possible_moves]. *)
Definition scan_square (gs : GameState) (r c : Z) : stmt :=
  let b := board gs in
  Let (board_get b r c) (fun sq =>
    let turn := colour sq in
    If (pure ((Ascii.eqb turn "w"%char && whiteToMove gs) ||
              (Ascii.eqb turn "b"%char && negb (whiteToMove gs))))
       (Let (board_get b r c) (fun sq' =>
          let piece := kind sq' in
          Let (move_functions gs piece) (fun f => call (f r c))))).

(** [get_all_possible_moves(self)] *)
Definition get_all_possible_moves (gs : GameState) : result (list Move) :=
  let b := board gs in
  let* res :=
    For (range 0 (Z.of_nat (length b)) 1) (fun r =>
      Let (get_row b r) (fun row =>
        For (range 0 (Z.of_nat (length (snd row))) 1) (fun c =>
          scan_square gs r c))) []
  in Ok (snd res).

(** [get_valid_moves(self)] *)
Definition get_valid_moves (gs : GameState) : result (list Move) :=
  get_all_possible_moves gs.

(** ** Playing from a state

    [plays gs ms gs'] : starting in [gs], the moves [ms] are applied one after
    the other with [make_move], each one drawn from the list that
    [get_valid_moves] returns in the state it is applied to. *)

Inductive plays : GameState -> list Move -> GameState -> Prop :=
| plays_nil gs : plays gs [] gs
| plays_cons gs vs m ms gs' :
    get_valid_moves gs = Ok vs ->
    In m vs ->
    plays (fst (make_move m gs)) ms gs' ->
    plays gs (m :: ms) gs'.

Definition reachable (gs : GameState) : Prop :=
  exists ms, plays GameState_init ms gs.

(** [undo_move] called [n] times; stops at the first call that raises. *)
Fixpoint undo_moves (n : nat) (gs : GameState) : GameState * result unit :=
  match n with
  | O => (gs, Ok tt)
  | S n' =>
      match undo_move gs with
      | (gs', Ok _) => undo_moves n' gs'
      | (gs', Raise e) => (gs', Raise e)
      end
  end.

(** Choosing moves by identifier: at each turn the move of the generated list
    that has the given [move_ID] is applied. *)
Fixpoint play_ids (ids : list Z) (gs : GameState)
  : option (list Move * GameState) :=
  match ids with
  | [] => Some ([], gs)
  | id :: ids' =>
      match get_valid_moves gs with
      | Raise _ => None
      | Ok vs =>
          match List.find (fun m => move_ID m =? id) vs with
          | None => None
          | Some m =>
              match play_ids ids' (fst (make_move m gs)) with
              | None => None
              | Some (ms, gs') => Some (m :: ms, gs')
              end
          end
      end
  end.

Definition coords (m : Move) : Z * Z * Z * Z :=
  (start_row m, start_col m, end_row m, end_col m).

Definition ends (ms : list Move) : list (Z * Z) :=
  map (fun m => (end_row m, end_col m)) ms.

Definition on_board (x : Z) : Prop := 0 <= x < 8.

Definition empty_row : list square := repeat empty 8.

(** ** Positions used below *)

(** Final state of a [play_ids] run ([gs] itself when the run is refused). *)
Definition after_ids (ids : list Z) (gs : GameState) : GameState :=
  match play_ids ids gs with
  | Some (_, gs') => gs'
  | None => gs
  end.

(** 1. a4 b5 2. axb5 a6 3. bxa6 h6 4. a7 h5 5. axb8 h4 6. Nc3 h3:
    a white pawn stands on row 0 (b8), b1 is empty, White to move. *)
Definition white_pawn_row0_ids : list Z :=
  [6040; 1131; 4031; 1020; 3120; 1727; 2010; 2737; 1001; 3747; 7152; 4757].
Definition white_pawn_row0 : GameState :=
  after_ids white_pawn_row0_ids GameState_init.

(** 1. a3 h5 2. g4 hxg4 3. a4 g3 4. a5 gxh2 5. a6 hxg1 6. axb7:
    a black pawn stands on row 7 (g1), Black to move. *)
Definition black_pawn_row7_ids : list Z :=
  [6050; 1737; 6646; 3746; 5040; 4656; 4030; 5667; 3020; 6776; 2011].
Definition black_pawn_row7 : GameState :=
  after_ids black_pawn_row7_ids GameState_init.

(** 1. c4 Nf6 2. c5 Ne4 3. a3: a black knight on e4 = (4,4), a white pawn
    on c5 = (3,2), Black to move. *)
Definition black_knight_e4_ids : list Z := [6242; 625; 4232; 2544; 6050].
Definition black_knight_e4 : GameState :=
  after_ids black_knight_e4_ids GameState_init.

(** A white rook at (4,4), a black pawn at (4,6), a white pawn at (2,4),
    every other square empty, White to move. *)
Definition rook_example_board : Board :=
  [ empty_row; empty_row;
    [empty; empty; empty; empty; wp; empty; empty; empty];
    empty_row;
    [empty; empty; empty; empty; wR; empty; bp; empty];
    empty_row; empty_row; empty_row ].
Definition rook_example : GameState := mkGameState rook_example_board true [].

(** The board after 1. e4, and a position where moving the rook away from e2
    leaves the white king on e1 open to the black rook on e8. *)
Definition board_after_e4 : Board :=
  board (after_ids [6444] GameState_init).

Definition pinned_rook_board : Board :=
  [ [empty; empty; empty; empty; bR; empty; empty; bK];
    empty_row; empty_row; empty_row; empty_row; empty_row;
    [empty; empty; empty; empty; wR; empty; empty; empty];
    [empty; empty; empty; empty; wK; empty; empty; empty] ].
Definition pinned_rook : GameState := mkGameState pinned_rook_board true [].

(** Classification of the moves of the initial position. *)
Definition pawn_push (n : Z) (m : Move) : bool :=
  square_eqb (piece_moved m) wp && square_eqb (piece_captured m) empty &&
  (end_col m =? start_col m) && (end_row m =? start_row m - n).

Definition knight_move (m : Move) : bool := square_eqb (piece_moved m) wN.


(** ** Positions on the board

    [shape b] lists the lengths of the rows; [pos] resolves a pair of numpy
    indices to the row and column numbers it addresses, or raises. *)

Definition shape (b : Board) : list nat := map length b.

Definition pos (sh : list nat) (r c : Z) : result (nat * nat) :=
  let* i := np_index (length sh) r in
  match sh !! i with
  | Some n => let* j := np_index n c in Ok (i, j)
  | None => Raise IndexError
  end.

Definition get_at (b : Board) (p : nat * nat) : option square :=
  match b !! fst p with
  | Some row => row !! snd p
  | None => None
  end.

Definition set_at (b : Board) (p : nat * nat) (v : square) : Board :=
  alter (fun row => <[snd p := v]> row) (fst p) b.

Definition board_8x8 (b : Board) : Prop := shape b = repeat 8%nat 8.

(** The move [m] is what [Move.__init__] builds from its own coordinates over
    the board [b]. *)
Definition from_board (b : Board) (m : Move) : Prop :=
  Move_init (start_row m, start_col m) (end_row m, end_col m) b = Ok m.

(** ** Statements that only append *)

Definition extend (moves : list Move) (out : result (ctl * list Move))
  : result (ctl * list Move) :=
  match out with
  | Ok (k, l) => Ok (k, moves ++ l)
  | Raise e => Raise e
  end.

(** [s] leaves the list it receives in place and appends to it what it
    appends to the empty list; every move appended satisfies [P]. *)
Definition appends (P : Move -> Prop) (s : stmt) : Prop :=
  (forall moves, s moves = extend moves (s [])) /\
  (forall k l, s [] = Ok (k, l) -> Forall P l).

(** ** The scan as the specification words it

    All 64 squares in row-major order; for each square occupied by a piece
    whose colour matches the side to move, the output of the generator keyed
    by the piece's kind, run on its own; the outputs are concatenated in scan
    order.  The first failure met in scan order is the failure of the scan. *)

Definition squares64 : list (Z * Z) :=
  flat_map (fun r => map (fun c => (r, c)) (range 0 8 1)) (range 0 8 1).

Definition side_colour (gs : GameState) : ascii :=
  if whiteToMove gs then "w"%char else "b"%char.

Definition moves_of_square (gs : GameState) (sq : Z * Z) : result (list Move) :=
  let* p := board_get (board gs) (fst sq) (snd sq) in
  if Ascii.eqb (colour p) (side_colour gs) then
    let* generator := move_functions gs (kind p) in
    let* out := generator (fst sq) (snd sq) [] in
    Ok (snd out)
  else Ok [].

Fixpoint concat_results (xs : list (result (list Move))) : result (list Move) :=
  match xs with
  | [] => Ok []
  | x :: xs' =>
      let* l := x in
      let* l' := concat_results xs' in
      Ok (l ++ l')
  end.

Definition spec_valid_moves (gs : GameState) : result (list Move) :=
  concat_results (map (moves_of_square gs) squares64).

(** ** States reached by calls

    [called gs] : [gs] is the state after some sequence of [make_move] and
    [undo_move] calls on a fresh [GameState], with any [Move] arguments,
    whether the calls returned or raised. *)

Inductive called : GameState -> Prop :=
| called_init : called GameState_init
| called_make gs m : called gs -> called (fst (make_move m gs))
| called_undo gs : called gs -> called (fst (undo_move gs)).

(** Every coordinate pair of the move addresses a square of a board of shape
    [sh]. *)
Definition addressable (sh : list nat) (m : Move) : Prop :=
  (exists p, pos sh (start_row m) (start_col m) = Ok p) /\
  (exists p, pos sh (end_row m) (end_col m) = Ok p).

Definition parity (gs : GameState) : Prop :=
  whiteToMove gs = Nat.even (length (moveLog gs)).

(** What every state reached by calls satisfies: the logged moves address
    squares of the board, and the side to move agrees with the parity of the
    log. *)
Definition consistent (gs : GameState) : Prop :=
  Forall (addressable (shape (board gs))) (moveLog gs) /\ parity gs.

(** 1. e4, then undo, then 1. e4 again. *)
Definition e4_undo_e4 : GameState :=
  let e4 := mkMove 6 4 4 4 wp empty 6444 in
  fst (make_move e4 (fst (undo_move (fst (make_move e4 GameState_init))))).

(** Fifty plies from the initial position: the twelve plies that bring the
    white pawn to row 0 (with four captures), then the knights on c3 and f6
    going back and forth. *)
Definition fifty_plies : list Z :=
  white_pawn_row0_ids ++
  concat (repeat [5271; 625; 7152; 2506] 9) ++ [5271; 625].

Definition moves_of_ids (ids : list Z) (gs : GameState) : list Move :=
  match play_ids ids gs with
  | Some (ms, _) => ms
  | None => []
  end.

(** The outcome of a statement that appends the list [x], or raises as [x]
    does. *)
Definition emit (moves : list Move) (x : result (list Move))
  : result (ctl * list Move) :=
  match x with
  | Ok l => Ok (Normal, moves ++ l)
  | Raise e => Raise e
  end.

(** ** The pawn rule as the specification words it

    [sq_at] reads a square of the board ([empty] where [board_get] raises).
    The targets of a pawn, in the order forward pushes, capture to the lower
    column, capture to the higher column. *)

Definition sq_at (b : Board) (r c : Z) : square :=
  match board_get b r c with
  | Ok x => x
  | Raise _ => empty
  end.

Definition empty_at (b : Board) (r c : Z) : bool :=
  square_eqb (sq_at b r c) empty.

Definition colour_at (b : Board) (r c : Z) (ch : ascii) : bool :=
  Ascii.eqb (colour (sq_at b r c)) ch.

Definition white_pawn_targets (b : Board) (r c : Z) : list (Z * Z) :=
  (if empty_at b (r-1) c
   then (r-1, c) :: (if (r =? 6) && empty_at b (r-2) c then [(r-2, c)] else [])
   else []) ++
  (if (0 <=? c-1) && colour_at b (r-1) (c-1) "b" then [(r-1, c-1)] else []) ++
  (if (c+1 <=? 7) && colour_at b (r-1) (c+1) "b" then [(r-1, c+1)] else []).

Definition black_pawn_targets (b : Board) (r c : Z) : list (Z * Z) :=
  (if empty_at b (r+1) c
   then (r+1, c) :: (if (r =? 1) && empty_at b (r+2) c then [(r+2, c)] else [])
   else []) ++
  (if (0 <=? c-1) && colour_at b (r+1) (c-1) "w" then [(r+1, c-1)] else []) ++
  (if (c+1 <=? 7) && colour_at b (r+1) (c+1) "w" then [(r+1, c+1)] else []).

(** A white bishop at (4,4) and a black pawn at (2,6), nothing else. *)
Definition bishop_example_board : Board :=
  [ empty_row; empty_row;
    [empty; empty; empty; empty; empty; empty; bp; empty];
    empty_row;
    [empty; empty; empty; empty; wB; empty; empty; empty];
    empty_row; empty_row; empty_row ].
Definition bishop_example : GameState := mkGameState bishop_example_board true [].

(** ** Chess notation ([Move.get_chess_notation], [Move.get_rank_file])

    The four class dictionaries; the two inverse ones are built by the
    source's dict comprehensions [{v: k for k, v in d.items()}].  Looking up a
    missing key raises [KeyError]. *)

Definition ranks_to_rows : gmap string Z :=
  list_to_map [("1", 7); ("2", 6); ("3", 5); ("4", 4);
               ("5", 3); ("6", 2); ("7", 1); ("8", 0)]%string.

Definition rows_to_ranks : gmap Z string :=
  list_to_map (map (fun kv => (snd kv, fst kv)) (map_to_list ranks_to_rows)).

Definition files_to_cols : gmap string Z :=
  list_to_map [("a", 0); ("b", 1); ("c", 2); ("d", 3);
               ("e", 4); ("f", 5); ("g", 6); ("h", 7)]%string.

Definition cols_to_files : gmap Z string :=
  list_to_map (map (fun kv => (snd kv, fst kv)) (map_to_list files_to_cols)).

(** [d[k]] *)
Definition dict_get {K V : Type} `{Countable K} (d : gmap K V) (k : K) : result V :=
  match d !! k with
  | Some v => Ok v
  | None => Raise KeyError
  end.

(** [get_rank_file(self, r, c)] *)
Definition get_rank_file (r c : Z) : result string :=
  let* file := dict_get cols_to_files c in
  let* rank := dict_get rows_to_ranks r in
  Ok (file ++ rank)%string.

(** [get_chess_notation(self)] *)
Definition get_chess_notation (m : Move) : result string :=
  let* s := get_rank_file (start_row m) (start_col m) in
  let* e := get_rank_file (end_row m) (end_col m) in
  Ok (s ++ e)%string.

(** The letter of column [c] and the digit of row [r] in closed form:
    [chr(ord('a') + c)] and [chr(ord('8') - r)]. *)
Definition file_letter (c : Z) : ascii := ascii_of_nat (97 + Z.to_nat c).
Definition rank_digit (r : Z) : ascii := ascii_of_nat (56 - Z.to_nat r).

Definition on_boardb (x : Z) : bool := (0 <=? x) && (x <? 8).

Definition square_name (r c : Z) : string :=
  String (file_letter c) (String (rank_digit r) EmptyString).

(** ** What the generators promise about a move

    [gen_post gs r c pawn knight m] : [m] was built over the board of [gs],
    starts on [(r, c)], ends on another square whose column is on the board;
    its end row is on the board, unless [m] comes from the pawn generator for
    a white pawn on row 0, when it is -1; it takes a piece of the side to
    move only when it comes from the knight generator with Black to move. *)
Definition gen_post (gs : GameState) (r c : Z) (pawn knight : bool) (m : Move)
  : Prop :=
  from_board (board gs) m /\
  start_row m = r /\ start_col m = c /\
  (end_row m <> r \/ end_col m <> c) /\
  on_board (end_col m) /\
  (on_board (end_row m) \/
   (end_row m = -1 /\ r = 0 /\ whiteToMove gs = true /\ pawn = true)) /\
  (colour (piece_captured m) = side_colour gs ->
   whiteToMove gs = false /\ knight = true).

(** The same for a move of the list [get_valid_moves] returns. *)
Definition move_post (gs : GameState) (m : Move) : Prop :=
  from_board (board gs) m /\
  on_board (start_row m) /\ on_board (start_col m) /\
  colour (piece_moved m) = side_colour gs /\
  (end_row m <> start_row m \/ end_col m <> start_col m) /\
  on_board (end_col m) /\
  (on_board (end_row m) \/
   (end_row m = -1 /\ start_row m = 0 /\ whiteToMove gs = true /\
    kind (piece_moved m) = "p"%char)) /\
  (colour (piece_captured m) = side_colour gs ->
   whiteToMove gs = false /\ kind (piece_moved m) = "N"%char).

(** A black knight on (2,2) with a white pawn on (1,0) and a black pawn on
    (4,1), Black to move. *)
Definition own_capture_board : Board :=
  [ empty_row;
    [wp; empty; empty; empty; empty; empty; empty; empty];
    [empty; empty; bN; empty; empty; empty; empty; empty];
    empty_row;
    [empty; bp; empty; empty; empty; empty; empty; empty];
    empty_row; empty_row; empty_row ].
Definition own_capture : GameState := mkGameState own_capture_board false [].

(** ** Statements and conditions that raise nothing *)

Definition evaluates (c : cond) : Prop := exists b, c = Ok b.

Definition total (s : stmt) : Prop :=
  forall moves, exists k l, s moves = Ok (k, l).

(** Every piece of the side to move has a kind of the dispatch table; with
    Black to move no black pawn stands on row 7 and no black knight on rows
    6 and 7. *)
Definition can_generate (gs : GameState) : Prop :=
  forall r c sq,
    on_board r -> on_board c ->
    board_get (board gs) r c = Ok sq ->
    colour sq = side_colour gs ->
    In (kind sq) ["p"; "R"; "N"; "B"; "Q"; "K"]%char /\
    (whiteToMove gs = false ->
     (kind sq = "p"%char -> r < 7) /\ (kind sq = "N"%char -> r < 6)).

(** A black knight on (6,2) with a white pawn on (5,0), Black to move. *)
Definition knight_row6_board : Board :=
  [ empty_row; empty_row; empty_row; empty_row; empty_row;
    [wp; empty; empty; empty; empty; empty; empty; empty];
    [empty; empty; bN; empty; empty; empty; empty; empty];
    empty_row ].
Definition knight_row6 : GameState := mkGameState knight_row6_board false [].

(** ** The driver ([ChessMain.main])

    The event loop without its drawing: what it does to the game state, to
    the list of valid moves and to the pending clicks.  An event carries
    what the handler reads from pygame while it handles it: the mouse
    position for a button press, the key for a key press.  A click square is
    a tuple [(row, col)], or the empty tuple [()] (here [None]).  An
    exception leaves the loop and ends the program. *)

Module ChessMain.

Definition WIDTH : Z := 512.
Definition HEIGHT : Z := 512.
Definition DIMENSION : Z := 8.
Definition SQ_SIZE : Z := HEIGHT / DIMENSION.
Definition K_z : Z := 122.

Inductive event : Type :=
| QUIT
| MOUSEBUTTONDOWN (location : Z * Z)
| KEYDOWN (key : Z)
| OtherEvent.

Record Driver : Type := mkDriver {
  gs : GameState;
  valid_moves : list Move;
  move_made : bool;
  running : bool;
  sq_selected : option (Z * Z);
  player_clicks : list (option (Z * Z));
  printed : list string
}.

Definition sq_eqb (a b : option (Z * Z)) : bool :=
  match a, b with
  | None, None => true
  | Some (r, c), Some (r', c') => (r =? r') && (c =? c')
  | _, _ => false
  end.

(** [xs[i]] on a Python list *)
Definition list_get {A : Type} (xs : list A) (i : nat) : result A :=
  match nth_error xs i with
  | Some x => Ok x
  | None => Raise IndexError
  end.

(** [Move(start_sq, end_sq, board)] for click squares; indexing the empty
    tuple raises [IndexError]. *)
Definition Move_of_clicks (start_sq end_sq : option (Z * Z)) (b : Board)
  : result Move :=
  match start_sq, end_sq with
  | Some s, Some e => Move_init s e b
  | _, _ => Raise IndexError
  end.

(** [move in valid_moves] *)
Definition move_in (move : Move) (ms : list Move) : bool :=
  existsb (fun x => Move_eq x move) ms.

(** The body of [for e in p.event.get()]. *)
Definition handle_event (e : event) (d : Driver) : result Driver :=
  match e with
  | QUIT =>
      Ok (mkDriver (gs d) (valid_moves d) (move_made d) false
                   (sq_selected d) (player_clicks d) (printed d))
  | MOUSEBUTTONDOWN location =>
      let col := fst location / SQ_SIZE in
      let row := snd location / SQ_SIZE in
      let d1 :=
        if sq_eqb (sq_selected d) (Some (row, col))
        then mkDriver (gs d) (valid_moves d) (move_made d) (running d)
                      None [] (printed d)
        else mkDriver (gs d) (valid_moves d) (move_made d) (running d)
                      (Some (row, col))
                      (player_clicks d ++ [Some (row, col)]) (printed d) in
      if (length (player_clicks d1) =? 2)%nat then
        let* c0 := list_get (player_clicks d1) 0 in
        let* c1 := list_get (player_clicks d1) 1 in
        let* move := Move_of_clicks c0 c1 (board (gs d1)) in
        let* notation := get_chess_notation move in
        let out := printed d1 ++ [notation] in
        if move_in move (valid_moves d1) then
          match make_move move (gs d1) with
          | (g, Ok _) =>
              Ok (mkDriver g (valid_moves d1) true (running d1) None [] out)
          | (_, Raise e) => Raise e
          end
        else
          Ok (mkDriver (gs d1) (valid_moves d1) (move_made d1) (running d1)
                       (sq_selected d1) [sq_selected d1] out)
      else Ok d1
  | KEYDOWN key =>
      if key =? K_z then
        match undo_move (gs d) with
        | (g, Ok _) =>
            Ok (mkDriver g (valid_moves d) true (running d)
                         (sq_selected d) (player_clicks d) (printed d))
        | (_, Raise e) => Raise e
        end
      else Ok d
  | OtherEvent => Ok d
  end.

Fixpoint handle_events (es : list event) (d : Driver) : result Driver :=
  match es with
  | [] => Ok d
  | e :: es' => let* d' := handle_event e d in handle_events es' d'
  end.

(** One turn of [while running]: the events, then the refresh of
    [valid_moves] when a move was made or undone. *)
Definition frame (es : list event) (d : Driver) : result Driver :=
  let* d1 := handle_events es d in
  if move_made d1 then
    let* vs := get_valid_moves (gs d1) in
    Ok (mkDriver (gs d1) vs false (running d1)
                 (sq_selected d1) (player_clicks d1) (printed d1))
  else Ok d1.

(** The state before the first turn of the loop. *)
Definition start : result Driver :=
  let g := GameState_init in
  let* vs := get_valid_moves g in
  Ok (mkDriver g vs false true None [] []).

Definition in_window (e : event) : Prop :=
  match e with
  | MOUSEBUTTONDOWN (x, y) => 0 <= x < WIDTH /\ 0 <= y < HEIGHT
  | _ => True
  end.

(** [driven d] : [d] is the state at the top of the loop after some turns,
    every mouse position inside the window. *)
Inductive driven : Driver -> Prop :=
| driven_start d : start = Ok d -> driven d
| driven_frame d es d' :
    driven d -> running d = true -> Forall in_window es ->
    frame es d = Ok d' -> driven d'.

(** No click is pending, or one click on a board square is. *)
Definition clicks_ok (d : Driver) : Prop :=
  (sq_selected d = None /\ player_clicks d = []) \/
  (exists s, on_board (fst s) /\ on_board (snd s) /\
             sq_selected d = Some s /\ player_clicks d = [Some s]).

(** A mouse position that lies on square [(r, c)]. *)
Definition click (r c : Z) : event :=
  MOUSEBUTTONDOWN (c * SQ_SIZE, r * SQ_SIZE).

End ChessMain.

(** ** Loops that can break

    [loop_post P cont xs m] : [m] was appended in the turn of the loop for
    some element [x] of [xs], where it satisfies [P x], and every earlier
    turn ended without [break], which the loop body does only when [cont]
    holds of its element. *)
Definition loop_post {A : Type} (P : A -> Move -> Prop) (cont : A -> Prop)
    (xs : list A) (m : Move) : Prop :=
  exists pre x post, xs = pre ++ x :: post /\ Forall cont pre /\ P x m.

(** The squares strictly between two squares of a row, a column or a
    diagonal, as steps [1 <= j < i] from the first in direction [(dr, dc)]. *)
Definition between_empty (b : Board) (r c dr dc i : Z) : Prop :=
  forall j, 1 <= j < i -> board_get b (r + dr * j) (c + dc * j) = Ok empty.

Definition between_not_own (gs : GameState) (r c dr dc i : Z) : Prop :=
  forall j, 1 <= j < i ->
    exists x, board_get (board gs) (r + dr * j) (c + dc * j) = Ok x /\
              colour x <> side_colour gs.

(** What the rook generator promises about a move: it goes [i >= 1] steps
    along the row or the column, and no square passed on the way holds a
    piece of the side to move. *)
Definition rook_post (gs : GameState) (r c : Z) (m : Move) : Prop :=
  exists dr dc i,
    In (dr, dc) [(-1, 0); (0, -1); (0, 1); (1, 0)] /\ 1 <= i /\
    start_row m = r /\ start_col m = c /\
    end_row m = r + dr * i /\ end_col m = c + dc * i /\
    between_not_own gs r c dr dc i.

(** The turns of the rook's loops: the square looked at holds no piece of
    the side to move. *)
Definition col_not_own (gs : GameState) (c i : Z) : Prop :=
  exists x, board_get (board gs) i c = Ok x /\ colour x <> side_colour gs.
Definition row_not_own (gs : GameState) (r i : Z) : Prop :=
  exists x, board_get (board gs) r i = Ok x /\ colour x <> side_colour gs.

(** ** The king and knight rules as lists

    [step_move] is the move [Move.__init__] builds on an 8x8 board for
    on-board squares.  [king_step] and [knight_step] give the moves
    contributed by one target square. *)

Definition step_move (b : Board) (r c r' c' : Z) : Move :=
  mkMove r c r' c' (sq_at b r c) (sq_at b r' c')
         (r * 1000 + c * 100 + r' * 10 + c').

Definition king_offsets : list (Z * Z) :=
  [(-1, -1); (-1, 0); (-1, 1); (0, -1); (0, 1); (1, -1); (1, 0); (1, 1)].

Definition king_step (gs : GameState) (r c : Z) (d : Z * Z) : list Move :=
  let r' := r + fst d in
  let c' := c + snd d in
  if on_boardb r' && on_boardb c' &&
     negb (Ascii.eqb (colour (sq_at (board gs) r' c')) (side_colour gs))
  then [step_move (board gs) r c r' c'] else [].

(** The eight knight targets in the order the source tests them. *)
Definition knight_squares (r c : Z) : list (Z * Z) :=
  [(r-2, c-1); (r+2, c-1); (r-1, c-2); (r+1, c-2);
   (r-2, c+1); (r+2, c+1); (r-1, c+2); (r+1, c+2)].

Definition knight_step (b : Board) (r c : Z) (enemy : ascii) (t : Z * Z)
  : list Move :=
  if on_boardb (fst t) && on_boardb (snd t) &&
     (empty_at b (fst t) (snd t) || colour_at b (fst t) (snd t) enemy)
  then [step_move b r c (fst t) (snd t)] else [].

(** [emits s l] : the statement [s] raises nothing, ends without a pending
    [break] and appends exactly [l]. *)
Definition emits (s : stmt) (l : list Move) : Prop :=
  forall moves, s moves = Ok (Normal, moves ++ l).
(** ** Basic facts *)

Lemma play_ids_plays ids : forall gs ms gs',
  play_ids ids gs = Some (ms, gs') -> plays gs ms gs'.
Proof.
  induction ids as [|id ids IH]; intros gs ms gs' H; simpl in H.
  - inversion H; subst. constructor.
  - destruct (get_valid_moves gs) as [vs|] eqn:Hv; [|discriminate].
    destruct (List.find _ vs) as [m|] eqn:Hf; [|discriminate].
    destruct (play_ids ids _) as [[ms' gs'']|] eqn:Hp; [|discriminate].
    inversion H; subst.
    apply List.find_some in Hf as [Hin _].
    econstructor; eauto.
Qed.

Lemma after_ids_reachable ids ms gs :
  play_ids ids GameState_init = Some (ms, gs) -> reachable (after_ids ids GameState_init).
Proof.
  intros H. exists ms. unfold after_ids. rewrite H.
  now apply play_ids_plays with ids.
Qed.

Lemma Move_init_fields s e b m :
  Move_init s e b = Ok m ->
  start_row m = fst s /\ start_col m = snd s /\
  end_row m = fst e /\ end_col m = snd e /\
  move_ID m = fst s * 1000 + snd s * 100 + fst e * 10 + snd e /\
  board_get b (fst s) (snd s) = Ok (piece_moved m) /\
  board_get b (fst e) (snd e) = Ok (piece_captured m).
Proof.
  unfold Move_init. intros H.
  destruct (board_get b (fst s) (snd s)) as [pm|]; [|discriminate].
  destruct (board_get b (fst e) (snd e)) as [pc|]; [|discriminate].
  simpl in H. inversion H; subst; simpl. repeat split.
Qed.

(** ** Move equality *)

(** C7: two [Move] values built by [Move.__init__] whose coordinates lie in
    0..7 compare equal exactly when their coordinate quadruples are equal;
    the boards they were built from, and so [piece_moved] and
    [piece_captured], play no part. *)
Theorem Move_eq_iff_coords s1 e1 b1 s2 e2 b2 m1 m2 :
  Move_init s1 e1 b1 = Ok m1 ->
  Move_init s2 e2 b2 = Ok m2 ->
  on_board (start_row m1) -> on_board (start_col m1) ->
  on_board (end_row m1) -> on_board (end_col m1) ->
  on_board (start_row m2) -> on_board (start_col m2) ->
  on_board (end_row m2) -> on_board (end_col m2) ->
  (Move_eq m1 m2 = true <-> coords m1 = coords m2).
Proof.
  intros H1 H2.
  apply Move_init_fields in H1 as (Ha & Hb & Hc & Hd & Hid1 & _).
  apply Move_init_fields in H2 as (Ha' & Hb' & Hc' & Hd' & Hid2 & _).
  unfold on_board, Move_eq, coords. intros.
  rewrite Z.eqb_eq, Hid1, Hid2, <- Ha, <- Hb, <- Hc, <- Hd,
    <- Ha', <- Hb', <- Hc', <- Hd'.
  split.
  - intros Heq.
    assert (start_row m1 = start_row m2) by lia.
    assert (start_col m1 = start_col m2) by lia.
    assert (end_row m1 = end_row m2) by lia.
    assert (end_col m1 = end_col m2) by lia.
    congruence.
  - intros Heq. inversion Heq. reflexivity.
Qed.

(** The same start and end squares over the initial board and over the board
    after 1. e4: the moved and captured pieces differ, the moves are equal. *)
Lemma Move_eq_iff_coords_witness :
  exists m1 m2,
    Move_init (6, 4) (4, 4) initial_board = Ok m1 /\
    Move_init (6, 4) (4, 4) board_after_e4 = Ok m2 /\
    piece_moved m1 <> piece_moved m2 /\
    piece_captured m1 <> piece_captured m2 /\
    (Move_eq m1 m2 = true <-> coords m1 = coords m2).
Proof.
  eexists; eexists.
  split; [vm_compute; reflexivity|].
  split; [vm_compute; reflexivity|].
  split; [vm_compute; discriminate|].
  split; [vm_compute; discriminate|].
  apply (Move_eq_iff_coords (6, 4) (4, 4) initial_board
                            (6, 4) (4, 4) board_after_e4);
    first [ vm_compute; reflexivity | unfold on_board; simpl; lia ].
Defined.

(** ** Undo with no history *)

Lemma undo_move_nothing_logged gs :
  moveLog gs = [] -> undo_move gs = (gs, Ok tt).
Proof.
  intros H. unfold undo_move. rewrite H. reflexivity.
Qed.

(** C8: with an empty move log, [undo_move] raises nothing and leaves the
    board, the side to move and the log as they were. *)
Theorem undo_move_empty_log gs :
  moveLog gs = [] -> undo_move gs = (gs, Ok tt).
Proof.
  intros H. unfold undo_move. rewrite H. reflexivity.
Qed.

Lemma undo_move_empty_log_witness :
  moveLog GameState_init = [] /\
  undo_move GameState_init = (GameState_init, Ok tt).
Proof.
  split; [reflexivity|]. apply (undo_move_empty_log GameState_init). reflexivity.
Defined.

(** ** The initial position *)

(** C3: in the initial position White has exactly 20 moves, 8 single pawn
    pushes, 8 double pawn pushes and 4 knight moves, and after any one of
    them Black has exactly 20 moves. *)
Theorem initial_position_twenty_moves :
  exists vs,
    get_valid_moves GameState_init = Ok vs /\
    length vs = 20%nat /\
    length (List.filter (pawn_push 1) vs) = 8%nat /\
    length (List.filter (pawn_push 2) vs) = 8%nat /\
    length (List.filter knight_move vs) = 4%nat /\
    forall m, In m vs ->
      exists gs' vs',
        make_move m GameState_init = (gs', Ok tt) /\
        whiteToMove gs' = false /\
        get_valid_moves gs' = Ok vs' /\
        length vs' = 20%nat.
Proof.
  eexists. split; [vm_compute; reflexivity|].
  repeat (split; [reflexivity|]).
  apply List.Forall_forall.
  repeat (constructor;
          [eexists; eexists; split; [vm_compute; reflexivity|];
           split; [reflexivity|]; split; [vm_compute; reflexivity|reflexivity]|]).
  constructor.
Qed.

(** ** The rook generator on the example of the specification *)

(** C1: a white rook at (4,4) with a black pawn at (4,6) and a white pawn at
    (2,4).  The ray to the right appends the capture on (4,6) and goes on to
    (4,7), the square behind the captured piece; the ray upwards stops in
    front of the own pawn. *)
Theorem rook_ray_passes_enemy :
  exists ms,
    get_rook_moves rook_example 4 4 [] = Ok (Normal, ms) /\
    ends ms = [(3, 4); (4, 3); (4, 2); (4, 1); (4, 0);
               (4, 5); (4, 6); (4, 7); (5, 4); (6, 4); (7, 4)] /\
    board_get rook_example_board 4 6 = Ok bp /\
    In (4, 7) (ends ms) /\
    ~ In (2, 4) (ends ms).
Proof.
  eexists. split; [vm_compute; reflexivity|].
  split; [reflexivity|]. split; [reflexivity|].
  split; [simpl; tauto|].
  simpl. intros H. repeat destruct H as [H|H]; try discriminate H. exact H.
Qed.

(** ** The knight generator, Black to move *)

(** C4: a black knight on (4,4) with a white pawn on the offset square
    (3,2), in a position reached by 1. c4 Nf6 2. c5 Ne4 3. a3.  The square
    (3,2) is tested and holds an enemy piece, but the move appended ends on
    (6,3): no move ends on (3,2), and (6,3) is listed twice. *)
Theorem black_knight_wrong_destination :
  reachable black_knight_e4 /\
  whiteToMove black_knight_e4 = false /\
  board_get (board black_knight_e4) 4 4 = Ok bN /\
  board_get (board black_knight_e4) 3 2 = Ok wp /\
  exists ms,
    get_knight_moves black_knight_e4 4 4 [] = Ok (Normal, ms) /\
    ends ms = [(2, 3); (6, 3); (6, 3); (5, 2); (2, 5); (6, 5); (3, 6); (5, 6)] /\
    ~ In (3, 2) (ends ms).
Proof.
  split; [eapply after_ids_reachable; vm_compute; reflexivity|].
  repeat (split; [vm_compute; reflexivity|]).
  eexists. split; [vm_compute; reflexivity|].
  split; [reflexivity|].
  simpl. intros H. repeat destruct H as [H|H]; try discriminate H. exact H.
Qed.

(** ** Pawns on the last rank *)

(** C5: a pawn that has reached the last rank has no forward square on the
    board.  For the white pawn on (0,1) the generator nevertheless appends a
    push, to row -1; for the black pawn on (7,6) the generator raises
    [IndexError], and so does [get_valid_moves].  Both positions are reached
    from the initial position by generated moves. *)
Theorem pawn_on_last_rank :
  (reachable white_pawn_row0 /\
   whiteToMove white_pawn_row0 = true /\
   board_get (board white_pawn_row0) 0 1 = Ok wp /\
   exists ms,
     get_pawn_moves white_pawn_row0 0 1 [] = Ok (Normal, ms) /\
     ends ms = [(-1, 1)]) /\
  (reachable black_pawn_row7 /\
   whiteToMove black_pawn_row7 = false /\
   board_get (board black_pawn_row7) 7 6 = Ok bp /\
   get_pawn_moves black_pawn_row7 7 6 [] = Raise IndexError /\
   get_valid_moves black_pawn_row7 = Raise IndexError).
Proof.
  split.
  - split; [eapply after_ids_reachable; vm_compute; reflexivity|].
    repeat (split; [vm_compute; reflexivity|]).
    eexists. split; vm_compute; reflexivity.
  - split; [eapply after_ids_reachable; vm_compute; reflexivity|].
    repeat split; vm_compute; reflexivity.
Qed.

(** ** Coordinates outside 0..7 *)

(** C10: neither a board probe nor [Move.__init__] checks that coordinates
    lie in 0..7.  In a state reached from the initial position a white pawn
    stands on (0,1); the pawn generator probes row -1, which numpy reads as
    row 7, raises nothing, and returns a move that ends on row -1; the move
    is part of the list [get_valid_moves] returns. *)
Theorem pawn_probe_wraps_to_row7 :
  exists gs m,
    reachable gs /\
    whiteToMove gs = true /\
    board_get (board gs) 0 1 = Ok wp /\
    board_get (board gs) (-1) 1 = Ok empty /\
    board_get (board gs) (-1) 1 = board_get (board gs) 7 1 /\
    Move_init (0, 1) (-1, 1) (board gs) = Ok m /\
    get_pawn_moves gs 0 1 [] = Ok (Normal, [m]) /\
    end_row m = -1 /\
    ~ on_board (end_row m) /\
    exists vs, get_valid_moves gs = Ok vs /\ In m vs.
Proof.
  exists white_pawn_row0. eexists.
  split; [eapply after_ids_reachable; vm_compute; reflexivity|].
  repeat (split; [vm_compute; reflexivity|]).
  split; [unfold on_board; simpl; lia|].
  eexists. split; [vm_compute; reflexivity|].
  simpl. left. reflexivity.
Qed.

(** ** Board lemmas *)

Lemma np_index_bound len i n : np_index len i = Ok n -> (n < len)%nat.
Proof.
  unfold np_index.
  destruct ((0 <=? i) && (i <? Z.of_nat len)) eqn:H1.
  - intros H; inversion H; subst. lia.
  - destruct ((- Z.of_nat len <=? i) && (i <? 0)) eqn:H2;
      [|intros H; discriminate H].
    intros H; inversion H; subst. lia.
Qed.

Lemma shape_lookup (b : Board) (i : nat) : shape b !! i = length <$> (b !! i).
Proof. unfold shape. apply list_lookup_fmap. Qed.

Lemma board_get_pos (b : Board) r c :
  board_get b r c =
  let* p := pos (shape b) r c in
  match get_at b p with
  | Some x => Ok x
  | None => Raise IndexError
  end.
Proof.
  unfold board_get, get_row, pos, get_at, shape.
  rewrite length_map.
  destruct (np_index (length b) r) as [i|] eqn:Hi; simpl; [|reflexivity].
  rewrite list_lookup_fmap.
  destruct (b !! i) as [row|] eqn:Hrow; simpl; [|reflexivity].
  destruct (np_index (length row) c) as [j|]; simpl; [|reflexivity].
  rewrite Hrow. reflexivity.
Qed.

Lemma board_set_pos (b : Board) r c v :
  board_set b r c v = let* p := pos (shape b) r c in Ok (set_at b p v).
Proof.
  unfold board_set, get_row, pos, set_at, shape.
  rewrite length_map.
  destruct (np_index (length b) r) as [i|] eqn:Hi; simpl; [|reflexivity].
  rewrite list_lookup_fmap.
  destruct (b !! i) as [row|] eqn:Hrow; simpl.
  - destruct (np_index (length row) c) as [j|]; simpl; [|reflexivity].
    f_equal. apply list_eq. intros k.
    rewrite list_lookup_insert, list_lookup_alter.
    destruct (decide (i = k)) as [->|Hne].
    + rewrite Hrow. simpl.
      apply lookup_lt_Some in Hrow. rewrite decide_True by (split; auto). reflexivity.
    + rewrite decide_False by tauto. reflexivity.
  - apply np_index_bound in Hi. apply lookup_ge_None_1 in Hrow. lia.
Qed.

Lemma pos_get_at (b : Board) r c p :
  pos (shape b) r c = Ok p -> exists x, get_at b p = Some x.
Proof.
  unfold pos, get_at.
  destruct (np_index _ r) as [i|]; simpl; [|intros; discriminate].
  rewrite shape_lookup.
  destruct (b !! i) as [row|] eqn:Hrow; simpl; [|intros; discriminate].
  destruct (np_index _ c) as [j|] eqn:Hj; simpl; [|intros; discriminate].
  intros H; inversion H; subst; simpl. rewrite Hrow.
  apply np_index_bound in Hj.
  apply lookup_lt_is_Some_2 in Hj. destruct Hj as [x Hx]. eauto.
Qed.

Lemma shape_set_at b p v : shape (set_at b p v) = shape b.
Proof.
  unfold shape, set_at. apply list_eq. intros k.
  rewrite !list_lookup_fmap.
  destruct (decide (fst p = k)) as [<-|Hne];
    [rewrite list_lookup_alter_eq | now rewrite list_lookup_alter_ne].
  destruct (b !! fst p); simpl; [|reflexivity].
  now rewrite length_insert.
Qed.

Lemma get_at_set_at_eq b p v x :
  get_at b p = Some x -> get_at (set_at b p v) p = Some v.
Proof.
  unfold get_at, set_at. rewrite list_lookup_alter_eq.
  destruct (b !! fst p) as [row|]; simpl; [|intros; discriminate].
  intros H. apply lookup_lt_Some in H. now apply list_lookup_insert_eq.
Qed.

Lemma get_at_set_at_ne b p q v :
  p <> q -> get_at (set_at b p v) q = get_at b q.
Proof.
  unfold get_at, set_at. intros Hne.
  destruct (decide (fst p = fst q)) as [Heq|Hr].
  - rewrite Heq, list_lookup_alter_eq.
    destruct (b !! fst q) as [row|]; simpl; [|reflexivity].
    apply list_lookup_insert_ne. intros Hc. apply Hne.
    destruct p, q; simpl in *; congruence.
  - now rewrite list_lookup_alter_ne.
Qed.

Lemma board_ext (b b' : Board) :
  shape b = shape b' -> (forall p, get_at b p = get_at b' p) -> b = b'.
Proof.
  intros Hs Hg. apply list_eq. intros i.
  assert (Hl : shape b !! i = shape b' !! i) by now rewrite Hs.
  rewrite !shape_lookup in Hl.
  destruct (b !! i) as [row|] eqn:Hr, (b' !! i) as [row'|] eqn:Hr';
    simpl in Hl; try discriminate; [|reflexivity].
  f_equal. apply list_eq. intros j.
  specialize (Hg (i, j)). unfold get_at in Hg; simpl in Hg.
  now rewrite Hr, Hr' in Hg.
Qed.

(** ** make_move and undo_move through positions *)

Lemma pop_app {A : Type} (l : list A) (x : A) : pop (l ++ [x]) = Some (l, x).
Proof.
  induction l as [|y l IH]; simpl; [reflexivity|]. now rewrite IH.
Qed.

Lemma pop_Some {A : Type} (l l' : list A) (x : A) :
  pop l = Some (l', x) -> l = l' ++ [x].
Proof.
  revert l'. induction l as [|y l IH]; intros l' H; simpl in H; [discriminate H|].
  destruct (pop l) as [[rest z]|] eqn:Hp.
  - inversion H; subst. simpl. f_equal. now apply IH.
  - inversion H; subst. destruct l as [|z l]; [reflexivity|].
    simpl in Hp. destruct (pop l) as [[? ?]|]; discriminate Hp.
Qed.

Lemma pop_None {A : Type} (l : list A) : pop l = None -> l = [].
Proof.
  destruct l as [|y l]; [reflexivity|]. simpl.
  destruct (pop l) as [[? ?]|]; intros H; discriminate H.
Qed.

Lemma length_snoc_nonzero {A : Type} (l : list A) (x : A) :
  (length (l ++ [x]) =? 0)%nat = false.
Proof. rewrite length_app. simpl. apply Nat.eqb_neq. lia. Qed.

Lemma even_snoc {A : Type} (l : list A) (x : A) :
  Nat.even (length (l ++ [x])) = negb (Nat.even (length l)).
Proof.
  rewrite length_app. simpl. rewrite Nat.add_1_r, Nat.even_succ.
  now rewrite <- Nat.negb_even.
Qed.

Lemma make_move_Ok m gs p q :
  pos (shape (board gs)) (start_row m) (start_col m) = Ok p ->
  pos (shape (board gs)) (end_row m) (end_col m) = Ok q ->
  make_move m gs =
  (mkGameState (set_at (set_at (board gs) p empty) q (piece_moved m))
               (negb (whiteToMove gs)) (moveLog gs ++ [m]), Ok tt).
Proof.
  intros Hp Hq. unfold make_move.
  rewrite board_set_pos, Hp. simpl.
  rewrite board_set_pos, shape_set_at, Hq. reflexivity.
Qed.

Lemma undo_move_Ok gs log m p q :
  moveLog gs = log ++ [m] ->
  pos (shape (board gs)) (start_row m) (start_col m) = Ok p ->
  pos (shape (board gs)) (end_row m) (end_col m) = Ok q ->
  undo_move gs =
  (mkGameState (set_at (set_at (board gs) p (piece_moved m)) q (piece_captured m))
               (negb (whiteToMove gs)) log, Ok tt).
Proof.
  intros Hl Hp Hq. unfold undo_move.
  rewrite Hl, length_snoc_nonzero, pop_app. simpl.
  rewrite board_set_pos, Hp. simpl.
  rewrite board_set_pos, shape_set_at, Hq. reflexivity.
Qed.

Lemma make_move_cases m gs :
  (exists p q,
     pos (shape (board gs)) (start_row m) (start_col m) = Ok p /\
     pos (shape (board gs)) (end_row m) (end_col m) = Ok q /\
     snd (make_move m gs) = Ok tt) \/
  (exists e, snd (make_move m gs) = Raise e /\
     shape (board (fst (make_move m gs))) = shape (board gs) /\
     whiteToMove (fst (make_move m gs)) = whiteToMove gs /\
     moveLog (fst (make_move m gs)) = moveLog gs).
Proof.
  unfold make_move. rewrite board_set_pos.
  destruct (pos _ (start_row m) (start_col m)) as [p|e]; simpl.
  - rewrite board_set_pos, shape_set_at.
    destruct (pos _ (end_row m) (end_col m)) as [q|e]; simpl.
    + left. eauto.
    + right. exists e. rewrite shape_set_at. auto.
  - right. exists e. auto.
Qed.

(** The fields of a move built over [b] are the contents of [b] at the
    positions its coordinates address. *)
Lemma from_board_positions b m :
  from_board b m ->
  exists p q,
    pos (shape b) (start_row m) (start_col m) = Ok p /\
    pos (shape b) (end_row m) (end_col m) = Ok q /\
    get_at b p = Some (piece_moved m) /\
    get_at b q = Some (piece_captured m).
Proof.
  unfold from_board. intros H.
  apply Move_init_fields in H as (_ & _ & _ & _ & _ & Hs & He).
  simpl in Hs, He. rewrite board_get_pos in Hs, He.
  destruct (pos _ (start_row m) (start_col m)) as [p|]; [|discriminate Hs].
  destruct (pos _ (end_row m) (end_col m)) as [q|]; [|discriminate He].
  simpl in Hs, He. exists p, q.
  destruct (get_at b p); [|discriminate Hs].
  destruct (get_at b q); [|discriminate He].
  inversion Hs; inversion He; subst. auto.
Qed.

Lemma make_undo_board b p q pm pc :
  get_at b p = Some pm -> get_at b q = Some pc ->
  set_at (set_at (set_at (set_at b p empty) q pm) p pm) q pc = b.
Proof.
  intros Hp Hq. apply board_ext.
  - now rewrite !shape_set_at.
  - intros x.
    assert (Hq1 : exists v, get_at (set_at (set_at (set_at b p empty) q pm) p pm) q = Some v).
    { destruct (decide (p = q)) as [->|Hne].
      - exists pm. eapply get_at_set_at_eq.
        eapply get_at_set_at_eq. eapply get_at_set_at_eq. exact Hq.
      - exists pm. rewrite get_at_set_at_ne by exact Hne.
        eapply get_at_set_at_eq. rewrite get_at_set_at_ne by exact Hne. exact Hq. }
    destruct Hq1 as [v Hv].
    destruct (decide (q = x)) as [<-|Hqx].
    + rewrite (get_at_set_at_eq _ _ _ _ Hv). now rewrite Hq.
    + rewrite get_at_set_at_ne by exact Hqx.
      destruct (decide (p = x)) as [<-|Hpx].
      * erewrite get_at_set_at_eq; [now rewrite Hp|].
        rewrite get_at_set_at_ne by (intros ->; now apply Hqx).
        eapply get_at_set_at_eq. exact Hp.
      * rewrite !get_at_set_at_ne by assumption. reflexivity.
Qed.

(** One move built over the current board, applied and undone. *)
Lemma make_undo_step gs m :
  from_board (board gs) m ->
  exists gs1, make_move m gs = (gs1, Ok tt) /\ undo_move gs1 = (gs, Ok tt).
Proof.
  intros H. apply from_board_positions in H as (p & q & Hp & Hq & Gp & Gq).
  eexists. split; [now apply make_move_Ok with (p := p) (q := q)|].
  erewrite undo_move_Ok with (p := p) (q := q) (log := moveLog gs) (m := m);
    simpl; rewrite ?shape_set_at; try assumption; try reflexivity.
  rewrite make_undo_board by assumption.
  rewrite negb_involutive. now destruct gs.
Qed.

Lemma undo_moves_succ n : forall gs,
  undo_moves (S n) gs =
  match undo_moves n gs with
  | (gs', Ok _) => undo_move gs'
  | (gs', Raise e) => (gs', Raise e)
  end.
Proof.
  induction n as [|n IH]; intros gs.
  - simpl. destruct (undo_move gs) as [gs' [[]|e]]; reflexivity.
  - change (undo_moves (S (S n)) gs) with
      (match undo_move gs with
       | (gs', Ok _) => undo_moves (S n) gs'
       | (gs', Raise e) => (gs', Raise e)
       end).
    destruct (undo_move gs) as [gs' [[]|e]] eqn:Hu.
    + rewrite IH. simpl. rewrite Hu. reflexivity.
    + simpl. rewrite Hu. reflexivity.
Qed.

(** ** Side to move and the parity of the log *)

Lemma consistent_init : consistent GameState_init.
Proof. split; [constructor|reflexivity]. Qed.

Lemma consistent_make_move m gs :
  consistent gs -> consistent (fst (make_move m gs)).
Proof.
  intros [Hlog Hpar].
  destruct (make_move_cases m gs) as [(p & q & Hp & Hq & _)|(e & _ & Hs & Hw & Hl)].
  - rewrite (make_move_Ok m gs p q Hp Hq). split; simpl.
    + rewrite !shape_set_at. apply Forall_app. split; [exact Hlog|].
      constructor; [|constructor]. split; eauto.
    + unfold parity in *. simpl. rewrite even_snoc. now rewrite Hpar.
  - split.
    + rewrite Hs, Hl. exact Hlog.
    + unfold parity in *. now rewrite Hw, Hl.
Qed.

Lemma consistent_undo_move_snoc gs log m :
  consistent gs -> moveLog gs = log ++ [m] ->
  exists gs', undo_move gs = (gs', Ok tt) /\
    shape (board gs') = shape (board gs) /\
    moveLog gs' = log /\ whiteToMove gs' = negb (whiteToMove gs).
Proof.
  intros [Hlog _] Hl. rewrite Hl in Hlog.
  apply Forall_app in Hlog as [_ Hm].
  apply List.Forall_inv in Hm as [[p Hp] [q Hq]].
  eexists. split; [exact (undo_move_Ok gs log m p q Hl Hp Hq)|].
  simpl. rewrite !shape_set_at. auto.
Qed.

Lemma consistent_undo_move gs :
  consistent gs -> consistent (fst (undo_move gs)).
Proof.
  intros Hc. destruct (pop (moveLog gs)) as [[log m]|] eqn:Hpop.
  - apply pop_Some in Hpop.
    destruct (consistent_undo_move_snoc gs log m Hc Hpop) as (gs' & Hu & Hs & Hl & Hw).
    rewrite Hu. simpl. destruct Hc as [Hlog Hpar]. split.
    + rewrite Hs, Hl. rewrite Hpop in Hlog. now apply Forall_app in Hlog as [? _].
    + unfold parity in *. rewrite Hw, Hl, Hpar, Hpop, even_snoc.
      now rewrite negb_involutive.
  - apply pop_None in Hpop.
    now rewrite (undo_move_nothing_logged gs Hpop).
Qed.

Lemma called_consistent gs : called gs -> consistent gs.
Proof.
  induction 1 as [|gs m _ IH|gs _ IH].
  - apply consistent_init.
  - now apply consistent_make_move.
  - now apply consistent_undo_move.
Qed.

(** C9: in every state reached from the initial one by any sequence of
    [make_move] and [undo_move] calls, White is to move exactly when the log
    has even length.  A [make_move] that returns appends one entry and flips
    the side to move, one that raises changes neither; [undo_move] on a
    non-empty log returns, removes the last entry and flips the side back. *)
Theorem side_to_move_parity gs :
  called gs ->
  (whiteToMove gs = true <-> Nat.even (length (moveLog gs)) = true) /\
  (forall m gs', make_move m gs = (gs', Ok tt) ->
     moveLog gs' = moveLog gs ++ [m] /\
     whiteToMove gs' = negb (whiteToMove gs)) /\
  (forall m gs' e, make_move m gs = (gs', Raise e) ->
     moveLog gs' = moveLog gs /\ whiteToMove gs' = whiteToMove gs) /\
  (forall log m, moveLog gs = log ++ [m] ->
     exists gs', undo_move gs = (gs', Ok tt) /\
       moveLog gs' = log /\ whiteToMove gs' = negb (whiteToMove gs)).
Proof.
  intros Hc. apply called_consistent in Hc. split; [|split; [|split]].
  - destruct Hc as [_ Hpar]. unfold parity in Hpar. now rewrite Hpar.
  - intros m gs' Hm.
    destruct (make_move_cases m gs) as [(p & q & Hp & Hq & _)|(e & He & _)].
    + rewrite (make_move_Ok m gs p q Hp Hq) in Hm. inversion Hm; subst. auto.
    + rewrite Hm in He. discriminate He.
  - intros m gs' e Hm.
    destruct (make_move_cases m gs) as [(p & q & _ & _ & Hok)|(e' & _ & _ & Hw & Hl)].
    + rewrite Hm in Hok. discriminate Hok.
    + rewrite Hm in Hw, Hl. auto.
  - intros log m Hl.
    destruct (consistent_undo_move_snoc gs log m Hc Hl) as (gs' & Hu & _ & Hl' & Hw).
    eauto.
Qed.

Lemma side_to_move_parity_witness :
  called e4_undo_e4 /\
  whiteToMove e4_undo_e4 = false /\
  length (moveLog e4_undo_e4) = 1%nat /\
  (whiteToMove e4_undo_e4 = true <->
   Nat.even (length (moveLog e4_undo_e4)) = true).
Proof.
  assert (Hc : called e4_undo_e4)
    by (unfold e4_undo_e4; repeat constructor).
  split; [exact Hc|].
  split; [reflexivity|]. split; [reflexivity|].
  exact (proj1 (side_to_move_parity e4_undo_e4 Hc)).
Defined.

(** ** Statements that only append *)

Lemma extend_extend moves l out :
  extend moves (extend l out) = extend (moves ++ l) out.
Proof.
  destruct out as [[k l']|e]; simpl; [|reflexivity]. now rewrite app_assoc.
Qed.

Lemma extend_Ok moves out k l :
  extend moves out = Ok (k, l) -> exists l', out = Ok (k, l') /\ l = moves ++ l'.
Proof.
  destruct out as [[k' l']|e]; simpl; intros H; [|discriminate H].
  inversion H; subst. eauto.
Qed.

Section Appends.
Variable P : Move -> Prop.

Lemma appends_skip : appends P skip.
Proof.
  split.
  - intros moves. unfold skip. simpl. now rewrite app_nil_r.
  - intros k l H. inversion H. constructor.
Qed.

Lemma appends_break : appends P break.
Proof.
  split.
  - intros moves. unfold break. simpl. now rewrite app_nil_r.
  - intros k l H. inversion H. constructor.
Qed.

Lemma appends_seq2 s1 s2 :
  appends P s1 -> appends P s2 -> appends P (seq2 s1 s2).
Proof.
  intros [E1 F1] [E2 F2]. split.
  - intros moves. unfold seq2. rewrite (E1 moves).
    destruct (s1 []) as [[[|] l]|e]; simpl; try reflexivity.
    rewrite (E2 (moves ++ l)), (E2 l). now rewrite extend_extend.
  - intros k l. unfold seq2.
    destruct (s1 []) as [[[|] l1]|e] eqn:H1; simpl; intros H.
    + rewrite E2 in H. apply extend_Ok in H as (l2 & H2 & ->).
      apply Forall_app. split; [eapply F1; reflexivity|eapply F2; exact H2].
    + inversion H; subst. eapply F1; reflexivity.
    + discriminate H.
Qed.

Lemma appends_block ss : Forall (appends P) ss -> appends P (block ss).
Proof.
  induction 1 as [|s ss Hs _ IH]; simpl.
  - apply appends_skip.
  - now apply appends_seq2.
Qed.

Lemma appends_IfElse c s1 s2 :
  appends P s1 -> appends P s2 -> appends P (IfElse c s1 s2).
Proof.
  intros [E1 F1] [E2 F2]. unfold IfElse.
  destruct c as [[|]|e]; simpl; split; auto; try discriminate.
Qed.

Lemma appends_If c s : appends P s -> appends P (If c s).
Proof. intros H. apply appends_IfElse; [exact H|apply appends_skip]. Qed.

Lemma appends_Let {A : Type} (e : result A) (k : A -> stmt) :
  (forall x, e = Ok x -> appends P (k x)) -> appends P (Let e k).
Proof.
  intros H. unfold Let. destruct e as [x|e]; simpl.
  - destruct (H x eq_refl) as [E F]. split; auto.
  - split; auto; discriminate.
Qed.

Lemma appends_For {A : Type} (xs : list A) (body : A -> stmt) :
  (forall x, appends P (body x)) -> appends P (For xs body).
Proof.
  intros H. induction xs as [|x xs [E F]]; simpl.
  - apply appends_skip.
  - destruct (H x) as [Ex Fx]. split.
    + intros moves. rewrite (Ex moves).
      destruct (body x []) as [[[|] l]|e]; simpl; try reflexivity.
      rewrite (E (moves ++ l)), (E l). now rewrite extend_extend.
    + intros k l.
      destruct (body x []) as [[[|] l1]|e] eqn:H1; simpl; intros H2.
      * rewrite E in H2. apply extend_Ok in H2 as (l2 & H2 & ->).
        apply Forall_app. split; [eapply Fx; reflexivity|eapply F; exact H2].
      * inversion H2; subst. eapply Fx; reflexivity.
      * discriminate H2.
Qed.

Lemma appends_call s : appends P s -> appends P (call s).
Proof.
  intros [E F]. unfold call. split.
  - intros moves. rewrite (E moves).
    destruct (s []) as [[k l]|e]; reflexivity.
  - intros k l. destruct (s []) as [[k' l']|e] eqn:H1; simpl; intros H.
    + inversion H; subst. eapply F; reflexivity.
    + discriminate H.
Qed.
End Appends.

Lemma Move_init_from_board s e b m : Move_init s e b = Ok m -> from_board b m.
Proof.
  intros H. unfold from_board.
  destruct (Move_init_fields s e b m H) as (-> & -> & -> & -> & _).
  destruct s, e. exact H.
Qed.

Lemma appends_append b s e : appends (from_board b) (append s e b).
Proof.
  unfold append. split.
  - intros moves. destruct (Move_init s e b); reflexivity.
  - intros k l. destruct (Move_init s e b) as [m|] eqn:H; simpl; intros H1.
    + inversion H1; subst. constructor; [|constructor].
      now apply Move_init_from_board with s e.
    + discriminate H1.
Qed.

Ltac appends_tac :=
  repeat first
    [ apply appends_skip | apply appends_break | apply appends_append
    | apply appends_IfElse | apply appends_If | apply appends_call
    | apply appends_For; intros ?
    | apply appends_Let; intros ? _
    | apply appends_block
    | apply List.Forall_nil | apply List.Forall_cons ].

Lemma get_pawn_moves_appends gs r c :
  appends (from_board (board gs)) (get_pawn_moves gs r c).
Proof. unfold get_pawn_moves. appends_tac. Qed.

Lemma get_rook_moves_appends gs r c :
  appends (from_board (board gs)) (get_rook_moves gs r c).
Proof. unfold get_rook_moves. appends_tac. Qed.

Lemma get_knight_moves_appends gs r c :
  appends (from_board (board gs)) (get_knight_moves gs r c).
Proof. unfold get_knight_moves. appends_tac. Qed.

Lemma get_bishop_moves_appends gs r c :
  appends (from_board (board gs)) (get_bishop_moves gs r c).
Proof. unfold get_bishop_moves. appends_tac. Qed.

Lemma get_queen_moves_appends gs r c :
  appends (from_board (board gs)) (get_queen_moves gs r c).
Proof.
  unfold get_queen_moves.
  apply appends_block.
  apply List.Forall_cons; [|apply List.Forall_cons; [|apply List.Forall_nil]];
    apply appends_call.
  - apply get_rook_moves_appends.
  - apply get_bishop_moves_appends.
Qed.

Lemma get_king_moves_appends gs r c :
  appends (from_board (board gs)) (get_king_moves gs r c).
Proof. unfold get_king_moves. appends_tac. Qed.

Lemma move_functions_appends gs piece f r c :
  move_functions gs piece = Ok f -> appends (from_board (board gs)) (f r c).
Proof.
  unfold move_functions.
  repeat match goal with
         | |- context [if ?b then _ else _] => destruct b
         end;
    intros H; inversion H; subst;
    auto using get_pawn_moves_appends, get_rook_moves_appends,
      get_knight_moves_appends, get_bishop_moves_appends,
      get_queen_moves_appends, get_king_moves_appends.
Qed.

Lemma scan_square_appends gs r c :
  appends (from_board (board gs)) (scan_square gs r c).
Proof.
  unfold scan_square.
  apply appends_Let. intros sq _. apply appends_If.
  apply appends_Let. intros sq' _.
  apply appends_Let. intros f Hf. apply appends_call.
  now apply move_functions_appends with (kind sq').
Qed.

Lemma get_valid_moves_from_board gs vs :
  get_valid_moves gs = Ok vs -> Forall (from_board (board gs)) vs.
Proof.
  unfold get_valid_moves, get_all_possible_moves.
  match goal with
  | |- context [bind (?s []) _] =>
      assert (Hs : appends (from_board (board gs)) s)
        by (apply appends_For; intros r; apply appends_Let; intros row _;
            apply appends_For; intros c; apply scan_square_appends);
      destruct (s []) as [[k l]|e] eqn:Hrun
  end; simpl; intros H; [|discriminate H].
  inversion H; subst. destruct Hs as [_ F]. eapply F. exact Hrun.
Qed.

(** ** make_move followed by undo_move *)

(** C2: when the moves [ms], each drawn from [get_valid_moves] of the state
    it is applied to, lead from [gs] to [gs'], then as many [undo_move] calls
    lead from [gs'] back to [gs], with the same board, side to move and log,
    whatever the length of [ms]; and in [gs'] every move of
    [get_valid_moves] is applied by [make_move] and taken back by
    [undo_move] without raising.  This holds from every state [gs], so also
    from the initial position. *)
Theorem make_undo_roundtrip gs ms gs' :
  plays gs ms gs' ->
  undo_moves (length ms) gs' = (gs, Ok tt) /\
  (forall vs m, get_valid_moves gs' = Ok vs -> In m vs ->
     exists gs1, make_move m gs' = (gs1, Ok tt) /\
                 undo_move gs1 = (gs', Ok tt)).
Proof.
  intros Hplays. split.
  - induction Hplays as [gs|gs vs m ms gs' Hv Hin _ IH]; [reflexivity|].
    change (length (m :: ms)) with (S (length ms)).
    rewrite undo_moves_succ, IH.
    apply get_valid_moves_from_board in Hv.
    rewrite List.Forall_forall in Hv.
    destruct (make_undo_step gs m (Hv m Hin)) as (gs1 & Hm & Hu).
    rewrite Hm. exact Hu.
  - intros vs m Hv Hin.
    apply get_valid_moves_from_board in Hv.
    rewrite List.Forall_forall in Hv.
    apply make_undo_step. now apply Hv.
Qed.

Lemma make_undo_roundtrip_witness :
  plays GameState_init (moves_of_ids fifty_plies GameState_init)
        (after_ids fifty_plies GameState_init) /\
  length (moves_of_ids fifty_plies GameState_init) = 50%nat /\
  undo_moves 50 (after_ids fifty_plies GameState_init) = (GameState_init, Ok tt).
Proof.
  assert (Hp : plays GameState_init (moves_of_ids fifty_plies GameState_init)
                     (after_ids fifty_plies GameState_init)).
  { apply play_ids_plays with fifty_plies. vm_compute. reflexivity. }
  assert (Hl : length (moves_of_ids fifty_plies GameState_init) = 50%nat)
    by (vm_compute; reflexivity).
  split; [exact Hp|]. split; [exact Hl|].
  rewrite <- Hl. exact (proj1 (make_undo_roundtrip _ _ _ Hp)).
Defined.

(** ** The scan of get_valid_moves *)

Lemma side_colour_test gs t :
  (Ascii.eqb t "w" && whiteToMove gs) || (Ascii.eqb t "b" && negb (whiteToMove gs))
  = Ascii.eqb t (side_colour gs).
Proof.
  unfold side_colour. destruct (whiteToMove gs); simpl.
  - now rewrite andb_true_r, andb_false_r, orb_false_r.
  - now rewrite andb_true_r, andb_false_r.
Qed.

Lemma scan_square_emit gs r c moves :
  scan_square gs r c moves = emit moves (moves_of_square gs (r, c)).
Proof.
  unfold scan_square, moves_of_square, Let, If, IfElse, pure. simpl.
  destruct (board_get (board gs) r c) as [sq|e]; simpl; [|reflexivity].
  rewrite side_colour_test.
  destruct (Ascii.eqb (colour sq) (side_colour gs)); simpl.
  - destruct (move_functions gs (kind sq)) as [f|e] eqn:Hf; simpl; [|reflexivity].
    destruct (move_functions_appends gs (kind sq) f r c Hf) as [E _].
    unfold call. rewrite (E moves).
    destruct (f r c []) as [[k l]|e]; reflexivity.
  - unfold skip. now rewrite app_nil_r.
Qed.

Lemma For_emit {A : Type} (f : A -> result (list Move)) (body : A -> stmt) xs :
  (forall x moves, In x xs -> body x moves = emit moves (f x)) ->
  forall moves, For xs body moves = emit moves (concat_results (map f xs)).
Proof.
  induction xs as [|x xs IH]; intros H moves; simpl.
  - now rewrite app_nil_r.
  - rewrite (H x moves) by (left; reflexivity).
    destruct (f x) as [l|e]; simpl; [|reflexivity].
    rewrite IH by (intros; apply H; now right).
    destruct (concat_results (map f xs)) as [l'|e]; simpl; [|reflexivity].
    now rewrite app_assoc.
Qed.

Lemma concat_results_app xs ys :
  concat_results (xs ++ ys) =
  let* l := concat_results xs in
  let* l' := concat_results ys in
  Ok (l ++ l').
Proof.
  induction xs as [|x xs IH]; simpl.
  - destruct (concat_results ys); reflexivity.
  - destruct x as [l|e]; simpl; [|reflexivity].
    rewrite IH.
    destruct (concat_results xs) as [l1|e]; simpl; [|reflexivity].
    destruct (concat_results ys) as [l2|e]; simpl; [|reflexivity].
    now rewrite app_assoc.
Qed.

Lemma concat_results_flat_map {A B : Type} (g : B -> result (list Move))
      (h : A -> list B) xs :
  concat_results (map g (flat_map h xs)) =
  concat_results (map (fun x => concat_results (map g (h x))) xs).
Proof.
  induction xs as [|x xs IH]; simpl; [reflexivity|].
  rewrite map_app, concat_results_app, IH. reflexivity.
Qed.

Lemma range_0_8 r : In r (range 0 8 1) -> 0 <= r < 8.
Proof.
  change (range 0 8 1) with [0; 1; 2; 3; 4; 5; 6; 7]. simpl.
  intros H. repeat destruct H as [<-|H]; lia.
Qed.

Lemma get_row_8x8 (b : Board) r :
  board_8x8 b -> 0 <= r < 8 ->
  exists i row, get_row b r = Ok (i, row) /\ length row = 8%nat.
Proof.
  intros Hb Hr. unfold board_8x8 in Hb.
  assert (Hlen : length b = 8%nat).
  { unfold shape in Hb. apply (f_equal (@length nat)) in Hb.
    now rewrite length_map in Hb. }
  unfold get_row, np_index. rewrite Hlen.
  replace ((0 <=? r) && (r <? Z.of_nat 8)) with true
    by (symmetry; apply andb_true_iff; split; [apply Z.leb_le|apply Z.ltb_lt]; lia).
  simpl.
  assert (Hs : shape b !! Z.to_nat r = Some 8%nat).
  { rewrite Hb. assert (Hlt : (Z.to_nat r < 8)%nat) by lia.
    destruct (Z.to_nat r) as [|[|[|[|[|[|[|[|n]]]]]]]]; try reflexivity; lia. }
  rewrite shape_lookup in Hs.
  destruct (b !! Z.to_nat r) as [row|]; [|discriminate Hs].
  simpl in Hs. inversion Hs. eauto.
Qed.

Lemma get_all_possible_moves_scan gs :
  board_8x8 (board gs) -> get_all_possible_moves gs = spec_valid_moves gs.
Proof.
  intros Hb. unfold get_all_possible_moves, spec_valid_moves, squares64.
  assert (Hlen : length (board gs) = 8%nat).
  { unfold board_8x8, shape in Hb. apply (f_equal (@length nat)) in Hb.
    now rewrite length_map in Hb. }
  rewrite Hlen. change (Z.of_nat 8) with 8.
  rewrite (For_emit
    (fun r => concat_results (map (fun c => moves_of_square gs (r, c)) (range 0 8 1)))).
  - rewrite concat_results_flat_map.
    match goal with
    | |- context [emit [] ?scan] =>
        change scan with
          (concat_results
             (map (fun r => concat_results
                              (map (moves_of_square gs)
                                   (map (fun c => (r, c)) (range 0 8 1))))
                  (range 0 8 1)))
    end.
    destruct (concat_results _) as [l|e]; reflexivity.
  - intros r moves Hr. apply range_0_8 in Hr.
    destruct (get_row_8x8 (board gs) r Hb Hr) as (i & row & Hrow & Hl).
    unfold Let. rewrite Hrow. cbn [bind snd]. rewrite Hl.
    change (Z.of_nat 8) with 8.
    apply (For_emit (fun c => moves_of_square gs (r, c))). intros c moves' _. apply scan_square_emit.
Qed.

(** C6: on an 8x8 board [get_valid_moves] returns the list obtained by going
    through the 64 squares in row-major order and, for each square holding a
    piece of the side to move, taking the output of the generator of that
    piece's kind, the outputs concatenated in scan order; it is
    [get_all_possible_moves], with no filtering.  In the position
    [pinned_rook] the rook move e2-a2 is returned although it lets the black
    rook capture the white king. *)
Theorem get_valid_moves_row_major_scan gs :
  board_8x8 (board gs) ->
  get_valid_moves gs = spec_valid_moves gs /\
  get_valid_moves gs = get_all_possible_moves gs /\
  exists vs m gs1 vs1 m1,
    get_valid_moves pinned_rook = Ok vs /\ In m vs /\
    coords m = (6, 4, 6, 0) /\
    make_move m pinned_rook = (gs1, Ok tt) /\
    get_valid_moves gs1 = Ok vs1 /\ In m1 vs1 /\
    piece_captured m1 = wK.
Proof.
  intros Hb. split; [|split].
  - unfold get_valid_moves. now apply get_all_possible_moves_scan.
  - reflexivity.
  - eexists. exists (mkMove 6 4 6 0 wR empty 6460).
    eexists. eexists. exists (mkMove 0 4 7 4 bR wK 474).
    split; [vm_compute; reflexivity|].
    split; [simpl; tauto|].
    split; [reflexivity|].
    split; [vm_compute; reflexivity|].
    split; [vm_compute; reflexivity|].
    split; [simpl; tauto|reflexivity].
Qed.

Lemma get_valid_moves_row_major_scan_witness :
  board_8x8 (board GameState_init) /\
  get_valid_moves GameState_init = spec_valid_moves GameState_init.
Proof.
  assert (Hb : board_8x8 (board GameState_init)) by reflexivity.
  split; [exact Hb|].
  exact (proj1 (get_valid_moves_row_major_scan GameState_init Hb)).
Defined.

(** ** The pawn generator where the pawn has a forward rank *)

Lemma board_get_sq_at (b : Board) r c :
  board_8x8 b -> on_board r -> on_board c ->
  board_get b r c = Ok (sq_at b r c).
Proof.
  intros Hb Hr Hc. unfold sq_at.
  destruct (get_row_8x8 b r Hb Hr) as (i & row & Hrow & Hl).
  unfold board_get. rewrite Hrow. cbn [bind snd]. rewrite Hl.
  unfold np_index.
  replace ((0 <=? c) && (c <? Z.of_nat 8)) with true
    by (unfold on_board in Hc; symmetry; apply andb_true_iff;
        split; [apply Z.leb_le|apply Z.ltb_lt]; lia).
  cbn [bind].
  assert (Hlt : (Z.to_nat c < length row)%nat) by (unfold on_board in Hc; lia).
  apply lookup_lt_is_Some_2 in Hlt. destruct Hlt as [x Hx].
  rewrite Hx. reflexivity.
Qed.

Lemma append_8x8 (b : Board) r c r' c' moves :
  board_8x8 b -> on_board r -> on_board c -> on_board r' -> on_board c' ->
  append (r, c) (r', c') b moves =
  Ok (Normal, moves ++ [mkMove r c r' c' (sq_at b r c) (sq_at b r' c')
                               (r * 1000 + c * 100 + r' * 10 + c')]).
Proof.
  intros Hb Hr Hc Hr' Hc'. unfold append, Move_init. simpl.
  rewrite !board_get_sq_at by assumption. reflexivity.
Qed.

Ltac on_board_tac := unfold on_board; auto with zarith.

Ltac read_board :=
  repeat rewrite board_get_sq_at by on_board_tac;
  repeat rewrite append_8x8 by on_board_tac;
  cbn [bind fst snd andb app].

Ltac pawn_cases c r start :=
  rewrite Z.geb_leb;
  destruct (Z.leb_spec 0 (c-1));
  destruct (Z.leb_spec (c+1) 7);
  destruct (Z.eqb_spec r start);
  read_board;
  repeat match goal with
         | |- context [square_eqb ?x ?y] => destruct (square_eqb x y)
         | |- context [Ascii.eqb ?x ?y] => destruct (Ascii.eqb x y)
         | |- _ => progress read_board
         end;
  eexists; (split; [reflexivity|]); (split; [reflexivity|]);
  repeat (constructor; [split; reflexivity|]); constructor.

Lemma get_pawn_moves_white gs r c :
  board_8x8 (board gs) -> whiteToMove gs = true ->
  1 <= r < 8 -> on_board c ->
  exists ms,
    get_pawn_moves gs r c [] = Ok (Normal, ms) /\
    ends ms = white_pawn_targets (board gs) r c /\
    Forall (fun m => start_row m = r /\ start_col m = c) ms.
Proof.
  intros Hb Hw Hr Hc. unfold on_board in Hc.
  unfold get_pawn_moves, white_pawn_targets, empty_at, colour_at.
  rewrite Hw. unfold IfElse, If, IfElse, pure, cand, sq_is, colour_is.
  cbn [bind block fold_right]. unfold seq2, skip.
  rewrite (board_get_sq_at _ (r-1) c) by on_board_tac.
  cbn [bind]. pawn_cases c r 6.
Qed.

Lemma get_pawn_moves_black gs r c :
  board_8x8 (board gs) -> whiteToMove gs = false ->
  0 <= r < 7 -> on_board c ->
  exists ms,
    get_pawn_moves gs r c [] = Ok (Normal, ms) /\
    ends ms = black_pawn_targets (board gs) r c /\
    Forall (fun m => start_row m = r /\ start_col m = c) ms.
Proof.
  intros Hb Hw Hr Hc. unfold on_board in Hc.
  unfold get_pawn_moves, black_pawn_targets, empty_at, colour_at.
  rewrite Hw. unfold IfElse, If, IfElse, pure, cand, sq_is, colour_is.
  cbn [bind block fold_right]. unfold seq2, skip.
  rewrite (board_get_sq_at _ (r+1) c) by on_board_tac.
  cbn [bind]. pawn_cases c r 1.
Qed.

(** The diagonal ray caster stops on the capture: the white bishop at (4,4)
    takes the black pawn on (2,6) and does not go on to (1,7). *)
Example bishop_ray_stops_at_enemy :
  exists ms,
    get_bishop_moves bishop_example 4 4 [] = Ok (Normal, ms) /\
    In (2, 6) (ends ms) /\ ~ In (1, 7) (ends ms).
Proof.
  eexists. split; [vm_compute; reflexivity|].
  split; [simpl; tauto|].
  simpl. intros H. repeat destruct H as [H|H]; try discriminate H. exact H.
Qed.

(** ** Chess notation *)

Lemma on_boardb_spec x : on_boardb x = true <-> on_board x.
Proof.
  unfold on_boardb, on_board. rewrite andb_true_iff, Z.leb_le, Z.ltb_lt. tauto.
Qed.

Lemma on_board_cases x : on_board x ->
  x = 0 \/ x = 1 \/ x = 2 \/ x = 3 \/ x = 4 \/ x = 5 \/ x = 6 \/ x = 7.
Proof. unfold on_board. lia. Qed.

Lemma cols_to_files_eq :
  cols_to_files =
  list_to_map [(0, "a"); (1, "b"); (2, "c"); (3, "d");
               (4, "e"); (5, "f"); (6, "g"); (7, "h")]%string.
Proof. vm_compute. reflexivity. Qed.

Lemma rows_to_ranks_eq :
  rows_to_ranks =
  list_to_map [(0, "8"); (1, "7"); (2, "6"); (3, "5");
               (4, "4"); (5, "3"); (6, "2"); (7, "1")]%string.
Proof. vm_compute. reflexivity. Qed.

Lemma cols_to_files_lookup c :
  cols_to_files !! c =
  if on_boardb c then Some (String (file_letter c) EmptyString) else None.
Proof.
  rewrite cols_to_files_eq. cbn [list_to_map foldr fst snd].
  destruct (on_boardb c) eqn:Hc.
  - apply on_boardb_spec, on_board_cases in Hc.
    repeat destruct Hc as [->|Hc]; try subst c; reflexivity.
  - repeat (rewrite lookup_insert_ne;
            [|intros <-; vm_compute in Hc; discriminate Hc]).
    apply lookup_empty.
Qed.

Lemma rows_to_ranks_lookup r :
  rows_to_ranks !! r =
  if on_boardb r then Some (String (rank_digit r) EmptyString) else None.
Proof.
  rewrite rows_to_ranks_eq. cbn [list_to_map foldr fst snd].
  destruct (on_boardb r) eqn:Hr.
  - apply on_boardb_spec, on_board_cases in Hr.
    repeat destruct Hr as [->|Hr]; try subst r; reflexivity.
  - repeat (rewrite lookup_insert_ne;
            [|intros <-; vm_compute in Hr; discriminate Hr]).
    apply lookup_empty.
Qed.

Lemma get_rank_file_value r c :
  get_rank_file r c =
  if on_boardb c && on_boardb r then Ok (square_name r c) else Raise KeyError.
Proof.
  unfold get_rank_file, dict_get.
  rewrite cols_to_files_lookup, rows_to_ranks_lookup.
  destruct (on_boardb c), (on_boardb r); reflexivity.
Qed.

(** X1: [get_chess_notation] returns the four characters file, rank, file,
    rank when the four coordinates of the move lie in 0..7, and raises
    [KeyError] otherwise; a move that ends on row -1 has no notation. *)
Theorem get_chess_notation_value m :
  get_chess_notation m =
  if on_boardb (start_col m) && on_boardb (start_row m) &&
     (on_boardb (end_col m) && on_boardb (end_row m))
  then Ok (square_name (start_row m) (start_col m) ++
           square_name (end_row m) (end_col m))%string
  else Raise KeyError.
Proof.
  unfold get_chess_notation. rewrite !get_rank_file_value.
  destruct (on_boardb (start_col m) && on_boardb (start_row m)); [|reflexivity].
  destruct (on_boardb (end_col m) && on_boardb (end_row m)); reflexivity.
Qed.

Lemma file_letter_injective c c' :
  on_board c -> on_board c' -> file_letter c = file_letter c' -> c = c'.
Proof.
  intros Hc Hc'. apply on_board_cases in Hc, Hc'.
  repeat destruct Hc as [->|Hc]; try subst c;
    repeat destruct Hc' as [->|Hc']; try subst c';
    intros H; try reflexivity; vm_compute in H; discriminate H.
Qed.

Lemma rank_digit_injective r r' :
  on_board r -> on_board r' -> rank_digit r = rank_digit r' -> r = r'.
Proof.
  intros Hr Hr'. apply on_board_cases in Hr, Hr'.
  repeat destruct Hr as [->|Hr]; try subst r;
    repeat destruct Hr' as [->|Hr']; try subst r';
    intros H; try reflexivity; vm_compute in H; discriminate H.
Qed.

Lemma get_chess_notation_on_board m s :
  get_chess_notation m = Ok s ->
  (on_board (start_row m) /\ on_board (start_col m) /\
   on_board (end_row m) /\ on_board (end_col m)) /\
  s = (square_name (start_row m) (start_col m) ++
       square_name (end_row m) (end_col m))%string.
Proof.
  rewrite get_chess_notation_value.
  destruct (on_boardb (start_col m)) eqn:H1, (on_boardb (start_row m)) eqn:H2,
    (on_boardb (end_col m)) eqn:H3, (on_boardb (end_row m)) eqn:H4;
    simpl; intros H; try discriminate H.
  apply on_boardb_spec in H1, H2, H3, H4. inversion H. auto.
Qed.

(** X2: two moves with the same notation have the same coordinates, so on
    moves that have a notation the notation and [Move.__eq__]'s key carry the
    same information. *)
Theorem get_chess_notation_injective m1 m2 s :
  get_chess_notation m1 = Ok s ->
  get_chess_notation m2 = Ok s ->
  coords m1 = coords m2.
Proof.
  intros H1 H2.
  apply get_chess_notation_on_board in H1 as [(A1 & B1 & C1 & D1) E1].
  apply get_chess_notation_on_board in H2 as [(A2 & B2 & C2 & D2) E2].
  rewrite E1 in E2. unfold square_name in E2. simpl in E2.
  inversion E2 as [[Hf Hr Hf' Hr']].
  apply file_letter_injective in Hf, Hf'; try assumption.
  apply rank_digit_injective in Hr, Hr'; try assumption.
  unfold coords. congruence.
Qed.

Lemma get_chess_notation_injective_witness :
  exists m1 m2,
    Move_init (6, 4) (4, 4) initial_board = Ok m1 /\
    Move_init (6, 4) (4, 4) board_after_e4 = Ok m2 /\
    m1 <> m2 /\
    get_chess_notation m1 = Ok "e2e4"%string /\
    get_chess_notation m2 = Ok "e2e4"%string /\
    coords m1 = coords m2.
Proof.
  eexists; eexists.
  split; [vm_compute; reflexivity|].
  split; [vm_compute; reflexivity|].
  split; [intros H; discriminate H|].
  assert (H1 : get_chess_notation (mkMove 6 4 4 4 wp empty 6444) = Ok "e2e4"%string)
    by (vm_compute; reflexivity).
  assert (H2 : get_chess_notation (mkMove 6 4 4 4 empty wp 6444) = Ok "e2e4"%string)
    by (vm_compute; reflexivity).
  split; [exact H1|]. split; [exact H2|].
  exact (get_chess_notation_injective _ _ _ H1 H2).
Defined.

(** X3: what [get_rank_file] returns reads back through the two forward
    dictionaries: the first part is a key of [files_to_cols] for the column,
    the second a key of [ranks_to_rows] for the row. *)
Theorem get_rank_file_reads_back r c s :
  get_rank_file r c = Ok s ->
  exists file rank,
    s = (file ++ rank)%string /\
    files_to_cols !! file = Some c /\
    ranks_to_rows !! rank = Some r.
Proof.
  rewrite get_rank_file_value.
  destruct (on_boardb c) eqn:Hc, (on_boardb r) eqn:Hr;
    simpl; intros H; try discriminate H.
  inversion H; subst s.
  apply on_boardb_spec, on_board_cases in Hc, Hr.
  exists (String (file_letter c) EmptyString), (String (rank_digit r) EmptyString).
  split; [reflexivity|].
  split.
  - repeat destruct Hc as [->|Hc]; try subst c; vm_compute; reflexivity.
  - repeat destruct Hr as [->|Hr]; try subst r; vm_compute; reflexivity.
Qed.

Lemma get_rank_file_reads_back_witness :
  get_rank_file 6 4 = Ok "e2"%string /\
  exists file rank,
    "e2"%string = (file ++ rank)%string /\
    files_to_cols !! file = Some 4 /\
    ranks_to_rows !! rank = Some 6.
Proof.
  assert (H : get_rank_file 6 4 = Ok "e2"%string) by (vm_compute; reflexivity).
  split; [exact H|]. exact (get_rank_file_reads_back 6 4 _ H).
Defined.

(** ** Statements under their path conditions *)

Lemma appends_IfElse_cond P c s1 s2 :
  (c = Ok true -> appends P s1) -> (c = Ok false -> appends P s2) ->
  appends P (IfElse c s1 s2).
Proof.
  intros H1 H2. unfold IfElse. destruct c as [[|]|e]; simpl.
  - destruct (H1 eq_refl) as [E F]. split; auto.
  - destruct (H2 eq_refl) as [E F]. split; auto.
  - split; auto; intros k l H; discriminate H.
Qed.

Lemma appends_If_cond P c s :
  (c = Ok true -> appends P s) -> appends P (If c s).
Proof.
  intros H. apply appends_IfElse_cond; [exact H|intros _; apply appends_skip].
Qed.

Lemma appends_For_In {A : Type} P (xs : list A) (body : A -> stmt) :
  (forall x, In x xs -> appends P (body x)) -> appends P (For xs body).
Proof.
  induction xs as [|x xs IH]; intros H; simpl.
  - apply appends_skip.
  - destruct (H x (or_introl eq_refl)) as [Ex Fx].
    destruct (IH (fun y Hy => H y (or_intror Hy))) as [E F]. split.
    + intros moves. rewrite (Ex moves).
      destruct (body x []) as [[[|] l]|e]; simpl; try reflexivity.
      rewrite (E (moves ++ l)), (E l). now rewrite extend_extend.
    + intros k l.
      destruct (body x []) as [[[|] l1]|e] eqn:H1; simpl; intros H2.
      * rewrite E in H2. apply extend_Ok in H2 as (l2 & H2 & ->).
        apply Forall_app. split; [eapply Fx; reflexivity|eapply F; exact H2].
      * inversion H2; subst. eapply Fx; reflexivity.
      * discriminate H2.
Qed.

Lemma appends_append_P (P : Move -> Prop) b s e :
  (forall m, Move_init s e b = Ok m -> P m) -> appends P (append s e b).
Proof.
  intros HP. unfold append. split.
  - intros moves. destruct (Move_init s e b); reflexivity.
  - intros k l. destruct (Move_init s e b) as [m|] eqn:H; simpl; intros H1.
    + inversion H1; subst. constructor; [|constructor]. now apply HP.
    + discriminate H1.
Qed.

Lemma appends_weaken (P Q : Move -> Prop) s :
  (forall m, P m -> Q m) -> appends P s -> appends Q s.
Proof.
  intros HPQ [E F]. split; [exact E|].
  intros k l H. eapply Forall_impl; [|exact HPQ]. eapply F; exact H.
Qed.

Lemma range_up_In i a b : In i (range a b 1) -> a <= i < b.
Proof.
  unfold range. change (0 <? 1) with true. cbn match.
  rewrite Z.div_1_r. intros H. apply in_map_iff in H as (k & <- & Hk).
  apply in_seq in Hk. lia.
Qed.

Lemma range_down_In i a b : In i (range a b (-1)) -> b < i <= a.
Proof.
  unfold range. change (0 <? -1) with false. cbn match.
  change (- -1) with 1. rewrite Z.div_1_r.
  intros H. apply in_map_iff in H as (k & <- & Hk).
  apply in_seq in Hk. lia.
Qed.

Lemma np_index_range len i n : np_index len i = Ok n -> - Z.of_nat len <= i < Z.of_nat len.
Proof.
  unfold np_index.
  destruct ((0 <=? i) && (i <? Z.of_nat len)) eqn:H1.
  - intros _. apply andb_true_iff in H1 as [H1 H2].
    apply Z.leb_le in H1. apply Z.ltb_lt in H2. lia.
  - destruct ((- Z.of_nat len <=? i) && (i <? 0)) eqn:H2;
      [|intros H; discriminate H].
    intros _. apply andb_true_iff in H2 as [H2 H3].
    apply Z.leb_le in H2. apply Z.ltb_lt in H3. lia.
Qed.

Lemma board_get_bounds (b : Board) r c x :
  board_8x8 b -> board_get b r c = Ok x -> -8 <= r < 8 /\ -8 <= c < 8.
Proof.
  intros Hb. rewrite board_get_pos. unfold pos.
  assert (Hlen : length (shape b) = 8%nat) by (rewrite Hb; reflexivity).
  rewrite Hlen.
  destruct (np_index 8 r) as [i|] eqn:Hi; [|intros H; discriminate H].
  cbn [bind]. assert (Hi' := np_index_bound _ _ _ Hi).
  assert (Hs : shape b !! i = Some 8%nat).
  { rewrite Hb. destruct i as [|[|[|[|[|[|[|[|n]]]]]]]]; try reflexivity; lia. }
  rewrite Hs.
  destruct (np_index 8 c) as [j|] eqn:Hj; [|intros H; discriminate H].
  intros _. apply np_index_range in Hi, Hj. simpl in Hi, Hj. lia.
Qed.

Lemma square_eqb_true x y : square_eqb x y = true -> x = y.
Proof.
  unfold square_eqb. destruct x, y; simpl.
  rewrite andb_true_iff, !Ascii.eqb_eq. intros [-> ->]. reflexivity.
Qed.

Lemma side_colour_not_dash gs : side_colour gs <> "-"%char.
Proof. unfold side_colour. destruct (whiteToMove gs); discriminate. Qed.

(** ** What every generated move satisfies *)

Lemma cand_true a b : cand a b = Ok true -> a = Ok true /\ b = Ok true.
Proof.
  unfold cand. destruct a as [[|]|e]; simpl; intros H; try discriminate H.
  auto.
Qed.

Ltac walk :=
  repeat first
    [ apply appends_skip | apply appends_break
    | apply appends_append_P; intros ? ?
    | apply appends_block
    | apply List.Forall_nil | apply List.Forall_cons
    | apply appends_IfElse_cond; intros ?
    | apply appends_If_cond; intros ?
    | apply appends_For_In; intros ? ?
    | apply appends_Let; intros ? ?
    | apply appends_call ].

Ltac use_conds Hpc :=
  repeat match goal with
  | H : cand _ _ = Ok true |- _ => apply cand_true in H as [? ?]
  | H : In _ (range _ _ 1) |- _ => apply range_up_In in H
  | H : In _ (range _ _ (-1)) |- _ => apply range_down_In in H
  | H : pure _ = Ok _ |- _ => unfold pure in H; injection H as H
  | H : sq_is _ _ _ _ = Ok _ |- _ =>
      unfold sq_is in H; rewrite Hpc in H; cbn [bind] in H; injection H as H
  | H : sq_isnt _ _ _ _ = Ok _ |- _ =>
      unfold sq_isnt in H; rewrite Hpc in H; cbn [bind] in H; injection H as H
  | H : colour_is _ _ _ _ = Ok _ |- _ =>
      unfold colour_is in H; rewrite Hpc in H; cbn [bind] in H; injection H as H
  | H : negb _ = true |- _ => apply negb_true_iff in H
  | H : Ascii.eqb _ _ = false |- _ => apply Ascii.eqb_neq in H
  | H : square_eqb _ _ = true |- _ => apply square_eqb_true in H
  | H : Ascii.eqb _ _ = true |- _ => apply Ascii.eqb_eq in H
  | H : (_ >=? _) = true |- _ => rewrite Z.geb_leb in H
  | H : (_ <=? _) = true |- _ => apply Z.leb_le in H
  | H : (_ <? _) = true |- _ => apply Z.ltb_lt in H
  | H : (_ =? _) = true |- _ => apply Z.eqb_eq in H
  | H : _ && _ = true |- _ => apply andb_true_iff in H as [? ?]
  end.

Ltac finish_post :=
  unfold gen_post, side_colour, on_board;
  repeat match goal with
         | H : whiteToMove _ = _ |- _ => rewrite H
         end;
  match goal with
  | Hfb : from_board _ ?m, Hsr : start_row ?m = _, Hsc : start_col ?m = _ |- _ =>
      split; [exact Hfb|]; split; [exact Hsr|]; split; [exact Hsc|];
      split; [lia|]; split; [lia|]; split;
      [ destruct (Z.eq_dec (end_row m) (-1));
        [right; repeat split; first [lia|assumption|reflexivity] | left; lia]
      | let Hcap := fresh "Hcap" in
        intros Hcap;
        first [ split; [assumption || reflexivity | reflexivity]
              | exfalso;
                try match goal with
                    | H : piece_captured m = _ |- _ =>
                        rewrite H in Hcap; simpl in Hcap
                    end;
                congruence ] ]
  end.

Ltac leaves Hb :=
  match goal with
  | Hm : Move_init _ _ _ = Ok ?m |- _ =>
      let Hfb := fresh "Hfb" in
      let Hsr := fresh "Hsr" in let Hsc := fresh "Hsc" in
      let Her := fresh "Her" in let Hec := fresh "Hec" in
      let Hpm := fresh "Hpm" in let Hpc := fresh "Hpc" in
      let Hbr := fresh "Hbr" in let Hbc := fresh "Hbc" in
      pose proof (Move_init_from_board _ _ _ _ Hm) as Hfb;
      apply Move_init_fields in Hm as (Hsr & Hsc & Her & Hec & _ & Hpm & Hpc);
      cbn [fst snd] in Hsr, Hsc, Her, Hec, Hpm, Hpc;
      pose proof (board_get_bounds _ _ _ _ Hb Hpc) as [Hbr Hbc];
      repeat match goal with
             | H : board_get ?b ?x ?y = Ok ?p |- _ =>
                 is_var p; rewrite Hpc in H; injection H as H; subst p
             end;
      use_conds Hpc
  end.

Lemma get_pawn_moves_post gs r c :
  board_8x8 (board gs) -> on_board r -> on_board c ->
  appends (gen_post gs r c true false) (get_pawn_moves gs r c).
Proof.
  intros Hb Hr Hc. unfold on_board in Hr, Hc. unfold get_pawn_moves. walk.
  all: leaves Hb; finish_post.
Qed.


Lemma get_rook_moves_post gs r c :
  board_8x8 (board gs) -> on_board r -> on_board c ->
  appends (gen_post gs r c false false) (get_rook_moves gs r c).
Proof.
  intros Hb Hr Hc. unfold on_board in Hr, Hc. unfold get_rook_moves. walk.
  all: leaves Hb; finish_post.
Qed.

Lemma get_knight_moves_post gs r c :
  board_8x8 (board gs) -> on_board r -> on_board c ->
  appends (gen_post gs r c false true) (get_knight_moves gs r c).
Proof.
  intros Hb Hr Hc. unfold on_board in Hr, Hc. unfold get_knight_moves. walk.
  all: leaves Hb; finish_post.
Qed.

Lemma get_bishop_moves_post gs r c :
  board_8x8 (board gs) -> on_board r -> on_board c ->
  appends (gen_post gs r c false false) (get_bishop_moves gs r c).
Proof.
  intros Hb Hr Hc. unfold on_board in Hr, Hc. unfold get_bishop_moves.
  destruct (whiteToMove gs) eqn:Hw.
  all: apply appends_For_In; intros d Hd; simpl in Hd;
    repeat destruct Hd as [<-|Hd]; try contradiction; cbn [fst snd]; walk.
  all: leaves Hb; finish_post.
Qed.

Lemma get_queen_moves_post gs r c :
  board_8x8 (board gs) -> on_board r -> on_board c ->
  appends (gen_post gs r c false false) (get_queen_moves gs r c).
Proof.
  intros Hb Hr Hc. unfold get_queen_moves.
  apply appends_block.
  apply List.Forall_cons; [|apply List.Forall_cons; [|apply List.Forall_nil]];
    apply appends_call.
  - now apply get_rook_moves_post.
  - now apply get_bishop_moves_post.
Qed.

Lemma get_king_moves_post gs r c :
  board_8x8 (board gs) -> on_board r -> on_board c ->
  appends (gen_post gs r c false false) (get_king_moves gs r c).
Proof.
  intros Hb Hr Hc. unfold on_board in Hr, Hc. unfold get_king_moves.
  destruct (whiteToMove gs) eqn:Hw.
  all: apply appends_For_In; intros i Hi;
    change (range 0 8 1) with [0; 1; 2; 3; 4; 5; 6; 7] in Hi; simpl in Hi;
    repeat destruct Hi as [<-|Hi]; try contradiction;
    simpl (nth _ _ _); cbn [fst snd]; walk.
  all: leaves Hb; finish_post.
Qed.

Lemma gen_post_move_post gs r c pawn knight sq m :
  board_get (board gs) r c = Ok sq ->
  colour sq = side_colour gs ->
  on_board r -> on_board c ->
  (pawn = true -> kind sq = "p"%char) ->
  (knight = true -> kind sq = "N"%char) ->
  gen_post gs r c pawn knight m -> move_post gs m.
Proof.
  intros Hsq Hcol Hr Hc Hp Hn (Hfb & Hsr & Hsc & Hne & Hec & Her & Hcap).
  assert (Hpm : piece_moved m = sq).
  { pose proof Hfb as Hf. unfold from_board in Hf.
    apply Move_init_fields in Hf as (_ & _ & _ & _ & _ & Hf & _).
    cbn [fst snd] in Hf. rewrite Hsr, Hsc, Hsq in Hf. now inversion Hf. }
  unfold move_post. rewrite Hpm, Hsr, Hsc.
  split; [exact Hfb|]. split; [exact Hr|]. split; [exact Hc|].
  split; [exact Hcol|]. split; [exact Hne|]. split; [exact Hec|].
  split.
  - destruct Her as [Her|(H1 & H2 & H3 & H4)]; [now left|right; auto].
  - intros H. destruct (Hcap H) as [H1 H2]. auto.
Qed.

Lemma scan_square_post gs r c :
  board_8x8 (board gs) -> on_board r -> on_board c ->
  appends (move_post gs) (scan_square gs r c).
Proof.
  intros Hb Hr Hc. unfold scan_square.
  apply appends_Let; intros sq Hsq.
  apply appends_If_cond; intros Hturn.
  apply appends_Let; intros sq' Hsq'.
  rewrite Hsq in Hsq'. inversion Hsq'; subst sq'.
  unfold pure in Hturn. rewrite side_colour_test in Hturn.
  injection Hturn as Hturn. apply Ascii.eqb_eq in Hturn.
  apply appends_Let; intros f Hf. apply appends_call.
  unfold move_functions in Hf.
  destruct (Ascii.eqb (kind sq) "p") eqn:Kp;
    [|destruct (Ascii.eqb (kind sq) "R") eqn:KR;
      [|destruct (Ascii.eqb (kind sq) "N") eqn:KN;
        [|destruct (Ascii.eqb (kind sq) "B") eqn:KB;
          [|destruct (Ascii.eqb (kind sq) "Q") eqn:KQ;
            [|destruct (Ascii.eqb (kind sq) "K") eqn:KK;
              [|discriminate Hf]]]]]];
    injection Hf as <-.
  - apply Ascii.eqb_eq in Kp.
    apply appends_weaken with (gen_post gs r c true false);
      [|now apply get_pawn_moves_post].
    intros m. apply gen_post_move_post with sq; auto; discriminate.
  - apply appends_weaken with (gen_post gs r c false false);
      [|now apply get_rook_moves_post].
    intros m. apply gen_post_move_post with sq; auto; discriminate.
  - apply Ascii.eqb_eq in KN.
    apply appends_weaken with (gen_post gs r c false true);
      [|now apply get_knight_moves_post].
    intros m. apply gen_post_move_post with sq; auto; discriminate.
  - apply appends_weaken with (gen_post gs r c false false);
      [|now apply get_bishop_moves_post].
    intros m. apply gen_post_move_post with sq; auto; discriminate.
  - apply appends_weaken with (gen_post gs r c false false);
      [|now apply get_queen_moves_post].
    intros m. apply gen_post_move_post with sq; auto; discriminate.
  - apply appends_weaken with (gen_post gs r c false false);
      [|now apply get_king_moves_post].
    intros m. apply gen_post_move_post with sq; auto; discriminate.
Qed.

Lemma get_valid_moves_post gs vs :
  board_8x8 (board gs) -> get_valid_moves gs = Ok vs ->
  Forall (move_post gs) vs.
Proof.
  intros Hb. unfold get_valid_moves, get_all_possible_moves.
  assert (Hlen : length (board gs) = 8%nat).
  { unfold board_8x8, shape in Hb. apply (f_equal (@length nat)) in Hb.
    now rewrite length_map in Hb. }
  rewrite Hlen. change (Z.of_nat 8) with 8.
  match goal with
  | |- context [bind (?s []) _] =>
      assert (Hs : appends (move_post gs) s);
      [|destruct (s []) as [[k l]|e] eqn:Hrun]
  end.
  - apply appends_For_In. intros r Hr. apply range_up_In in Hr.
    apply appends_Let. intros row Hrow.
    destruct (get_row_8x8 (board gs) r Hb Hr) as (i & row' & Hrow' & Hl).
    rewrite Hrow' in Hrow. inversion Hrow; subst row. cbn [snd].
    rewrite Hl. change (Z.of_nat 8) with 8.
    apply appends_For_In. intros c Hc. apply range_up_In in Hc.
    now apply scan_square_post.
  - simpl. intros H. inversion H; subst. destruct Hs as [_ F]. eapply F. exact Hrun.
  - simpl. intros H. discriminate H.
Qed.

(** X4: on an 8x8 board every move [get_valid_moves] returns starts on a
    board square that holds a piece of the side to move, and its
    [piece_moved] and [piece_captured] are the present contents of its start
    and end squares. *)
Theorem valid_moves_move_own_pieces gs vs m :
  board_8x8 (board gs) -> get_valid_moves gs = Ok vs -> In m vs ->
  on_board (start_row m) /\ on_board (start_col m) /\
  board_get (board gs) (start_row m) (start_col m) = Ok (piece_moved m) /\
  colour (piece_moved m) = side_colour gs /\
  board_get (board gs) (end_row m) (end_col m) = Ok (piece_captured m).
Proof.
  intros Hb Hv Hin.
  pose proof (get_valid_moves_post gs vs Hb Hv) as Hall.
  rewrite List.Forall_forall in Hall.
  destruct (Hall m Hin) as (Hfb & Hr & Hc & Hcol & _).
  unfold from_board in Hfb.
  apply Move_init_fields in Hfb as (_ & _ & _ & _ & _ & Hpm & Hpc).
  cbn [fst snd] in Hpm, Hpc. auto.
Qed.

Lemma valid_moves_move_own_pieces_witness :
  exists vs m,
    get_valid_moves black_knight_e4 = Ok vs /\ In m vs /\
    coords m = (4, 4, 3, 6) /\
    piece_moved m = bN /\
    board_get (board black_knight_e4) 4 4 = Ok (piece_moved m) /\
    colour (piece_moved m) = side_colour black_knight_e4.
Proof.
  destruct (get_valid_moves black_knight_e4) as [vs|e] eqn:Hv;
    [|vm_compute in Hv; discriminate Hv].
  exists vs, (mkMove 4 4 3 6 bN empty 4436).
  assert (Hin : In (mkMove 4 4 3 6 bN empty 4436) vs).
  { vm_compute in Hv. injection Hv as <-. simpl. tauto. }
  assert (Hb : board_8x8 (board black_knight_e4)) by (vm_compute; reflexivity).
  destruct (valid_moves_move_own_pieces _ _ _ Hb Hv Hin) as (_ & _ & H1 & H2 & _).
  repeat split; try reflexivity; assumption.
Defined.

(** X5: on an 8x8 board every move [get_valid_moves] returns ends on a board
    square different from its start square, with one exception: moves of a
    white pawn that stands on row 0 end on row -1. *)
Theorem valid_moves_destinations gs vs m :
  board_8x8 (board gs) -> get_valid_moves gs = Ok vs -> In m vs ->
  (end_row m <> start_row m \/ end_col m <> start_col m) /\
  on_board (end_col m) /\
  (on_board (end_row m) \/
   (end_row m = -1 /\ start_row m = 0 /\ whiteToMove gs = true /\
    piece_moved m = wp)).
Proof.
  intros Hb Hv Hin.
  pose proof (get_valid_moves_post gs vs Hb Hv) as Hall.
  rewrite List.Forall_forall in Hall.
  destruct (Hall m Hin) as (_ & _ & _ & Hcol & Hne & Hec & Her & _).
  split; [exact Hne|]. split; [exact Hec|].
  destruct Her as [Her|(H1 & H2 & H3 & H4)]; [now left|right].
  repeat split; try assumption.
  unfold side_colour in Hcol. rewrite H3 in Hcol.
  destruct (piece_moved m) as [col k]. simpl in Hcol, H4. now subst.
Qed.

Lemma valid_moves_destinations_witness :
  exists vs m,
    get_valid_moves white_pawn_row0 = Ok vs /\ In m vs /\
    coords m = (0, 1, -1, 1) /\
    (on_board (end_row m) \/
     (end_row m = -1 /\ start_row m = 0 /\
      whiteToMove white_pawn_row0 = true /\ piece_moved m = wp)).
Proof.
  destruct (get_valid_moves white_pawn_row0) as [vs|e] eqn:Hv;
    [|vm_compute in Hv; discriminate Hv].
  exists vs, (mkMove 0 1 (-1) 1 wp empty 91).
  assert (Hin : In (mkMove 0 1 (-1) 1 wp empty 91) vs).
  { vm_compute in Hv. injection Hv as <-. simpl. tauto. }
  assert (Hb : board_8x8 (board white_pawn_row0)) by (vm_compute; reflexivity).
  destruct (valid_moves_destinations _ _ _ Hb Hv Hin) as (_ & _ & H).
  repeat split; try reflexivity; assumption.
Defined.

(** X6: on an 8x8 board no move [get_valid_moves] returns takes a piece of
    the side to move, except moves of a black knight. *)
Theorem valid_moves_take_own_piece gs vs m :
  board_8x8 (board gs) -> get_valid_moves gs = Ok vs -> In m vs ->
  colour (piece_captured m) = side_colour gs ->
  whiteToMove gs = false /\ piece_moved m = bN.
Proof.
  intros Hb Hv Hin Hown.
  pose proof (get_valid_moves_post gs vs Hb Hv) as Hall.
  rewrite List.Forall_forall in Hall.
  destruct (Hall m Hin) as (_ & _ & _ & Hcol & _ & _ & _ & Hcap).
  destruct (Hcap Hown) as [Hw Hk]. split; [exact Hw|].
  unfold side_colour in Hcol. rewrite Hw in Hcol.
  destruct (piece_moved m) as [col k]. simpl in Hcol, Hk. now subst.
Qed.

Lemma valid_moves_take_own_piece_witness :
  exists vs m,
    get_valid_moves own_capture = Ok vs /\ In m vs /\
    coords m = (2, 2, 4, 1) /\ piece_captured m = bp /\
    whiteToMove own_capture = false /\ piece_moved m = bN.
Proof.
  destruct (get_valid_moves own_capture) as [vs|e] eqn:Hv;
    [|vm_compute in Hv; discriminate Hv].
  exists vs, (mkMove 2 2 4 1 bN bp 2241).
  assert (Hin : In (mkMove 2 2 4 1 bN bp 2241) vs).
  { vm_compute in Hv. injection Hv as <-. simpl. tauto. }
  assert (Hb : board_8x8 (board own_capture)) by (vm_compute; reflexivity).
  assert (Hown : colour (piece_captured (mkMove 2 2 4 1 bN bp 2241))
                 = side_colour own_capture) by reflexivity.
  destruct (valid_moves_take_own_piece _ _ _ Hb Hv Hin Hown) as [H1 H2].
  repeat split; try reflexivity; assumption.
Defined.

(** ** Generators that raise nothing *)

Lemma total_skip : total skip.
Proof. intros moves. unfold skip. eauto. Qed.

Lemma total_break : total break.
Proof. intros moves. unfold break. eauto. Qed.

Lemma total_seq2 s1 s2 : total s1 -> total s2 -> total (seq2 s1 s2).
Proof.
  intros H1 H2 moves. unfold seq2.
  destruct (H1 moves) as (k & l & ->). simpl.
  destruct k; [apply H2|eauto].
Qed.

Lemma total_block ss : Forall total ss -> total (block ss).
Proof.
  induction 1 as [|s ss Hs _ IH]; simpl.
  - apply total_skip.
  - now apply total_seq2.
Qed.

Lemma total_IfElse_cond c s1 s2 :
  evaluates c -> (c = Ok true -> total s1) -> (c = Ok false -> total s2) ->
  total (IfElse c s1 s2).
Proof.
  intros [[|] ->] H1 H2 moves; unfold IfElse; simpl.
  - now apply H1.
  - now apply H2.
Qed.

Lemma total_If_cond c s :
  evaluates c -> (c = Ok true -> total s) -> total (If c s).
Proof.
  intros Hc H. apply total_IfElse_cond; [exact Hc|exact H|].
  intros _. apply total_skip.
Qed.

Lemma total_Let {A : Type} (e : result A) (k : A -> stmt) :
  (exists x, e = Ok x) -> (forall x, e = Ok x -> total (k x)) -> total (Let e k).
Proof.
  intros [x Hx] H moves. unfold Let. rewrite Hx. simpl. now apply H.
Qed.

Lemma total_For_In {A : Type} (xs : list A) (body : A -> stmt) :
  (forall x, In x xs -> total (body x)) -> total (For xs body).
Proof.
  induction xs as [|x xs IH]; intros H moves; simpl; [eauto|].
  destruct (H x (or_introl eq_refl) moves) as (k & l & ->). simpl.
  destruct k; [|eauto].
  apply IH. intros y Hy. apply H. now right.
Qed.

Lemma total_call s : total s -> total (call s).
Proof.
  intros H moves. unfold call. destruct (H moves) as (k & l & ->). simpl. eauto.
Qed.

Lemma np_index_total len i :
  - Z.of_nat len <= i < Z.of_nat len -> exists n, np_index len i = Ok n.
Proof.
  intros H. unfold np_index.
  destruct ((0 <=? i) && (i <? Z.of_nat len)) eqn:H1; [eauto|].
  destruct ((- Z.of_nat len <=? i) && (i <? 0)) eqn:H2; [eauto|].
  apply andb_false_iff in H1, H2.
  rewrite Z.leb_gt, Z.ltb_ge in H1, H2. lia.
Qed.

Lemma board_get_total (b : Board) r c :
  board_8x8 b -> -8 <= r < 8 -> -8 <= c < 8 -> exists x, board_get b r c = Ok x.
Proof.
  intros Hb Hr Hc. rewrite board_get_pos.
  assert (Hp : exists p, pos (shape b) r c = Ok p).
  { unfold pos. rewrite Hb. change (length (repeat 8%nat 8)) with 8%nat.
    destruct (np_index_total 8 r Hr) as [i Hi]. rewrite Hi. cbn [bind].
    assert (Hi' := np_index_bound _ _ _ Hi).
    assert (Hs : repeat 8%nat 8 !! i = Some 8%nat).
    { destruct i as [|[|[|[|[|[|[|[|n]]]]]]]]; try reflexivity; lia. }
    rewrite Hs. destruct (np_index_total 8 c Hc) as [j Hj]. rewrite Hj.
    cbn [bind]. eauto. }
  destruct Hp as [p Hp]. rewrite Hp. cbn [bind].
  destruct (pos_get_at b r c p Hp) as [x Hx]. rewrite Hx. eauto.
Qed.

Lemma total_append (b : Board) r c r' c' :
  board_8x8 b -> (-8 <= r < 8 /\ -8 <= c < 8) /\ (-8 <= r' < 8 /\ -8 <= c' < 8) ->
  total (append (r, c) (r', c') b).
Proof.
  intros Hb [[Hr Hc] [Hr' Hc']] moves. unfold append, Move_init. cbn [fst snd].
  destruct (board_get_total b r c Hb Hr Hc) as [x ->].
  destruct (board_get_total b r' c' Hb Hr' Hc') as [y ->].
  simpl. eauto.
Qed.

Lemma evaluates_pure g : evaluates (pure g).
Proof. unfold evaluates, pure. eauto. Qed.

Lemma evaluates_cand a b :
  evaluates a -> (a = Ok true -> evaluates b) -> evaluates (cand a b).
Proof.
  intros [[|] ->] H; unfold cand; simpl.
  - now apply H.
  - unfold evaluates. eauto.
Qed.

Lemma evaluates_sq_is (b : Board) r c sq :
  board_8x8 b -> -8 <= r < 8 /\ -8 <= c < 8 -> evaluates (sq_is b r c sq).
Proof.
  intros Hb [Hr Hc]. unfold sq_is.
  destruct (board_get_total b r c Hb Hr Hc) as [x ->]. unfold evaluates. simpl. eauto.
Qed.

Lemma evaluates_sq_isnt (b : Board) r c sq :
  board_8x8 b -> -8 <= r < 8 /\ -8 <= c < 8 -> evaluates (sq_isnt b r c sq).
Proof.
  intros Hb [Hr Hc]. unfold sq_isnt.
  destruct (board_get_total b r c Hb Hr Hc) as [x ->]. unfold evaluates. simpl. eauto.
Qed.

Lemma evaluates_colour_is (b : Board) r c ch :
  board_8x8 b -> -8 <= r < 8 /\ -8 <= c < 8 -> evaluates (colour_is b r c ch).
Proof.
  intros Hb [Hr Hc]. unfold colour_is.
  destruct (board_get_total b r c Hb Hr Hc) as [x ->]. unfold evaluates. simpl. eauto.
Qed.

Ltac walk_total Hb :=
  repeat first
    [ apply total_skip | apply total_break
    | apply total_append; [exact Hb|]
    | apply total_block
    | apply List.Forall_nil | apply List.Forall_cons
    | apply evaluates_pure
    | apply evaluates_cand; [|intros ?]
    | apply evaluates_sq_is; [exact Hb|]
    | apply evaluates_sq_isnt; [exact Hb|]
    | apply evaluates_colour_is; [exact Hb|]
    | apply total_IfElse_cond; [|intros ?|intros ?]
    | apply total_If_cond; [|intros ?]
    | apply total_For_In; intros ? ?
    | apply total_Let; [apply board_get_total; [exact Hb| |]|intros ? ?]
    | apply total_call ].

Ltac use_guards :=
  repeat match goal with
  | H : cand _ _ = Ok true |- _ => apply cand_true in H as [? ?]
  | H : In _ (range _ _ 1) |- _ => apply range_up_In in H
  | H : In _ (range _ _ (-1)) |- _ => apply range_down_In in H
  | H : pure _ = Ok _ |- _ => unfold pure in H; injection H as H
  | H : (_ >=? _) = true |- _ => rewrite Z.geb_leb in H
  | H : (_ <=? _) = true |- _ => apply Z.leb_le in H
  | H : (_ <? _) = true |- _ => apply Z.ltb_lt in H
  | H : (_ =? _) = true |- _ => apply Z.eqb_eq in H
  | H : _ && _ = true |- _ => apply andb_true_iff in H as [? ?]
  | H : whiteToMove ?g = false, H' : whiteToMove ?g = false -> _ |- _ =>
      specialize (H' H)
  end.

Lemma get_pawn_moves_total gs r c :
  board_8x8 (board gs) -> on_board r -> on_board c ->
  (whiteToMove gs = false -> r < 7) ->
  total (get_pawn_moves gs r c).
Proof.
  intros Hb Hr Hc Hlast. unfold on_board in Hr, Hc. unfold get_pawn_moves.
  walk_total Hb.
  all: use_guards; lia.
Qed.

Lemma get_rook_moves_total gs r c :
  board_8x8 (board gs) -> on_board r -> on_board c ->
  total (get_rook_moves gs r c).
Proof.
  intros Hb Hr Hc. unfold on_board in Hr, Hc. unfold get_rook_moves.
  walk_total Hb.
  all: use_guards; lia.
Qed.

Lemma get_knight_moves_total gs r c :
  board_8x8 (board gs) -> on_board r -> on_board c ->
  (whiteToMove gs = false -> r < 6) ->
  total (get_knight_moves gs r c).
Proof.
  intros Hb Hr Hc Hlast. unfold on_board in Hr, Hc. unfold get_knight_moves.
  walk_total Hb.
  all: use_guards; lia.
Qed.

Lemma get_bishop_moves_total gs r c :
  board_8x8 (board gs) -> on_board r -> on_board c ->
  total (get_bishop_moves gs r c).
Proof.
  intros Hb Hr Hc. unfold on_board in Hr, Hc. unfold get_bishop_moves.
  apply total_For_In; intros d Hd; simpl in Hd;
    repeat destruct Hd as [<-|Hd]; try contradiction; cbn [fst snd];
    walk_total Hb.
  all: use_guards; lia.
Qed.

Lemma get_queen_moves_total gs r c :
  board_8x8 (board gs) -> on_board r -> on_board c ->
  total (get_queen_moves gs r c).
Proof.
  intros Hb Hr Hc. unfold get_queen_moves.
  apply total_block.
  apply List.Forall_cons; [|apply List.Forall_cons; [|apply List.Forall_nil]];
    apply total_call.
  - now apply get_rook_moves_total.
  - now apply get_bishop_moves_total.
Qed.

Lemma get_king_moves_total gs r c :
  board_8x8 (board gs) -> on_board r -> on_board c ->
  total (get_king_moves gs r c).
Proof.
  intros Hb Hr Hc. unfold on_board in Hr, Hc. unfold get_king_moves.
  apply total_For_In; intros i Hi;
    change (range 0 8 1) with [0; 1; 2; 3; 4; 5; 6; 7] in Hi; simpl in Hi;
    repeat destruct Hi as [<-|Hi]; try contradiction;
    simpl (nth _ _ _); cbn [fst snd]; walk_total Hb.
  all: use_guards; lia.
Qed.

Lemma scan_square_total gs r c :
  board_8x8 (board gs) -> on_board r -> on_board c -> can_generate gs ->
  total (scan_square gs r c).
Proof.
  intros Hb Hr Hc Hgen. unfold scan_square.
  assert (Hr8 : -8 <= r < 8) by (unfold on_board in Hr; lia).
  assert (Hc8 : -8 <= c < 8) by (unfold on_board in Hc; lia).
  apply total_Let; [now apply board_get_total|]. intros sq Hsq.
  apply total_If_cond; [apply evaluates_pure|]. intros Hturn.
  apply total_Let; [now apply board_get_total|]. intros sq' Hsq'.
  rewrite Hsq in Hsq'. inversion Hsq'; subst sq'.
  unfold pure in Hturn. rewrite side_colour_test in Hturn.
  injection Hturn as Hturn. apply Ascii.eqb_eq in Hturn.
  destruct (Hgen r c sq Hr Hc Hsq Hturn) as [Hkind Hblack].
  simpl in Hkind.
  destruct Hkind as [Hk|[Hk|[Hk|[Hk|[Hk|[Hk|[]]]]]]]; rewrite <- Hk;
    (apply total_Let; [eexists; reflexivity|]);
    intros f Hf; injection Hf as <-; apply total_call.
  - apply get_pawn_moves_total; auto.
    intros Hw. now apply (proj1 (Hblack Hw)).
  - now apply get_rook_moves_total.
  - apply get_knight_moves_total; auto.
    intros Hw. now apply (proj2 (Hblack Hw)).
  - now apply get_bishop_moves_total.
  - now apply get_queen_moves_total.
  - now apply get_king_moves_total.
Qed.

(** X7: on an 8x8 board [get_valid_moves] raises nothing and returns a list
    whenever every piece of the side to move has one of the six kinds of the
    dispatch table and, with Black to move, no black pawn stands on row 7
    and no black knight on rows 6 and 7.  With White to move the kinds are
    the only condition. *)
Theorem get_valid_moves_returns gs :
  board_8x8 (board gs) -> can_generate gs ->
  exists vs, get_valid_moves gs = Ok vs.
Proof.
  intros Hb Hgen. unfold get_valid_moves, get_all_possible_moves.
  assert (Hlen : length (board gs) = 8%nat).
  { unfold board_8x8, shape in Hb. apply (f_equal (@length nat)) in Hb.
    now rewrite length_map in Hb. }
  rewrite Hlen. change (Z.of_nat 8) with 8.
  match goal with
  | |- context [bind (?s []) _] => assert (Hs : total s)
  end.
  - apply total_For_In. intros r Hr. apply range_up_In in Hr.
    destruct (get_row_8x8 (board gs) r Hb Hr) as (i & row & Hrow & Hl).
    apply total_Let; [eauto|]. intros row' Hrow'.
    rewrite Hrow in Hrow'. inversion Hrow'; subst row'. cbn [snd].
    rewrite Hl. change (Z.of_nat 8) with 8.
    apply total_For_In. intros c Hc. apply range_up_In in Hc.
    now apply scan_square_total.
  - destruct (Hs []) as (k & l & ->). simpl. eauto.
Qed.

Lemma can_generate_init : can_generate GameState_init.
Proof.
  intros r c sq Hr Hc.
  apply on_board_cases in Hr, Hc.
  repeat destruct Hr as [->|Hr]; try subst r;
    repeat destruct Hc as [->|Hc]; try subst c;
    vm_compute; intros H; injection H as <-; intros Hcol;
    try discriminate Hcol;
    (split; [tauto|intros Hw; discriminate Hw]).
Qed.

Lemma get_valid_moves_returns_witness :
  board_8x8 (board GameState_init) /\ can_generate GameState_init /\
  exists vs, get_valid_moves GameState_init = Ok vs.
Proof.
  assert (Hb : board_8x8 (board GameState_init)) by reflexivity.
  split; [exact Hb|]. split; [exact can_generate_init|].
  exact (get_valid_moves_returns GameState_init Hb can_generate_init).
Defined.

(** ** What make_move and undo_move write *)

Lemma np_index_on_board i : on_board i -> np_index 8 i = Ok (Z.to_nat i).
Proof.
  intros H. unfold np_index.
  replace ((0 <=? i) && (i <? Z.of_nat 8)) with true; [reflexivity|].
  symmetry. apply andb_true_iff. unfold on_board in H.
  split; [apply Z.leb_le|apply Z.ltb_lt]; lia.
Qed.

Lemma np_index_raises len i :
  ~ (- Z.of_nat len <= i < Z.of_nat len) -> np_index len i = Raise IndexError.
Proof.
  intros H. destruct (np_index len i) as [n|[]] eqn:Hi; try reflexivity.
  - apply np_index_range in Hi. contradiction.
  - unfold np_index in Hi.
    destruct ((0 <=? i) && (i <? Z.of_nat len)); [discriminate Hi|].
    destruct ((- Z.of_nat len <=? i) && (i <? 0)); discriminate Hi.
Qed.

Lemma shape_8x8_lookup (i : nat) :
  (i < 8)%nat -> repeat 8%nat 8 !! i = Some 8%nat.
Proof.
  intros H. destruct i as [|[|[|[|[|[|[|[|n]]]]]]]]; try reflexivity; lia.
Qed.

Lemma pos_on_board (b : Board) r c :
  board_8x8 b -> on_board r -> on_board c ->
  pos (shape b) r c = Ok (Z.to_nat r, Z.to_nat c).
Proof.
  intros Hb Hr Hc. unfold pos. rewrite Hb.
  change (length (repeat 8%nat 8)) with 8%nat.
  rewrite (np_index_on_board r Hr). cbn [bind].
  rewrite shape_8x8_lookup by (unfold on_board in Hr; lia).
  rewrite (np_index_on_board c Hc). reflexivity.
Qed.

Lemma pos_raises (b : Board) r c :
  board_8x8 b -> ~ (-8 <= r < 8 /\ -8 <= c < 8) ->
  pos (shape b) r c = Raise IndexError.
Proof.
  intros Hb H. unfold pos. rewrite Hb.
  change (length (repeat 8%nat 8)) with 8%nat.
  destruct (np_index 8 r) as [i|e] eqn:Hi.
  - cbn [bind]. rewrite shape_8x8_lookup by (now apply np_index_bound in Hi).
    apply np_index_range in Hi. simpl in Hi.
    rewrite np_index_raises; [reflexivity|]. simpl. lia.
  - rewrite np_index_raises in Hi; [now inversion Hi|].
    intros Hr. destruct (np_index_total 8 r Hr) as [n Hn]. congruence.
Qed.

Lemma board_get_at (b : Board) r c :
  board_8x8 b -> on_board r -> on_board c ->
  board_get b r c =
  match get_at b (Z.to_nat r, Z.to_nat c) with
  | Some x => Ok x
  | None => Raise IndexError
  end.
Proof.
  intros Hb Hr Hc. rewrite board_get_pos, (pos_on_board b r c Hb Hr Hc).
  reflexivity.
Qed.

Lemma same_square r c r' c' :
  on_board r -> on_board c -> on_board r' -> on_board c' ->
  (Z.to_nat r, Z.to_nat c) = (Z.to_nat r', Z.to_nat c') <->
  (r =? r') && (c =? c') = true.
Proof.
  unfold on_board. intros Hr Hc Hr' Hc'.
  rewrite andb_true_iff, !Z.eqb_eq. split.
  - intros H. inversion H. lia.
  - intros [-> ->]. reflexivity.
Qed.

(** X8: [make_move] with a move whose coordinates lie in 0..7 returns, keeps
    the board 8x8, and changes two squares only: the end square holds
    [move.piece_moved], the start square (when it is another square) is
    empty; what the board held on the start square is not consulted. *)
Theorem make_move_writes gs m r c :
  board_8x8 (board gs) ->
  on_board (start_row m) -> on_board (start_col m) ->
  on_board (end_row m) -> on_board (end_col m) ->
  on_board r -> on_board c ->
  exists gs',
    make_move m gs = (gs', Ok tt) /\
    board_8x8 (board gs') /\
    board_get (board gs') r c =
    if (r =? end_row m) && (c =? end_col m) then Ok (piece_moved m)
    else if (r =? start_row m) && (c =? start_col m) then Ok empty
    else board_get (board gs) r c.
Proof.
  intros Hb Hsr Hsc Her Hec Hr Hc.
  pose proof (pos_on_board _ _ _ Hb Hsr Hsc) as Hp.
  pose proof (pos_on_board _ _ _ Hb Her Hec) as Hq.
  eexists. split; [exact (make_move_Ok m gs _ _ Hp Hq)|]. cbn [board].
  assert (Hb' : board_8x8 (set_at (set_at (board gs) (Z.to_nat (start_row m), Z.to_nat (start_col m)) empty)
                               (Z.to_nat (end_row m), Z.to_nat (end_col m)) (piece_moved m))).
  { unfold board_8x8. now rewrite !shape_set_at. }
  split; [exact Hb'|].
  rewrite (board_get_at _ r c Hb' Hr Hc), (board_get_at _ r c Hb Hr Hc).
  destruct (pos_get_at _ _ _ _ Hp) as [x Hx].
  destruct (pos_get_at _ _ _ _ Hq) as [y Hy].
  destruct ((r =? end_row m) && (c =? end_col m)) eqn:He.
  - apply same_square in He; try assumption. rewrite He.
    destruct (decide ((Z.to_nat (start_row m), Z.to_nat (start_col m)) =
                      (Z.to_nat (end_row m), Z.to_nat (end_col m)))) as [Heq|Hne].
    + rewrite Heq. erewrite get_at_set_at_eq; [reflexivity|].
      eapply get_at_set_at_eq. exact Hy.
    + erewrite get_at_set_at_eq; [reflexivity|].
      rewrite get_at_set_at_ne by exact Hne. exact Hy.
  - rewrite get_at_set_at_ne.
    2:{ intros Heq. symmetry in Heq. apply same_square in Heq; try assumption. congruence. }
    destruct ((r =? start_row m) && (c =? start_col m)) eqn:Hs.
    + apply same_square in Hs; try assumption. rewrite Hs.
      erewrite get_at_set_at_eq; [reflexivity|exact Hx].
    + rewrite get_at_set_at_ne; [reflexivity|].
      intros Heq. symmetry in Heq. apply same_square in Heq; try assumption. congruence.
Qed.

Lemma make_move_writes_witness :
  exists gs',
    make_move (mkMove 6 4 4 4 wp empty 6444) GameState_init = (gs', Ok tt) /\
    board_8x8 (board gs') /\
    board_get (board gs') 4 4 = Ok wp.
Proof.
  destruct (make_move_writes GameState_init (mkMove 6 4 4 4 wp empty 6444) 4 4)
    as (gs' & H1 & H2 & H3);
    try (unfold on_board; simpl; lia); [reflexivity|].
  exists gs'. auto.
Defined.

Lemma shape_make_move m gs :
  shape (board (fst (make_move m gs))) = shape (board gs).
Proof.
  destruct (make_move_cases m gs) as [(p & q & Hp & Hq & _)|(e & _ & Hs & _)].
  - rewrite (make_move_Ok m gs p q Hp Hq). simpl. now rewrite !shape_set_at.
  - exact Hs.
Qed.

Lemma shape_undo_move gs :
  shape (board (fst (undo_move gs))) = shape (board gs).
Proof.
  unfold undo_move.
  destruct (negb (length (moveLog gs) =? 0)%nat); [|reflexivity].
  destruct (pop (moveLog gs)) as [[log m]|]; [|reflexivity].
  rewrite board_set_pos.
  destruct (pos _ (start_row m) (start_col m)) as [p|e]; [|reflexivity].
  cbn [bind]. rewrite board_set_pos, shape_set_at.
  destruct (pos _ (end_row m) (end_col m)) as [q|e]; simpl;
    now rewrite ?shape_set_at.
Qed.

(** X9: whatever [make_move] and [undo_move] calls are made on a fresh
    [GameState], with whatever moves and whether they return or raise, the
    board stays an 8x8 grid. *)
Theorem calls_keep_board_8x8 gs : called gs -> board_8x8 (board gs).
Proof.
  unfold board_8x8. induction 1 as [|gs m _ IH|gs _ IH].
  - reflexivity.
  - now rewrite shape_make_move.
  - now rewrite shape_undo_move.
Qed.

Lemma calls_keep_board_8x8_witness :
  called e4_undo_e4 /\ board_8x8 (board e4_undo_e4).
Proof.
  assert (Hc : called e4_undo_e4) by (unfold e4_undo_e4; repeat constructor).
  split; [exact Hc|]. exact (calls_keep_board_8x8 _ Hc).
Defined.

Lemma classic_range r c :
  (-8 <= r < 8 /\ -8 <= c < 8) \/ ~ (-8 <= r < 8 /\ -8 <= c < 8).
Proof. lia. Qed.

(** X10: [make_move] with a move whose end coordinates are no valid indices
    of an 8x8 board raises [IndexError] and leaves the log and the side to
    move alone, but it is not atomic: when the start coordinates are valid
    indices the start square has already been emptied; when they are not,
    the state is untouched. *)
Theorem make_move_raises_half_done gs m :
  board_8x8 (board gs) ->
  ~ (-8 <= end_row m < 8 /\ -8 <= end_col m < 8) ->
  exists gs',
    make_move m gs = (gs', Raise IndexError) /\
    moveLog gs' = moveLog gs /\ whiteToMove gs' = whiteToMove gs /\
    ((-8 <= start_row m < 8 /\ -8 <= start_col m < 8) ->
     board_get (board gs') (start_row m) (start_col m) = Ok empty) /\
    (~ (-8 <= start_row m < 8 /\ -8 <= start_col m < 8) -> gs' = gs).
Proof.
  intros Hb Hend. unfold make_move. rewrite board_set_pos.
  destruct (pos (shape (board gs)) (start_row m) (start_col m)) as [p|e] eqn:Hp.
  - cbn [bind]. rewrite board_set_pos, shape_set_at.
    rewrite (pos_raises _ _ _ Hb Hend). cbn [bind].
    eexists. split; [reflexivity|]. cbn [board moveLog whiteToMove].
    split; [reflexivity|]. split; [reflexivity|]. split.
    + intros _. rewrite board_get_pos, shape_set_at, Hp. cbn [bind].
      destruct (pos_get_at _ _ _ _ Hp) as [x Hx].
      now rewrite (get_at_set_at_eq _ _ _ _ Hx).
    + intros Hstart. rewrite (pos_raises _ _ _ Hb Hstart) in Hp. discriminate Hp.
  - cbn [bind].
    assert (He : e = IndexError).
    { destruct (classic_range (start_row m) (start_col m)) as [Hin|Hout].
      - destruct Hin as [Hr Hc].
        assert (Hex : exists q, pos (shape (board gs)) (start_row m) (start_col m) = Ok q).
        { destruct (board_get_total _ _ _ Hb Hr Hc) as [x Hx].
          rewrite board_get_pos in Hx.
          destruct (pos _ (start_row m) (start_col m)); [eauto|discriminate Hx]. }
        destruct Hex as [q Hq]. congruence.
      - rewrite (pos_raises _ _ _ Hb Hout) in Hp. now inversion Hp. }
    subst e. exists gs. repeat split; try reflexivity.
    intros [Hr Hc].
    destruct (board_get_total _ _ _ Hb Hr Hc) as [x Hx].
    rewrite board_get_pos, Hp in Hx. discriminate Hx.
Qed.

Lemma make_move_raises_half_done_witness :
  exists gs',
    make_move (mkMove 6 4 8 4 wp empty 6484) GameState_init
      = (gs', Raise IndexError) /\
    moveLog gs' = [] /\ whiteToMove gs' = true /\
    board_get (board gs') 6 4 = Ok empty.
Proof.
  destruct (make_move_raises_half_done GameState_init (mkMove 6 4 8 4 wp empty 6484))
    as (gs' & H1 & H2 & H3 & H4 & _); [reflexivity|simpl; lia|].
  exists gs'. repeat split; try assumption.
  apply H4. simpl. lia.
Defined.

(** X11: for every move whose coordinates lie in 0..7, recorded pieces
    right or wrong, [make_move] followed by [undo_move] returns without
    raising and restores the log and the side to move; on the board the end
    square receives [move.piece_captured], the start square (when it is
    another square) [move.piece_moved], and every other square is as
    before. *)
Theorem make_move_undo_move_writes gs m :
  board_8x8 (board gs) ->
  on_board (start_row m) -> on_board (start_col m) ->
  on_board (end_row m) -> on_board (end_col m) ->
  exists gs1 gs2,
    make_move m gs = (gs1, Ok tt) /\
    undo_move gs1 = (gs2, Ok tt) /\
    moveLog gs2 = moveLog gs /\ whiteToMove gs2 = whiteToMove gs /\
    forall r c, on_board r -> on_board c ->
      board_get (board gs2) r c =
      if (r =? end_row m) && (c =? end_col m) then Ok (piece_captured m)
      else if (r =? start_row m) && (c =? start_col m) then Ok (piece_moved m)
      else board_get (board gs) r c.
Proof.
  intros Hb Hsr Hsc Her Hec.
  pose proof (pos_on_board _ _ _ Hb Hsr Hsc) as Hp.
  pose proof (pos_on_board _ _ _ Hb Her Hec) as Hq.
  set (p := (Z.to_nat (start_row m), Z.to_nat (start_col m))) in *.
  set (q := (Z.to_nat (end_row m), Z.to_nat (end_col m))) in *.
  eexists. eexists.
  split; [exact (make_move_Ok m gs p q Hp Hq)|].
  split.
  { apply undo_move_Ok with (p := p) (q := q) (log := moveLog gs) (m := m);
      cbn [board moveLog]; rewrite ?shape_set_at; auto. }
  cbn [board moveLog whiteToMove].
  split; [reflexivity|]. split; [apply negb_involutive|].
  intros r c Hr Hc.
  set (b1 := set_at (set_at (board gs) p empty) q (piece_moved m)).
  assert (Hb2 : board_8x8 (set_at (set_at b1 p (piece_moved m)) q (piece_captured m))).
  { unfold board_8x8, b1. now rewrite !shape_set_at. }
  rewrite (board_get_at _ r c Hb2 Hr Hc), (board_get_at _ r c Hb Hr Hc).
  destruct (pos_get_at _ _ _ _ Hp) as [x Hx].
  destruct (pos_get_at _ _ _ _ Hq) as [y Hy].
  assert (Hqs : forall b' v, (exists z, get_at b' q = Some z) ->
                 exists z, get_at (set_at b' p v) q = Some z).
  { intros b' v [z Hz]. destruct (decide (p = q)) as [Heq|Hne].
    - rewrite <- Heq in *. exists v. eapply get_at_set_at_eq. exact Hz.
    - exists z. now rewrite get_at_set_at_ne. }
  assert (Hps : forall b' v, (exists z, get_at b' p = Some z) ->
                 exists z, get_at (set_at b' q v) p = Some z).
  { intros b' v [z Hz]. destruct (decide (q = p)) as [Heq|Hne].
    - rewrite Heq in *. exists v. eapply get_at_set_at_eq. exact Hz.
    - exists z. now rewrite get_at_set_at_ne. }
  destruct ((r =? end_row m) && (c =? end_col m)) eqn:He.
  - apply same_square in He; try assumption. fold q in He. rewrite He.
    destruct (Hqs (board gs) empty (ex_intro _ y Hy)) as [z0 Hz0].
    destruct (Hqs b1 (piece_moved m)) as [z Hz].
    { unfold b1. exists (piece_moved m). eapply get_at_set_at_eq. exact Hz0. }
    now rewrite (get_at_set_at_eq _ _ _ _ Hz).
  - assert (Hne : q <> (Z.to_nat r, Z.to_nat c)).
    { intros Heq. symmetry in Heq. apply same_square in Heq; try assumption. congruence. }
    rewrite get_at_set_at_ne by exact Hne.
    destruct ((r =? start_row m) && (c =? start_col m)) eqn:Hs.
    + apply same_square in Hs; try assumption. fold p in Hs. rewrite Hs.
      destruct (Hps (set_at (board gs) p empty) (piece_moved m)) as [z Hz].
      { exists empty. eapply get_at_set_at_eq. exact Hx. }
      fold b1 in Hz. now rewrite (get_at_set_at_eq _ _ _ _ Hz).
    + assert (Hne' : p <> (Z.to_nat r, Z.to_nat c)).
      { intros Heq. symmetry in Heq. apply same_square in Heq; try assumption. congruence. }
      unfold b1. now rewrite !get_at_set_at_ne.
Qed.

(** A move e2-e4 that claims to move a queen and to take a rook: after
    [make_move] and [undo_move] the queen stands on e2 and the rook on e4. *)
Lemma make_move_undo_move_writes_witness :
  exists gs1 gs2,
    make_move (mkMove 6 4 4 4 wQ bR 6444) GameState_init = (gs1, Ok tt) /\
    undo_move gs1 = (gs2, Ok tt) /\
    moveLog gs2 = [] /\ whiteToMove gs2 = true /\
    board_get (board gs2) 6 4 = Ok wQ /\
    board_get (board gs2) 4 4 = Ok bR /\
    board_get (board gs2) 7 4 = Ok wK.
Proof.
  destruct (make_move_undo_move_writes GameState_init (mkMove 6 4 4 4 wQ bR 6444))
    as (gs1 & gs2 & H1 & H2 & H3 & H4 & H5);
    try (unfold on_board; simpl; lia); [reflexivity|].
  exists gs1, gs2. repeat split; try assumption.
  - apply (H5 6 4); unfold on_board; lia.
  - apply (H5 4 4); unfold on_board; lia.
  - apply (H5 7 4); unfold on_board; lia.
Defined.

(** ** How the generators treat the shared list *)

(** X12: every generator of the dispatch table only appends: called with a
    list [moves], it returns [moves] followed by what it returns for the
    empty list, and raises exactly when it raises on the empty list. *)
Theorem generators_only_append gs piece f r c moves :
  move_functions gs piece = Ok f ->
  f r c moves = extend moves (f r c []).
Proof.
  intros Hf. destruct (move_functions_appends gs piece f r c Hf) as [E _].
  apply E.
Qed.

Lemma generators_only_append_witness :
  exists m ms,
    move_functions GameState_init "N" = Ok (get_knight_moves GameState_init) /\
    get_knight_moves GameState_init 7 1 [] = Ok (Normal, ms) /\
    length ms = 2%nat /\
    get_knight_moves GameState_init 7 1 [m] = Ok (Normal, m :: ms).
Proof.
  exists (mkMove 6 4 4 4 wp empty 6444).
  destruct (get_knight_moves GameState_init 7 1 []) as [[k ms]|e] eqn:Hrun;
    [|vm_compute in Hrun; discriminate Hrun].
  exists ms.
  assert (Hf : move_functions GameState_init "N" = Ok (get_knight_moves GameState_init))
    by reflexivity.
  pose proof (generators_only_append GameState_init "N" _ 7 1
                [mkMove 6 4 4 4 wp empty 6444] Hf) as H.
  rewrite Hrun in H. simpl in H.
  vm_compute in Hrun. injection Hrun as <- <-.
  repeat split; try reflexivity; try exact H.
Defined.

(** X13: the queen generator returns the rook generator's moves followed by
    the bishop generator's moves for the same square, and raises what the
    first of them to raise does. *)
Theorem get_queen_moves_rook_then_bishop gs r c moves :
  get_queen_moves gs r c moves =
  match get_rook_moves gs r c [] with
  | Ok (_, lr) =>
      match get_bishop_moves gs r c [] with
      | Ok (_, lb) => Ok (Normal, moves ++ lr ++ lb)
      | Raise e => Raise e
      end
  | Raise e => Raise e
  end.
Proof.
  destruct (get_rook_moves_appends gs r c) as [Er _].
  destruct (get_bishop_moves_appends gs r c) as [Eb _].
  unfold get_queen_moves. cbn [block fold_right]. unfold seq2, call, skip.
  rewrite (Er moves).
  destruct (get_rook_moves gs r c []) as [[k lr]|e]; simpl; [|reflexivity].
  rewrite (Eb (moves ++ lr)).
  destruct (get_bishop_moves gs r c []) as [[k' lb]|e]; simpl; [|reflexivity].
  now rewrite app_assoc.
Qed.

(** ** The pawn rule away from the last rank *)

(** X14: on an 8x8 board with White to move, for a pawn on rows 1..7 the
    pawn generator returns, in this order: the push to [(r-1, c)] when that
    square is empty, then the push to [(r-2, c)] when moreover [r = 6] and
    that square is empty, then the capture on [(r-1, c-1)] when [c-1 >= 0]
    and a black piece stands there, then the capture on [(r-1, c+1)] when
    [c+1 <= 7] and a black piece stands there; nothing else. *)
Theorem white_pawn_rule gs r c :
  board_8x8 (board gs) -> whiteToMove gs = true ->
  1 <= r < 8 -> on_board c ->
  exists ms,
    get_pawn_moves gs r c [] = Ok (Normal, ms) /\
    ends ms = white_pawn_targets (board gs) r c /\
    Forall (fun m => start_row m = r /\ start_col m = c) ms.
Proof. apply get_pawn_moves_white. Qed.

Lemma white_pawn_rule_witness :
  exists ms,
    get_pawn_moves GameState_init 6 4 [] = Ok (Normal, ms) /\
    ends ms = [(5, 4); (4, 4)] /\
    ends ms = white_pawn_targets (board GameState_init) 6 4.
Proof.
  destruct (white_pawn_rule GameState_init 6 4) as (ms & H1 & H2 & _);
    try reflexivity; try (unfold on_board; lia).
  exists ms. split; [exact H1|]. split; [|exact H2].
  rewrite H2. reflexivity.
Defined.

(** X15: the same for Black, towards higher rows: for a black pawn on rows
    0..6 the pushes to [(r+1, c)] and, from row 1, [(r+2, c)], and the
    captures of white pieces on [(r+1, c-1)] and [(r+1, c+1)]. *)
Theorem black_pawn_rule gs r c :
  board_8x8 (board gs) -> whiteToMove gs = false ->
  0 <= r < 7 -> on_board c ->
  exists ms,
    get_pawn_moves gs r c [] = Ok (Normal, ms) /\
    ends ms = black_pawn_targets (board gs) r c /\
    Forall (fun m => start_row m = r /\ start_col m = c) ms.
Proof. apply get_pawn_moves_black. Qed.

Lemma black_pawn_rule_witness :
  exists ms,
    get_pawn_moves black_knight_e4 1 2 [] = Ok (Normal, ms) /\
    ends ms = [(2, 2)] /\
    ends ms = black_pawn_targets (board black_knight_e4) 1 2.
Proof.
  destruct (black_pawn_rule black_knight_e4 1 2) as (ms & H1 & H2 & _);
    try (vm_compute; reflexivity); try (unfold on_board; lia).
  exists ms. split; [exact H1|]. split; [|exact H2].
  rewrite H2. vm_compute. reflexivity.
Defined.

(** ** Where get_valid_moves raises *)

Lemma board_get_raises (b : Board) r c :
  board_8x8 b -> ~ (-8 <= r < 8 /\ -8 <= c < 8) ->
  board_get b r c = Raise IndexError.
Proof.
  intros Hb H. rewrite board_get_pos, (pos_raises b r c Hb H). reflexivity.
Qed.

Lemma concat_results_Ok xs l x :
  concat_results xs = Ok l -> In x xs -> exists l', x = Ok l'.
Proof.
  revert l. induction xs as [|y xs IH]; intros l H Hin; [contradiction|].
  simpl in H. destruct y as [ly|e]; [|discriminate H].
  simpl in H. destruct (concat_results xs) as [l1|e]; [|discriminate H].
  destruct Hin as [<-|Hin]; [eauto|]. eapply IH; eauto.
Qed.

Lemma squares64_In r c : on_board r -> on_board c -> In (r, c) squares64.
Proof.
  intros Hr Hc. unfold squares64. apply in_flat_map.
  change (range 0 8 1) with [0; 1; 2; 3; 4; 5; 6; 7].
  exists r. split.
  - apply on_board_cases in Hr.
    repeat destruct Hr as [->|Hr]; try subst r; simpl; tauto.
  - apply in_map. apply on_board_cases in Hc.
    repeat destruct Hc as [->|Hc]; try subst c; simpl; tauto.
Qed.

Lemma moves_of_square_raises gs r c e :
  board_8x8 (board gs) -> on_board r -> on_board c ->
  moves_of_square gs (r, c) = Raise e ->
  exists e', get_valid_moves gs = Raise e'.
Proof.
  intros Hb Hr Hc Hsq. unfold get_valid_moves.
  rewrite (get_all_possible_moves_scan gs Hb). unfold spec_valid_moves.
  destruct (concat_results _) as [l|e'] eqn:Hcat; [|eauto].
  destruct (concat_results_Ok _ _ (moves_of_square gs (r, c)) Hcat) as [l' Hl'].
  - apply in_map. now apply squares64_In.
  - congruence.
Qed.

(** X16: with Black to move on an 8x8 board, a black pawn on row 7 makes
    [get_valid_moves] raise: the pawn generator probes row 8. *)
Theorem black_pawn_on_row7_raises gs c :
  board_8x8 (board gs) -> whiteToMove gs = false -> on_board c ->
  board_get (board gs) 7 c = Ok bp ->
  get_pawn_moves gs 7 c [] = Raise IndexError /\
  exists e, get_valid_moves gs = Raise e.
Proof.
  intros Hb Hw Hc Hsq.
  assert (Hp : get_pawn_moves gs 7 c [] = Raise IndexError).
  { unfold get_pawn_moves. rewrite Hw.
    unfold IfElse, If, IfElse, pure, sq_is. cbn [bind block fold_right].
    unfold seq2. change (7 + 1) with 8.
    rewrite (board_get_raises (board gs) 8 c Hb) by lia. reflexivity. }
  split; [exact Hp|].
  apply moves_of_square_raises with 7 c IndexError; auto;
    [unfold on_board; lia|].
  unfold moves_of_square. cbn [fst snd]. rewrite Hsq. cbn [bind].
  unfold side_colour. rewrite Hw.
  change (Ascii.eqb (colour bp) "b") with true. cbv iota.
  change (move_functions gs (kind bp)) with (Ok (get_pawn_moves gs)).
  cbn [bind]. rewrite Hp. reflexivity.
Qed.

Lemma black_pawn_on_row7_raises_witness :
  board_get (board black_pawn_row7) 7 6 = Ok bp /\
  get_pawn_moves black_pawn_row7 7 6 [] = Raise IndexError /\
  exists e, get_valid_moves black_pawn_row7 = Raise e.
Proof.
  assert (Hsq : board_get (board black_pawn_row7) 7 6 = Ok bp)
    by (vm_compute; reflexivity).
  split; [exact Hsq|].
  apply (black_pawn_on_row7_raises black_pawn_row7 6);
    [vm_compute; reflexivity|vm_compute; reflexivity|unfold on_board; lia|exact Hsq].
Defined.

(** X17: with Black to move on an 8x8 board, a black knight on row 6 or 7
    and column 2 or higher with a white piece on [(r-1, c-2)] makes
    [get_valid_moves] raise: after testing that square the generator builds
    a move to [(r+2, c-1)], which is off the board. *)
Theorem black_knight_low_rows_raises gs r c x :
  board_8x8 (board gs) -> whiteToMove gs = false ->
  6 <= r < 8 -> 2 <= c < 8 ->
  board_get (board gs) r c = Ok bN ->
  board_get (board gs) (r-1) (c-2) = Ok x -> colour x = "w"%char ->
  get_knight_moves gs r c [] = Raise IndexError /\
  exists e, get_valid_moves gs = Raise e.
Proof.
  intros Hb Hw Hr Hc Hsq Hx Hcol.
  assert (Hk : get_knight_moves gs r c [] = Raise IndexError).
  { assert (Hwhite : Ascii.eqb (colour (sq_at (board gs) (r-1) (c-2))) "w" = true).
    { unfold sq_at. rewrite Hx. now apply Ascii.eqb_eq. }
    unfold get_knight_moves. rewrite Hw.
    unfold IfElse, If, IfElse, pure, sq_is, colour_is.
    cbn [bind block fold_right]. unfold seq2, skip.
    replace (c - 1 >=? 0) with true
      by (symmetry; rewrite Z.geb_leb; apply Z.leb_le; lia).
    replace (c - 2 >=? 0) with true
      by (symmetry; rewrite Z.geb_leb; apply Z.leb_le; lia).
    replace (r - 2 >=? 0) with true
      by (symmetry; rewrite Z.geb_leb; apply Z.leb_le; lia).
    replace (r - 1 >=? 0) with true
      by (symmetry; rewrite Z.geb_leb; apply Z.leb_le; lia).
    replace (r + 2 <=? 7) with false
      by (symmetry; apply Z.leb_gt; lia).
    repeat rewrite board_get_sq_at by on_board_tac.
    repeat rewrite append_8x8 by on_board_tac.
    cbn [bind fst snd]. rewrite Hwhite.
    unfold append, Move_init. cbn [fst snd].
    repeat rewrite board_get_sq_at by on_board_tac.
    rewrite (board_get_raises (board gs) (r+2) (c-1) Hb) by lia.
    repeat match goal with
           | |- context [square_eqb ?a ?b] => destruct (square_eqb a b)
           | |- context [Ascii.eqb ?a ?b] => destruct (Ascii.eqb a b)
           end; reflexivity. }
  split; [exact Hk|].
  apply moves_of_square_raises with r c IndexError; auto;
    try (unfold on_board; lia).
  unfold moves_of_square. cbn [fst snd]. rewrite Hsq. cbn [bind].
  unfold side_colour. rewrite Hw.
  change (Ascii.eqb (colour bN) "b") with true. cbv iota.
  change (move_functions gs (kind bN)) with (Ok (get_knight_moves gs)).
  cbn [bind]. rewrite Hk. reflexivity.
Qed.

Lemma black_knight_low_rows_raises_witness :
  get_knight_moves knight_row6 6 2 [] = Raise IndexError /\
  exists e, get_valid_moves knight_row6 = Raise e.
Proof.
  apply (black_knight_low_rows_raises knight_row6 6 2 wp);
    try reflexivity; lia.
Defined.

(** ** The driver *)

Lemma called_8x8 gs : called gs -> board_8x8 (board gs).
Proof.
  unfold board_8x8. induction 1 as [|gs m _ IH|gs _ IH].
  - reflexivity.
  - now rewrite shape_make_move.
  - now rewrite shape_undo_move.
Qed.

Lemma click_square_on_board x :
  0 <= x < ChessMain.WIDTH -> on_board (x / ChessMain.SQ_SIZE).
Proof.
  unfold ChessMain.WIDTH. change ChessMain.SQ_SIZE with 64.
  intros H. unfold on_board. split.
  - apply Z.div_pos; lia.
  - apply Z.div_lt_upper_bound; lia.
Qed.

Lemma click_in_window r c :
  on_board r -> on_board c -> ChessMain.in_window (ChessMain.click r c).
Proof.
  unfold on_board, ChessMain.click, ChessMain.in_window, ChessMain.WIDTH,
    ChessMain.HEIGHT.
  change ChessMain.SQ_SIZE with 64. lia.
Qed.

Lemma sq_eqb_true a b : ChessMain.sq_eqb a b = true -> a = b.
Proof.
  destruct a as [[r c]|], b as [[r' c']|]; simpl; intros H;
    try discriminate H; try reflexivity.
  apply andb_true_iff in H as [H1 H2].
  apply Z.eqb_eq in H1, H2. now subst.
Qed.

Lemma from_board_unique b m1 m2 :
  from_board b m1 -> from_board b m2 -> coords m1 = coords m2 -> m1 = m2.
Proof.
  unfold from_board, coords. intros H1 H2 Hc. inversion Hc as [[Ha Hb Hc' Hd]].
  rewrite Ha, Hb, Hc', Hd in H1. rewrite H1 in H2. now inversion H2.
Qed.

(** What holds of the state [d] inside a turn that began in [d0]. *)
Lemma handle_event_keeps d0 e d d' :
  ChessMain.in_window e ->
  ChessMain.handle_event e d = Ok d' ->
  (ChessMain.valid_moves d = ChessMain.valid_moves d0 /\
   (ChessMain.move_made d = false -> ChessMain.gs d = ChessMain.gs d0) /\
   called (ChessMain.gs d) /\ ChessMain.clicks_ok d) ->
  (ChessMain.valid_moves d' = ChessMain.valid_moves d0 /\
   (ChessMain.move_made d' = false -> ChessMain.gs d' = ChessMain.gs d0) /\
   called (ChessMain.gs d') /\ ChessMain.clicks_ok d').
Proof.
  intros Hwin He (Hv & Hg & Hc & Hk).
  destruct e as [|[x y]|key|]; simpl in He.
  - inversion He; subst; simpl. auto.
  - destruct Hwin as [Hx Hy].
    apply click_square_on_board in Hx, Hy.
    set (col := x / ChessMain.SQ_SIZE) in *.
    set (row := y / ChessMain.SQ_SIZE) in *.
    destruct Hk as [[Hs Hp]|(s & Hs1 & Hs2 & Hs & Hp)]; rewrite Hs, Hp in He.
    + simpl in He. inversion He; subst; simpl.
      repeat split; auto. right. exists (row, col). auto.
    + destruct (ChessMain.sq_eqb (Some s) (Some (row, col))) eqn:Heq.
      * simpl in He. inversion He; subst; simpl.
        repeat split; auto. left. auto.
      * cbn [ChessMain.player_clicks app length Nat.eqb ChessMain.list_get
             nth_error bind ChessMain.Move_of_clicks ChessMain.gs
             ChessMain.valid_moves ChessMain.printed ChessMain.move_made
             ChessMain.running ChessMain.sq_selected] in He.
        destruct (Move_init s (row, col) (board (ChessMain.gs d))) as [move|]
          eqn:Hm; [|discriminate He].
        cbn [bind] in He.
        destruct (get_chess_notation move) as [notation|]; [|discriminate He].
        cbn [bind] in He.
        destruct (ChessMain.move_in move (ChessMain.valid_moves d)).
        -- destruct (make_move move (ChessMain.gs d)) as [g [[]|e]] eqn:Hmk;
             [|discriminate He].
           inversion He; subst; simpl.
           repeat split; auto.
           ++ intros H; discriminate H.
           ++ replace g with (fst (make_move move (ChessMain.gs d)))
                by now rewrite Hmk.
              now constructor.
           ++ left. auto.
        -- inversion He; subst; simpl.
           repeat split; auto. right. exists (row, col). auto.
  - destruct (key =? ChessMain.K_z); [|inversion He; subst; auto].
    destruct (undo_move (ChessMain.gs d)) as [g [[]|e]] eqn:Hu;
      [|discriminate He].
    inversion He; subst; simpl. repeat split; auto.
    + intros H; discriminate H.
    + replace g with (fst (undo_move (ChessMain.gs d))) by now rewrite Hu.
      now constructor.
  - inversion He; subst. auto.
Qed.

Lemma handle_events_keeps d0 es : forall d d',
  Forall ChessMain.in_window es ->
  ChessMain.handle_events es d = Ok d' ->
  (ChessMain.valid_moves d = ChessMain.valid_moves d0 /\
   (ChessMain.move_made d = false -> ChessMain.gs d = ChessMain.gs d0) /\
   called (ChessMain.gs d) /\ ChessMain.clicks_ok d) ->
  (ChessMain.valid_moves d' = ChessMain.valid_moves d0 /\
   (ChessMain.move_made d' = false -> ChessMain.gs d' = ChessMain.gs d0) /\
   called (ChessMain.gs d') /\ ChessMain.clicks_ok d').
Proof.
  induction es as [|e es IH]; intros d d' Hwin He Hd; simpl in He.
  - inversion He; subst. exact Hd.
  - destruct (ChessMain.handle_event e d) as [d1|] eqn:H1; [|discriminate He].
    simpl in He. inversion Hwin; subst.
    apply (IH d1 d'); auto.
    eapply handle_event_keeps; eauto.
Qed.

Lemma driven_facts d :
  ChessMain.driven d ->
  ChessMain.move_made d = false /\
  get_valid_moves (ChessMain.gs d) = Ok (ChessMain.valid_moves d) /\
  called (ChessMain.gs d) /\
  ChessMain.clicks_ok d.
Proof.
  induction 1 as [d Hs|d es d' _ IH _ Hwin Hf].
  - unfold ChessMain.start in Hs.
    destruct (get_valid_moves GameState_init) as [vs|] eqn:Hv; [|discriminate Hs].
    simpl in Hs. inversion Hs; subst; simpl.
    repeat split; auto; [constructor|left; auto].
  - destruct IH as (Hm & Hv & Hc & Hk).
    unfold ChessMain.frame in Hf.
    destruct (ChessMain.handle_events es d) as [d1|] eqn:H1; [|discriminate Hf].
    simpl in Hf.
    destruct (handle_events_keeps d es d d1 Hwin H1) as (Hv1 & Hg1 & Hc1 & Hk1);
      [auto|].
    destruct (ChessMain.move_made d1) eqn:Hm1.
    + destruct (get_valid_moves (ChessMain.gs d1)) as [vs|] eqn:Hvs;
        [|discriminate Hf].
      simpl in Hf. inversion Hf; subst; simpl. auto.
    + inversion Hf; subst. rewrite (Hg1 eq_refl), Hv1. auto.
Qed.

(** X18: at the top of every turn of the loop no move is waiting for the
    refresh, [valid_moves] is what [get_valid_moves] returns for the current
    game state, the game state was reached by [make_move] and [undo_move]
    calls, and either no click is pending or exactly one is, on a board
    square. *)
Theorem driver_invariant d :
  ChessMain.driven d ->
  ChessMain.move_made d = false /\
  get_valid_moves (ChessMain.gs d) = Ok (ChessMain.valid_moves d) /\
  called (ChessMain.gs d) /\
  ChessMain.clicks_ok d.
Proof. apply driven_facts. Qed.

Lemma driver_invariant_witness :
  exists d0 d1,
    ChessMain.start = Ok d0 /\
    ChessMain.frame [ChessMain.click 6 4; ChessMain.click 4 4] d0 = Ok d1 /\
    whiteToMove (ChessMain.gs d1) = false /\
    ChessMain.move_made d1 = false /\
    get_valid_moves (ChessMain.gs d1) = Ok (ChessMain.valid_moves d1) /\
    ChessMain.clicks_ok d1.
Proof.
  destruct ChessMain.start as [d0|e] eqn:Hs;
    [|vm_compute in Hs; discriminate Hs].
  destruct (ChessMain.frame [ChessMain.click 6 4; ChessMain.click 4 4] d0)
    as [d1|e] eqn:Hf;
    [|vm_compute in Hs; injection Hs as <-; vm_compute in Hf; discriminate Hf].
  exists d0, d1.
  assert (Hd1 : ChessMain.driven d1).
  { apply ChessMain.driven_frame
      with (d := d0) (es := [ChessMain.click 6 4; ChessMain.click 4 4]).
    - now apply ChessMain.driven_start.
    - vm_compute in Hs. injection Hs as <-. reflexivity.
    - repeat (apply List.Forall_cons;
              [apply click_in_window; unfold on_board; lia|]).
      apply List.Forall_nil.
    - exact Hf. }
  destruct (driver_invariant d1 Hd1) as (H1 & H2 & _ & H4).
  split; [reflexivity|]. split; [exact Hf|].
  split; [|auto].
  vm_compute in Hs. injection Hs as <-.
  vm_compute in Hf. injection Hf as <-. reflexivity.
Defined.

(** X19: when a mouse click at the top of a turn makes a move, the move is
    one of the list [get_valid_moves] returned for the current game state,
    and [make_move] applied it without raising. *)
Theorem driver_applies_generated_moves d loc d' :
  ChessMain.driven d ->
  ChessMain.in_window (ChessMain.MOUSEBUTTONDOWN loc) ->
  ChessMain.handle_event (ChessMain.MOUSEBUTTONDOWN loc) d = Ok d' ->
  ChessMain.move_made d' = true ->
  exists vs m,
    get_valid_moves (ChessMain.gs d) = Ok vs /\ In m vs /\
    make_move m (ChessMain.gs d) = (ChessMain.gs d', Ok tt).
Proof.
  intros Hd Hwin He Hmade.
  destruct (driven_facts d Hd) as (Hm & Hv & Hc & Hk).
  exists (ChessMain.valid_moves d).
  destruct loc as [x y]. destruct Hwin as [Hx Hy].
  apply click_square_on_board in Hx, Hy. simpl in He.
  set (col := x / ChessMain.SQ_SIZE) in *.
  set (row := y / ChessMain.SQ_SIZE) in *.
  destruct Hk as [[Hs Hp]|(s & Hs1 & Hs2 & Hs & Hp)]; rewrite Hs, Hp in He.
  { simpl in He. inversion He; subst. simpl in Hmade. congruence. }
  destruct (ChessMain.sq_eqb (Some s) (Some (row, col))) eqn:Heq.
  { simpl in He. inversion He; subst. simpl in Hmade. congruence. }
  cbn [ChessMain.player_clicks app length Nat.eqb ChessMain.list_get
       nth_error bind ChessMain.Move_of_clicks ChessMain.gs
       ChessMain.valid_moves ChessMain.printed ChessMain.move_made
       ChessMain.running ChessMain.sq_selected] in He.
  destruct (Move_init s (row, col) (board (ChessMain.gs d))) as [move|]
    eqn:Hmove; [|discriminate He].
  cbn [bind] in He.
  destruct (get_chess_notation move) as [notation|]; [|discriminate He].
  cbn [bind] in He.
  destruct (ChessMain.move_in move (ChessMain.valid_moves d)) eqn:Hin.
  2:{ inversion He; subst. simpl in Hmade. congruence. }
  destruct (make_move move (ChessMain.gs d)) as [g [[]|e]] eqn:Hmk;
    [|discriminate He].
  inversion He; subst d'. cbn [ChessMain.gs].
  exists move. split; [exact Hv|]. split; [|exact Hmk].
  unfold ChessMain.move_in in Hin. apply existsb_exists in Hin as (m' & Hin' & Hid).
  assert (Hb : board_8x8 (board (ChessMain.gs d))) by now apply called_8x8.
  pose proof (get_valid_moves_post _ _ Hb Hv) as Hall.
  rewrite List.Forall_forall in Hall.
  destruct (Hall m' Hin') as (Hfb' & Hsr' & Hsc' & _ & _ & Hec' & Her' & _).
  pose proof (Move_init_from_board _ _ _ _ Hmove) as Hfb.
  apply Move_init_fields in Hmove as (Ha & Hb1 & Hc1 & Hd1 & Hid1 & _).
  pose proof Hfb' as Hf'. unfold from_board in Hf'.
  apply Move_init_fields in Hf' as (_ & _ & _ & _ & Hid2 & _).
  cbn [fst snd] in *.
  unfold Move_eq in Hid. apply Z.eqb_eq in Hid. rewrite Hid1, Hid2 in Hid.
  assert (Hcoords : coords m' = coords move).
  { unfold coords. rewrite Ha, Hb1, Hc1, Hd1. unfold on_board in *.
    destruct Her' as [Her'|(Her' & _)];
      assert (start_row m' = fst s) by lia;
      assert (start_col m' = snd s) by lia;
      assert (end_row m' = row) by lia;
      assert (end_col m' = col) by lia; congruence. }
  rewrite <- (from_board_unique _ _ _ Hfb' Hfb Hcoords). exact Hin'.
Qed.

Lemma driver_applies_generated_moves_witness :
  exists d0 d1 d2 vs m,
    ChessMain.start = Ok d0 /\
    ChessMain.frame [ChessMain.click 6 4] d0 = Ok d1 /\
    ChessMain.handle_event (ChessMain.click 4 4) d1 = Ok d2 /\
    ChessMain.move_made d2 = true /\
    get_valid_moves (ChessMain.gs d1) = Ok vs /\ In m vs /\
    make_move m (ChessMain.gs d1) = (ChessMain.gs d2, Ok tt).
Proof.
  destruct ChessMain.start as [d0|e] eqn:Hs;
    [|vm_compute in Hs; discriminate Hs].
  destruct (ChessMain.frame [ChessMain.click 6 4] d0) as [d1|e] eqn:Hf;
    [|vm_compute in Hs; injection Hs as <-; vm_compute in Hf; discriminate Hf].
  destruct (ChessMain.handle_event (ChessMain.click 4 4) d1) as [d2|e] eqn:He;
    [|vm_compute in Hs; injection Hs as <-; vm_compute in Hf; injection Hf as <-;
      vm_compute in He; discriminate He].
  assert (Hd1 : ChessMain.driven d1).
  { apply ChessMain.driven_frame with (d := d0) (es := [ChessMain.click 6 4]).
    - now apply ChessMain.driven_start.
    - vm_compute in Hs. injection Hs as <-. reflexivity.
    - repeat (apply List.Forall_cons;
              [apply click_in_window; unfold on_board; lia|]).
      apply List.Forall_nil.
    - exact Hf. }
  assert (Hwin : ChessMain.in_window (ChessMain.click 4 4))
    by (apply click_in_window; unfold on_board; lia).
  assert (Hmade : ChessMain.move_made d2 = true).
  { vm_compute in Hs. injection Hs as <-. vm_compute in Hf. injection Hf as <-.
    vm_compute in He. injection He as <-. reflexivity. }
  destruct (driver_applies_generated_moves d1 _ d2 Hd1 Hwin He Hmade)
    as (vs & m & H1 & H2 & H3).
  exists d0, d1, d2, vs, m. repeat split; auto.
Defined.

(** X20: inside one turn of the loop [valid_moves] is never recomputed:
    whatever the events do to the game state, the clicks that follow in the
    same turn are checked against the list of the position the turn began
    with. *)
Theorem valid_moves_fixed_within_turn es : forall d d',
  ChessMain.handle_events es d = Ok d' ->
  ChessMain.valid_moves d' = ChessMain.valid_moves d.
Proof.
  induction es as [|e es IH]; intros d d' H; simpl in H.
  - now inversion H.
  - destruct (ChessMain.handle_event e d) as [d1|] eqn:He; [|discriminate H].
    simpl in H. rewrite (IH d1 d' H). clear H IH.
    destruct e as [|loc|key|]; simpl in He.
    + now inversion He.
    + match type of He with
      | context [if ChessMain.sq_eqb ?a ?b then _ else _] =>
          destruct (ChessMain.sq_eqb a b)
      end; simpl in He;
      repeat match type of He with
             | context [if ?c then _ else _] => destruct c
             | context [bind ?x _] => destruct x; simpl in He
             | context [match make_move ?m ?g with _ => _ end] =>
                 destruct (make_move m g) as [? [[]|?]]
             end;
      try discriminate He; now inversion He.
    + destruct (key =? ChessMain.K_z); [|now inversion He].
      destruct (undo_move (ChessMain.gs d)) as [g [[]|e]];
        [now inversion He|discriminate He].
    + now inversion He.
Qed.

(** In one turn White plays e2-e4 and then d2-d4: the second move is found in
    the list computed for the initial position although Black is to move. *)
Lemma valid_moves_fixed_within_turn_witness :
  exists d0 d1,
    ChessMain.start = Ok d0 /\
    ChessMain.handle_events
      [ChessMain.click 6 4; ChessMain.click 4 4;
       ChessMain.click 6 3; ChessMain.click 4 3] d0 = Ok d1 /\
    map coords (moveLog (ChessMain.gs d1)) = [(6, 4, 4, 4); (6, 3, 4, 3)] /\
    ChessMain.valid_moves d1 = ChessMain.valid_moves d0.
Proof.
  destruct ChessMain.start as [d0|e] eqn:Hs;
    [|vm_compute in Hs; discriminate Hs].
  destruct (ChessMain.handle_events
      [ChessMain.click 6 4; ChessMain.click 4 4;
       ChessMain.click 6 3; ChessMain.click 4 3] d0) as [d1|e] eqn:He;
    [|vm_compute in Hs; injection Hs as <-; vm_compute in He; discriminate He].
  exists d0, d1.
  pose proof (valid_moves_fixed_within_turn _ _ _ He) as Hv.
  split; [reflexivity|]. split; [exact He|]. split; [|exact Hv].
  vm_compute in Hs. injection Hs as <-. vm_compute in He. injection He as <-.
  reflexivity.
Defined.

(** ** Sliding pieces *)

Lemma appends_For_loop {A : Type} (P : A -> Move -> Prop) (cont : A -> Prop)
      (xs : list A) (body : A -> stmt) :
  (forall x, In x xs -> appends (P x) (body x)) ->
  (forall x moves l, In x xs -> body x moves = Ok (Normal, l) -> cont x) ->
  appends (loop_post P cont xs) (For xs body).
Proof.
  induction xs as [|x xs IH]; intros HP Hcont; simpl.
  - split.
    + intros moves. simpl. now rewrite app_nil_r.
    + intros k l H. inversion H. constructor.
  - destruct (HP x (or_introl eq_refl)) as [Ex Fx].
    destruct (IH (fun y Hy => HP y (or_intror Hy))
                 (fun y mv l Hy => Hcont y mv l (or_intror Hy))) as [E F].
    split.
    + intros moves. rewrite (Ex moves).
      destruct (body x []) as [[[|] l]|e]; simpl; try reflexivity.
      rewrite (E (moves ++ l)), (E l). now rewrite extend_extend.
    + intros k l.
      destruct (body x []) as [[[|] l1]|e] eqn:H1; simpl; intros H2.
      * rewrite E in H2. apply extend_Ok in H2 as (l2 & H2 & ->).
        apply Forall_app. split.
        -- eapply Forall_impl; [eapply Fx; reflexivity|].
           intros m Hm. exists [], x, xs. repeat split; auto.
        -- eapply Forall_impl; [eapply F; exact H2|].
           intros m (pre & y & post & -> & Hpre & Hm).
           exists (x :: pre), y, post. repeat split; auto.
           constructor; [|exact Hpre].
           eapply Hcont; [left; reflexivity|exact H1].
      * inversion H2; subst.
        eapply Forall_impl; [eapply Fx; reflexivity|].
        intros m Hm. exists [], x, xs. repeat split; auto.
      * discriminate H2.
Qed.

Lemma map_seq_split {A : Type} (f : nat -> A) pre x post : forall s n,
  map f (seq s n) = pre ++ x :: post ->
  x = f (s + length pre)%nat /\
  forall k, (k < length pre)%nat -> In (f (s + k)%nat) pre.
Proof.
  induction pre as [|y pre IH]; intros s n H.
  - destruct n as [|n]; [discriminate H|]. simpl in H. inversion H; subst.
    split; [now rewrite Nat.add_0_r|]. intros k Hk. simpl in Hk. lia.
  - destruct n as [|n]; [discriminate H|]. simpl in H. inversion H; subst.
    destruct (IH (S s) n H2) as [Hx Hin]. split.
    + rewrite Hx. f_equal. simpl. lia.
    + intros [|k] Hk.
      * left. now rewrite Nat.add_0_r.
      * right. replace (s + S k)%nat with (S s + k)%nat by lia.
        apply Hin. simpl in Hk. lia.
Qed.

Lemma range_up_split a b pre x post :
  range a b 1 = pre ++ x :: post ->
  forall j, a <= j < x -> In j pre.
Proof.
  unfold range. change (0 <? 1) with true. cbn match.
  intros H j Hj.
  apply map_seq_split in H as [Hx Hin].
  specialize (Hin (Z.to_nat (j - a))).
  replace (a + Z.of_nat (0 + Z.to_nat (j - a)) * 1) with j in Hin by lia.
  apply Hin. lia.
Qed.

Lemma range_down_split a b pre x post :
  range a b (-1) = pre ++ x :: post ->
  forall j, x < j <= a -> In j pre.
Proof.
  unfold range. change (0 <? -1) with false. cbn match.
  intros H j Hj.
  apply map_seq_split in H as [Hx Hin].
  specialize (Hin (Z.to_nat (a - j))).
  replace (a + Z.of_nat (0 + Z.to_nat (a - j)) * -1) with j in Hin by lia.
  apply Hin. lia.
Qed.

Lemma get_bishop_moves_rays gs r c :
  appends
    (fun m => exists d,
       In d [(-1, -1); (-1, 1); (1, -1); (1, 1)] /\
       loop_post
         (fun i m => start_row m = r /\ start_col m = c /\
                     end_row m = r + fst d * i /\ end_col m = c + snd d * i)
         (fun i => board_get (board gs) (r + fst d * i) (c + snd d * i) = Ok empty)
         (range 1 8 1) m)
    (get_bishop_moves gs r c).
Proof.
  unfold get_bishop_moves.
  apply appends_For_In. intros d Hd.
  eapply appends_weaken; [intros m Hm; exists d; split; [exact Hd|exact Hm]|].
  apply appends_For_loop.
  - intros i Hi. cbv zeta. walk.
    all: match goal with
         | Hm : Move_init _ _ _ = Ok ?m |- _ =>
             apply Move_init_fields in Hm as (? & ? & ? & ? & _);
             cbn [fst snd] in *; auto
         end.
  - intros i moves l Hi. cbv zeta.
    unfold IfElse, Let, pure, block. cbn [fold_right bind].
    destruct ((0 <=? r + d.1 * i) && (r + d.1 * i <? 8) &&
              ((0 <=? c + d.2 * i) && (c + d.2 * i <? 8)));
      [|unfold break; intros H; discriminate H].
    destruct (board_get (board gs) (r + d.1 * i) (c + d.2 * i)) as [x|e];
      cbn [bind]; [|intros H; discriminate H].
    destruct (square_eqb x empty) eqn:Hx.
    + intros _. apply square_eqb_true in Hx. now subst.
    + destruct (Ascii.eqb (colour x) (if whiteToMove gs then "b" else "w"))%char.
      * unfold seq2, append, break, skip.
        destruct (Move_init _ _ _); cbn; intros H; discriminate H.
      * unfold break. intros H; discriminate H.
Qed.

(** X21: a bishop's move never jumps: every move the bishop generator
    returns goes [i] steps, [1 <= i <= 7], along one of the four diagonals
    from [(r, c)], and the squares passed on the way, steps 1 to [i-1], are
    all empty. *)
Theorem bishop_moves_do_not_jump gs r c k ms m :
  get_bishop_moves gs r c [] = Ok (k, ms) -> In m ms ->
  exists dr dc i,
    In (dr, dc) [(-1, -1); (-1, 1); (1, -1); (1, 1)] /\ 1 <= i <= 7 /\
    start_row m = r /\ start_col m = c /\
    end_row m = r + dr * i /\ end_col m = c + dc * i /\
    between_empty (board gs) r c dr dc i.
Proof.
  intros Hrun Hin.
  destruct (get_bishop_moves_rays gs r c) as [_ F].
  pose proof (F k ms Hrun) as Hall. rewrite List.Forall_forall in Hall.
  destruct (Hall m Hin) as ([dr dc] & Hd & pre & i & post & Hsplit & Hpre & Hm).
  cbn [fst snd] in *. destruct Hm as (H1 & H2 & H3 & H4).
  exists dr, dc, i. split; [exact Hd|].
  assert (Hi : In i (range 1 8 1)) by (rewrite Hsplit; apply in_elt).
  apply range_up_In in Hi.
  split; [lia|]. repeat split; auto.
  intros j Hj. rewrite List.Forall_forall in Hpre. apply Hpre.
  now apply (range_up_split 1 8 pre i post Hsplit).
Qed.

Ltac rook_body_leaves :=
  cbv zeta; walk;
  match goal with
  | Hm : Move_init _ _ _ = Ok ?m |- _ =>
      apply Move_init_fields in Hm as (? & ? & ? & ? & _);
      cbn [fst snd] in *; auto
  end.

Ltac rook_body_cont Hw :=
  cbv zeta;
  unfold If, IfElse, sq_is, sq_isnt, colour_is, block;
  cbn [fold_right bind]; unfold seq2, skip, break, append;
  match goal with
  | |- context [board_get ?b ?x ?y] =>
      let Hsq := fresh "Hsq" in
      destruct (board_get b x y) eqn:Hsq;
      cbn [bind]; [|let H := fresh in intros H; discriminate H]
  end;
  unfold side_colour; rewrite Hw;
  match goal with
  | Hsq : board_get _ _ _ = Ok ?sq |- _ =>
      let Hempty := fresh "Hempty" in
      destruct (square_eqb sq empty) eqn:Hempty;
      [ apply square_eqb_true in Hempty; subst sq; intros _;
        eexists; split; [reflexivity|discriminate]
      | cbn [negb bind fst snd];
        repeat match goal with
               | |- context [Ascii.eqb (colour sq) ?ch] =>
                   let E := fresh "E" in
                   destruct (Ascii.eqb (colour sq) ch) eqn:E
               | |- context [Move_init ?s ?e ?b] => destruct (Move_init s e b)
               end;
        cbn [bind fst snd];
        let H := fresh in
        intros H; try discriminate H;
        eexists; (split; [reflexivity|]);
        match goal with
        | E : Ascii.eqb (colour sq) _ = false |- colour sq <> _ =>
            apply Ascii.eqb_neq in E; exact E
        end ]
  end.

Lemma ray_up gs r c pre i post m :
  range (r - 1) (-1) (-1) = pre ++ i :: post ->
  Forall (col_not_own gs c) pre ->
  start_row m = r /\ start_col m = c /\ end_row m = i /\ end_col m = c ->
  rook_post gs r c m.
Proof.
  intros Hsplit Hpre (H1 & H2 & H3 & H4).
  assert (Hi : In i (range (r - 1) (-1) (-1))) by (rewrite Hsplit; apply in_elt).
  apply range_down_In in Hi.
  exists (-1), 0, (r - i). split; [simpl; tauto|].
  split; [lia|]. repeat split; auto; try lia.
  intros j Hj. replace (r + -1 * j) with (r - j) by lia.
  replace (c + 0 * j) with c by lia.
  rewrite List.Forall_forall in Hpre. apply Hpre.
  apply (range_down_split (r - 1) (-1) pre i post Hsplit). lia.
Qed.

Lemma ray_down gs r c pre i post m :
  range (r + 1) 8 1 = pre ++ i :: post ->
  Forall (col_not_own gs c) pre ->
  start_row m = r /\ start_col m = c /\ end_row m = i /\ end_col m = c ->
  rook_post gs r c m.
Proof.
  intros Hsplit Hpre (H1 & H2 & H3 & H4).
  assert (Hi : In i (range (r + 1) 8 1)) by (rewrite Hsplit; apply in_elt).
  apply range_up_In in Hi.
  exists 1, 0, (i - r). split; [simpl; tauto|].
  split; [lia|]. repeat split; auto; try lia.
  intros j Hj. replace (r + 1 * j) with (r + j) by lia.
  replace (c + 0 * j) with c by lia.
  rewrite List.Forall_forall in Hpre. apply Hpre.
  apply (range_up_split (r + 1) 8 pre i post Hsplit). lia.
Qed.

Lemma ray_left gs r c pre i post m :
  range (c - 1) (-1) (-1) = pre ++ i :: post ->
  Forall (row_not_own gs r) pre ->
  start_row m = r /\ start_col m = c /\ end_row m = r /\ end_col m = i ->
  rook_post gs r c m.
Proof.
  intros Hsplit Hpre (H1 & H2 & H3 & H4).
  assert (Hi : In i (range (c - 1) (-1) (-1))) by (rewrite Hsplit; apply in_elt).
  apply range_down_In in Hi.
  exists 0, (-1), (c - i). split; [simpl; tauto|].
  split; [lia|]. repeat split; auto; try lia.
  intros j Hj. replace (c + -1 * j) with (c - j) by lia.
  replace (r + 0 * j) with r by lia.
  rewrite List.Forall_forall in Hpre. apply Hpre.
  apply (range_down_split (c - 1) (-1) pre i post Hsplit). lia.
Qed.

Lemma ray_right gs r c pre i post m :
  range (c + 1) 8 1 = pre ++ i :: post ->
  Forall (row_not_own gs r) pre ->
  start_row m = r /\ start_col m = c /\ end_row m = r /\ end_col m = i ->
  rook_post gs r c m.
Proof.
  intros Hsplit Hpre (H1 & H2 & H3 & H4).
  assert (Hi : In i (range (c + 1) 8 1)) by (rewrite Hsplit; apply in_elt).
  apply range_up_In in Hi.
  exists 0, 1, (i - c). split; [simpl; tauto|].
  split; [lia|]. repeat split; auto; try lia.
  intros j Hj. replace (c + 1 * j) with (c + j) by lia.
  replace (r + 0 * j) with r by lia.
  rewrite List.Forall_forall in Hpre. apply Hpre.
  apply (range_up_split (c + 1) 8 pre i post Hsplit). lia.
Qed.

Ltac rook_ray Hw ray PP CC :=
  apply appends_If_cond; intros _;
  eapply appends_weaken;
  [ | apply appends_For_loop with (P := PP) (cont := CC);
      [ intros ? ?; rook_body_leaves
      | intros ? ? ? ?; unfold col_not_own, row_not_own; rook_body_cont Hw ] ];
  intros ? (? & ? & ? & ? & ? & ?); eapply ray; eassumption.

Lemma get_rook_moves_rays gs r c :
  appends (rook_post gs r c) (get_rook_moves gs r c).
Proof.
  unfold get_rook_moves.
  apply appends_IfElse_cond; intros Hw; unfold pure in Hw; injection Hw as Hw;
    apply appends_block;
    (apply List.Forall_cons;
     [rook_ray Hw ray_up
        (fun (i : Z) (m : Move) =>
           start_row m = r /\ start_col m = c /\ end_row m = i /\ end_col m = c)
        (col_not_own gs c)|]);
    (apply List.Forall_cons;
     [rook_ray Hw ray_left
        (fun (i : Z) (m : Move) =>
           start_row m = r /\ start_col m = c /\ end_row m = r /\ end_col m = i)
        (row_not_own gs r)|]);
    (apply List.Forall_cons;
     [rook_ray Hw ray_right
        (fun (i : Z) (m : Move) =>
           start_row m = r /\ start_col m = c /\ end_row m = r /\ end_col m = i)
        (row_not_own gs r)|]);
    (apply List.Forall_cons;
     [rook_ray Hw ray_down
        (fun (i : Z) (m : Move) =>
           start_row m = r /\ start_col m = c /\ end_row m = i /\ end_col m = c)
        (col_not_own gs c)|]);
    apply List.Forall_nil.
Qed.



(** X22: a rook's move never jumps over a piece of its own side: every move
    the rook generator returns goes [i >= 1] steps along the row or the
    column from [(r, c)], and each square passed on the way holds something
    that is not a piece of the side to move (it may hold an enemy piece). *)
Theorem rook_moves_do_not_jump_own gs r c k ms m :
  get_rook_moves gs r c [] = Ok (k, ms) -> In m ms ->
  exists dr dc i,
    In (dr, dc) [(-1, 0); (0, -1); (0, 1); (1, 0)] /\ 1 <= i /\
    start_row m = r /\ start_col m = c /\
    end_row m = r + dr * i /\ end_col m = c + dc * i /\
    forall j, 1 <= j < i ->
      exists x, board_get (board gs) (r + dr * j) (c + dc * j) = Ok x /\
                colour x <> side_colour gs.
Proof.
  intros Hrun Hin.
  destruct (get_rook_moves_rays gs r c) as [_ F].
  pose proof (F k ms Hrun) as Hall. rewrite List.Forall_forall in Hall.
  exact (Hall m Hin).
Qed.

Lemma rook_moves_do_not_jump_own_witness :
  exists ms m dr dc i,
    get_rook_moves rook_example 4 4 [] = Ok (Normal, ms) /\ In m ms /\
    coords m = (4, 4, 4, 7) /\
    1 <= i /\ end_row m = 4 + dr * i /\ end_col m = 4 + dc * i /\
    forall j, 1 <= j < i ->
      exists x, board_get (board rook_example) (4 + dr * j) (4 + dc * j) = Ok x /\
                colour x <> side_colour rook_example.
Proof.
  destruct (get_rook_moves rook_example 4 4 []) as [[k ms]|e] eqn:Hrun;
    [|vm_compute in Hrun; discriminate Hrun].
  assert (Hin : In (mkMove 4 4 4 7 wR empty 4447) ms).
  { vm_compute in Hrun. injection Hrun as <- <-. simpl. tauto. }
  destruct (rook_moves_do_not_jump_own _ _ _ _ _ _ Hrun Hin)
    as (dr & dc & i & _ & H1 & _ & _ & H2 & H3 & H4).
  exists ms, (mkMove 4 4 4 7 wR empty 4447), dr, dc, i.
  vm_compute in Hrun. injection Hrun as <- <-.
  repeat split; auto; try (simpl; tauto).
Defined.

Lemma bishop_moves_do_not_jump_witness :
  exists ms m dr dc i,
    get_bishop_moves bishop_example 4 4 [] = Ok (Normal, ms) /\ In m ms /\
    coords m = (4, 4, 2, 6) /\
    1 <= i <= 7 /\ end_row m = 4 + dr * i /\ end_col m = 4 + dc * i /\
    between_empty (board bishop_example) 4 4 dr dc i.
Proof.
  destruct (get_bishop_moves bishop_example 4 4 []) as [[k ms]|e] eqn:Hrun;
    [|vm_compute in Hrun; discriminate Hrun].
  assert (Hin : In (mkMove 4 4 2 6 wB bp 4426) ms).
  { vm_compute in Hrun. injection Hrun as <- <-. simpl. tauto. }
  destruct (bishop_moves_do_not_jump _ _ _ _ _ _ Hrun Hin)
    as (dr & dc & i & _ & H1 & _ & _ & H2 & H3 & H4).
  exists ms, (mkMove 4 4 2 6 wB bp 4426), dr, dc, i.
  vm_compute in Hrun. injection Hrun as <- <-.
  repeat split; auto; try lia; try (simpl; tauto).
Defined.

(** ** The king rule *)

Lemma concat_results_Ok_map {A : Type} (g : A -> list Move) xs :
  concat_results (map (fun x => Ok (g x)) xs) = Ok (flat_map g xs).
Proof.
  induction xs as [|x xs IH]; simpl; [reflexivity|]. now rewrite IH.
Qed.

Lemma king_body gs r c i moves :
  board_8x8 (board gs) -> on_board r -> on_board c ->
  In i (range 0 8 1) ->
  (let end_row := r + fst (nth (Z.to_nat i) king_offsets (0, 0)) in
   let end_col := c + snd (nth (Z.to_nat i) king_offsets (0, 0)) in
   If (pure ((0 <=? end_row) && (end_row <? 8) &&
             ((0 <=? end_col) && (end_col <? 8))))
      (Let (board_get (board gs) end_row end_col) (fun end_piece =>
         If (pure (negb (Ascii.eqb (colour end_piece)
                                   (if whiteToMove gs then "w" else "b")%char)))
            (append (r, c) (end_row, end_col) (board gs))))) moves
  = emit moves (Ok (king_step gs r c (nth (Z.to_nat i) king_offsets (0, 0)))).
Proof.
  intros Hb Hr Hc Hi. cbv zeta.
  set (d := nth (Z.to_nat i) king_offsets (0, 0)).
  unfold king_step, side_colour, on_boardb, If, IfElse, Let, pure, emit.
  cbn [bind].
  destruct ((0 <=? r + d.1) && (r + d.1 <? 8) &&
            ((0 <=? c + d.2) && (c + d.2 <? 8))) eqn:Hin.
  - apply andb_true_iff in Hin as [H1 H2].
    assert (Hr' : on_board (r + d.1)) by now apply on_boardb_spec.
    assert (Hc' : on_board (c + d.2)) by now apply on_boardb_spec.
    rewrite (board_get_sq_at _ _ _ Hb Hr' Hc'). cbn [bind andb].
    destruct (negb _).
    + now rewrite append_8x8.
    + unfold skip. now rewrite app_nil_r.
  - cbn [andb]. unfold skip. now rewrite app_nil_r.
Qed.

Lemma get_king_moves_steps gs r c moves :
  board_8x8 (board gs) -> on_board r -> on_board c ->
  get_king_moves gs r c moves =
  Ok (Normal, moves ++ flat_map (king_step gs r c) king_offsets).
Proof.
  intros Hb Hr Hc. unfold get_king_moves.
  rewrite (For_emit (fun i => Ok (king_step gs r c
                                    (nth (Z.to_nat i) king_offsets (0, 0))))).
  - rewrite concat_results_Ok_map. reflexivity.
  - intros i mv Hi. now apply king_body.
Qed.

Lemma ends_king_steps gs r c ds :
  ends (flat_map (king_step gs r c) ds) =
  List.filter
    (fun t => on_boardb (fst t) && on_boardb (snd t) &&
              negb (Ascii.eqb (colour (sq_at (board gs) (fst t) (snd t)))
                              (side_colour gs)))
    (map (fun d => (r + fst d, c + snd d)) ds).
Proof.
  induction ds as [|d ds IH]; [reflexivity|].
  cbn [flat_map map List.filter]. unfold ends in *. rewrite map_app, IH.
  unfold king_step. cbn [fst snd]. destruct (_ && _ && negb _); reflexivity.
Qed.

(** X23: on an 8x8 board the king generator raises nothing and returns, in
    the fixed order of the eight offsets, exactly one move to each adjacent
    square that is on the board and does not hold a piece of the side to
    move. *)
Theorem king_rule gs r c :
  board_8x8 (board gs) -> on_board r -> on_board c ->
  exists ms,
    get_king_moves gs r c [] = Ok (Normal, ms) /\
    ends ms =
      List.filter
        (fun t => on_boardb (fst t) && on_boardb (snd t) &&
                  negb (Ascii.eqb (colour (sq_at (board gs) (fst t) (snd t)))
                                  (side_colour gs)))
        (map (fun d => (r + fst d, c + snd d)) king_offsets) /\
    Forall (fun m => start_row m = r /\ start_col m = c) ms.
Proof.
  intros Hb Hr Hc. eexists. split; [now apply get_king_moves_steps|].
  split; [apply ends_king_steps|]. cbn [app].
  apply Forall_flat_map. apply List.Forall_forall. intros d _.
  unfold king_step. destruct (_ && _ && negb _); repeat constructor.
Qed.

Lemma king_rule_witness :
  exists ms,
    get_king_moves pinned_rook 7 4 [] = Ok (Normal, ms) /\
    ends ms = [(6, 3); (6, 5); (7, 3); (7, 5)].
Proof.
  destruct (king_rule pinned_rook 7 4) as (ms & H1 & H2 & _);
    try reflexivity; try (unfold on_board; lia).
  exists ms. split; [exact H1|]. rewrite H2. vm_compute. reflexivity.
Defined.

(** ** The knight rule with White to move *)

Lemma emits_block_nil : emits (block []) [].
Proof. intros moves. simpl. unfold skip. now rewrite app_nil_r. Qed.

Lemma emits_block_cons s ss l ls :
  emits s l -> emits (block ss) ls -> emits (block (s :: ss)) (l ++ ls).
Proof.
  intros Hs Hss moves.
  change (block (s :: ss) moves) with (seq2 s (block ss) moves).
  unfold seq2. rewrite (Hs moves). cbn [bind fst snd].
  rewrite (Hss (moves ++ l)). now rewrite app_assoc.
Qed.

Lemma emits_If_pure g s l :
  (g = true -> emits s l) -> emits (If (pure g) s) (if g then l else []).
Proof.
  intros H moves. unfold If, IfElse, pure. cbn [bind].
  destruct g; [now apply H|]. unfold skip. now rewrite app_nil_r.
Qed.

Lemma emits_IfElse_true s1 s2 l :
  emits s1 l -> emits (IfElse (pure true) s1 s2) l.
Proof. intros H moves. unfold IfElse, pure. cbn [bind]. apply H. Qed.

Lemma knight_cell (b : Board) r c r' c' enemy :
  board_8x8 b -> on_board r -> on_board c -> on_board r' -> on_board c' ->
  enemy <> "-"%char ->
  emits (block [If (sq_is b r' c' empty) (append (r, c) (r', c') b);
                If (colour_is b r' c' enemy) (append (r, c) (r', c') b)])
        (if empty_at b r' c' || colour_at b r' c' enemy
         then [step_move b r c r' c'] else []).
Proof.
  intros Hb Hr Hc Hr' Hc' Henemy moves.
  cbn [block fold_right]. unfold seq2, If, IfElse, sq_is, colour_is, skip.
  rewrite !board_get_sq_at by assumption. cbn [bind].
  unfold empty_at, colour_at.
  destruct (square_eqb (sq_at b r' c') empty) eqn:He.
  - rewrite append_8x8 by assumption. cbn [bind fst snd orb].
    apply square_eqb_true in He. rewrite He.
    replace (Ascii.eqb (colour empty) enemy) with false.
    + cbn [bind fst snd]. unfold step_move. rewrite He. reflexivity.
    + symmetry. apply Ascii.eqb_neq. simpl. congruence.
  - cbn [bind fst snd orb].
    destruct (Ascii.eqb (colour (sq_at b r' c')) enemy).
    + rewrite append_8x8 by assumption. reflexivity.
    + now rewrite app_nil_r.
Qed.

Lemma geb_on_board x k :
  on_board x -> 0 < k -> (x - k >=? 0) = on_boardb (x - k).
Proof.
  unfold on_board, on_boardb. intros Hx Hk. rewrite Z.geb_leb.
  replace (x - k <? 8) with true by (symmetry; apply Z.ltb_lt; lia).
  now rewrite andb_true_r.
Qed.

Lemma leb_on_board x k :
  on_board x -> 0 < k -> (x + k <=? 7) = on_boardb (x + k).
Proof.
  unfold on_board, on_boardb. intros Hx Hk.
  replace (0 <=? x + k) with true by (symmetry; apply Z.leb_le; lia).
  cbn [andb]. destruct (Z.leb_spec (x + k) 7), (Z.ltb_spec (x + k) 8);
    try reflexivity; lia.
Qed.

Ltac guard_facts :=
  repeat match goal with
         | H : (_ >=? _) = true |- _ => rewrite Z.geb_leb in H
         | H : (_ <=? _) = true |- _ => apply Z.leb_le in H
         end.

Lemma get_knight_moves_white_emits gs r c :
  board_8x8 (board gs) -> whiteToMove gs = true -> on_board r -> on_board c ->
  exists l, emits (get_knight_moves gs r c) l /\
            l = flat_map (knight_step (board gs) r c "b") (knight_squares r c).
Proof.
  intros Hb Hw Hr Hc. eexists. split.
  - unfold get_knight_moves. rewrite Hw.
    apply emits_IfElse_true.
    repeat first
      [ apply emits_block_nil
      | eapply knight_cell;
        [exact Hb|exact Hr|exact Hc
        |unfold on_board in *; guard_facts; lia
        |unfold on_board in *; guard_facts; lia
        |discriminate]
      | eapply emits_block_cons
      | eapply emits_If_pure; intros ? ].
  - rewrite !(geb_on_board r), !(geb_on_board c),
      !(leb_on_board r), !(leb_on_board c) by (assumption || lia).
    unfold knight_squares, knight_step. cbn [flat_map fst snd].
    destruct (on_boardb (r - 2)), (on_boardb (r + 2)),
      (on_boardb (r - 1)), (on_boardb (r + 1)),
      (on_boardb (c - 2)), (on_boardb (c + 2)),
      (on_boardb (c - 1)), (on_boardb (c + 1));
      cbn [andb app]; rewrite ?app_nil_r, <- ?app_assoc; reflexivity.
Qed.

Lemma ends_knight_steps b r c enemy ts :
  ends (flat_map (knight_step b r c enemy) ts) =
  List.filter
    (fun t => on_boardb (fst t) && on_boardb (snd t) &&
              (empty_at b (fst t) (snd t) || colour_at b (fst t) (snd t) enemy))
    ts.
Proof.
  induction ts as [|[r' c'] ts IH]; [reflexivity|].
  cbn [flat_map List.filter]. unfold ends in *. rewrite map_app, IH.
  unfold knight_step. cbn [fst snd].
  destruct (_ && _ && (_ || _)); reflexivity.
Qed.

(** X24: with White to move on an 8x8 board the knight generator raises
    nothing and returns, in the fixed order of the eight offsets, exactly
    one move to each offset square that is on the board and is empty or
    holds a black piece. *)
Theorem white_knight_rule gs r c :
  board_8x8 (board gs) -> whiteToMove gs = true ->
  on_board r -> on_board c ->
  exists ms,
    get_knight_moves gs r c [] = Ok (Normal, ms) /\
    ends ms =
      List.filter
        (fun t => on_boardb (fst t) && on_boardb (snd t) &&
                  (empty_at (board gs) (fst t) (snd t) ||
                   colour_at (board gs) (fst t) (snd t) "b"))
        (knight_squares r c) /\
    Forall (fun m => start_row m = r /\ start_col m = c) ms.
Proof.
  intros Hb Hw Hr Hc.
  destruct (get_knight_moves_white_emits gs r c Hb Hw Hr Hc) as (l & He & ->).
  eexists. split; [apply (He [])|]. cbn [app].
  split; [apply ends_knight_steps|].
  apply Forall_flat_map. apply List.Forall_forall. intros t _.
  unfold knight_step. destruct (_ && _ && (_ || _)); repeat constructor.
Qed.

Lemma white_knight_rule_witness :
  exists ms,
    get_knight_moves GameState_init 7 1 [] = Ok (Normal, ms) /\
    ends ms = [(5, 0); (5, 2)].
Proof.
  destruct (white_knight_rule GameState_init 7 1) as (ms & H1 & H2 & _);
    try reflexivity; try (unfold on_board; lia).
  exists ms. split; [exact H1|]. rewrite H2. vm_compute. reflexivity.
Defined.

(** ** Every open diagonal square is a bishop move *)

Lemma For_Normal {A : Type} (xs : list A) (body : A -> stmt) : forall moves k l,
  For xs body moves = Ok (k, l) -> k = Normal.
Proof.
  induction xs as [|x xs IH]; intros moves k l H; simpl in H.
  - now inversion H.
  - destruct (body x moves) as [[[|] l1]|e]; simpl in H.
    + eapply IH; eauto.
    + now inversion H.
    + discriminate H.
Qed.

Lemma For_reaches {A : Type} (body : A -> stmt) (m : Move) pre x post :
  (forall y, In y pre -> forall mv k l, body y mv = Ok (k, l) -> k = Normal) ->
  (forall mv k l, body x mv = Ok (k, l) -> In m l) ->
  (forall y, appends (fun _ => True) (body y)) ->
  forall moves k l, For (pre ++ x :: post) body moves = Ok (k, l) -> In m l.
Proof.
  intros Hpre Hx Hpost.
  induction pre as [|y pre IH]; intros moves k l H; simpl in H.
  - destruct (body x moves) as [[k1 l1]|e] eqn:Hb; [|discriminate H].
    pose proof (Hx _ _ _ Hb) as Hin. simpl in H. destruct k1.
    + destruct (appends_For (fun _ => True) post body Hpost) as [E _].
      rewrite E in H. apply extend_Ok in H as (l2 & _ & ->).
      apply in_or_app. now left.
    + inversion H; subst. exact Hin.
  - destruct (body y moves) as [[k1 l1]|e] eqn:Hb; [|discriminate H].
    rewrite (Hpre y (or_introl eq_refl) _ _ _ Hb) in H. simpl in H.
    apply (IH (fun z Hz => Hpre z (or_intror Hz)) l1 k l H).
Qed.

Lemma range_1_8_split i :
  1 <= i <= 7 ->
  exists pre post, range 1 8 1 = pre ++ i :: post /\
                   forall j, In j pre -> 1 <= j < i.
Proof.
  intros Hi. change (range 1 8 1) with [1; 2; 3; 4; 5; 6; 7].
  assert (H : i = 1 \/ i = 2 \/ i = 3 \/ i = 4 \/ i = 5 \/ i = 6 \/ i = 7) by lia.
  destruct H as [->|[->|[->|[->|[->|[->| ->]]]]]].
  - exists [], [2; 3; 4; 5; 6; 7]. split; [reflexivity|]. intros j [].
  - exists [1], [3; 4; 5; 6; 7]. split; [reflexivity|]. simpl. intros j H. lia.
  - exists [1; 2], [4; 5; 6; 7]. split; [reflexivity|]. simpl. intros j H. lia.
  - exists [1; 2; 3], [5; 6; 7]. split; [reflexivity|]. simpl. intros j H. lia.
  - exists [1; 2; 3; 4], [6; 7]. split; [reflexivity|]. simpl. intros j H. lia.
  - exists [1; 2; 3; 4; 5], [7]. split; [reflexivity|]. simpl. intros j H. lia.
  - exists [1; 2; 3; 4; 5; 6], []. split; [reflexivity|]. simpl. intros j H. lia.
Qed.

Lemma directions_split d :
  In d [(-1, -1); (-1, 1); (1, -1); (1, 1)] ->
  exists pre post, [(-1, -1); (-1, 1); (1, -1); (1, 1)] = pre ++ d :: post.
Proof.
  intros H. apply in_split in H. exact H.
Qed.

(** X25: on an 8x8 board the bishop generator returns a move to every square
    that lies [i] steps along a diagonal from [(r, c)] on the board, is empty
    or holds a piece of the other side, and is reached over empty squares
    only. *)
Theorem bishop_moves_reach_open_squares gs r c dr dc i :
  board_8x8 (board gs) -> on_board r -> on_board c ->
  In (dr, dc) [(-1, -1); (-1, 1); (1, -1); (1, 1)] -> 1 <= i <= 7 ->
  on_board (r + dr * i) -> on_board (c + dc * i) ->
  between_empty (board gs) r c dr dc i ->
  (sq_at (board gs) (r + dr * i) (c + dc * i) = empty \/
   colour (sq_at (board gs) (r + dr * i) (c + dc * i)) =
     (if whiteToMove gs then "b" else "w")%char) ->
  exists ms,
    get_bishop_moves gs r c [] = Ok (Normal, ms) /\
    In (step_move (board gs) r c (r + dr * i) (c + dc * i)) ms.
Proof.
  intros Hb Hr Hc Hd Hi Hr' Hc' Hbetween Htarget.
  destruct (get_bishop_moves_total gs r c Hb Hr Hc []) as (k & ms & Hrun).
  exists ms.
  assert (Hk : k = Normal) by (unfold get_bishop_moves in Hrun; eapply For_Normal; eauto).
  subst k. split; [exact Hrun|].
  destruct (directions_split _ Hd) as (dpre & dpost & Hds).
  unfold get_bishop_moves in Hrun. cbv zeta in Hrun.
  change [(-1, -1); (-1, 1); (1, -1); (1, 1)] with [(-1, -1); (-1, 1); (1, -1); (1, 1)] in Hds.
  rewrite Hds in Hrun.
  eapply For_reaches; [| | |exact Hrun].
  - intros d' _ mv k l H. cbv beta in H. exact (For_Normal _ _ _ _ _ H).
  - intros mv k l Hloop. cbv beta in Hloop. cbn [fst snd] in Hloop.
    destruct (range_1_8_split i Hi) as (pre & post & Hsplit & Hpre).
    rewrite Hsplit in Hloop.
    eapply For_reaches; [| | |exact Hloop].
    + intros j Hj mv' k' l'. cbv beta. specialize (Hpre j Hj).
      assert (Hrj : on_board (r + dr * j))
        by (unfold on_board in *; simpl in Hd;
            destruct Hd as [Hd|[Hd|[Hd|[Hd|[]]]]]; inversion Hd; subst; lia).
      assert (Hcj : on_board (c + dc * j))
        by (unfold on_board in *; simpl in Hd;
            destruct Hd as [Hd|[Hd|[Hd|[Hd|[]]]]]; inversion Hd; subst; lia).
      unfold IfElse, Let, pure. cbn [bind].
      replace ((0 <=? r + dr * j) && (r + dr * j <? 8) &&
               ((0 <=? c + dc * j) && (c + dc * j <? 8))) with true
        by (symmetry; apply andb_true_iff; split; now apply on_boardb_spec).
      rewrite (Hbetween j Hpre). cbn [bind].
      change (square_eqb empty empty) with true. cbv iota.
      rewrite append_8x8 by assumption. intros H. now inversion H.
    + intros mv' k' l'. cbv beta.
      unfold IfElse, Let, pure. cbn [bind].
      replace ((0 <=? r + dr * i) && (r + dr * i <? 8) &&
               ((0 <=? c + dc * i) && (c + dc * i <? 8))) with true
        by (symmetry; apply andb_true_iff; split; now apply on_boardb_spec).
      rewrite (board_get_sq_at _ _ _ Hb Hr' Hc'). cbn [bind].
      destruct Htarget as [He|Hcol].
      * rewrite He. change (square_eqb empty empty) with true. cbv iota.
        rewrite append_8x8 by assumption. intros H. inversion H; subst.
        apply in_or_app. right. left. unfold step_move. now rewrite He.
      * destruct (square_eqb _ empty).
        -- rewrite append_8x8 by assumption. intros H. inversion H; subst.
           apply in_or_app. right. now left.
        -- rewrite Hcol, Ascii.eqb_refl.
           cbn [block fold_right]. unfold seq2.
           rewrite append_8x8 by assumption. cbn [bind fst snd].
           unfold break. cbn [bind fst snd]. intros H. inversion H; subst.
           apply in_or_app. right. now left.
    + intros j. apply (appends_weaken (from_board (board gs))); [tauto|].
      appends_tac.
  - intros d'. apply (appends_weaken (from_board (board gs))); [tauto|].
    appends_tac.
Qed.

Lemma bishop_moves_reach_open_squares_witness :
  exists ms,
    get_bishop_moves bishop_example 4 4 [] = Ok (Normal, ms) /\
    In (mkMove 4 4 2 6 wB bp 4426) ms.
Proof.
  apply (bishop_moves_reach_open_squares bishop_example 4 4 (-1) 1 2);
    try reflexivity; try (unfold on_board; lia).
  - simpl. tauto.
  - intros j Hj. assert (j = 1) as -> by lia. reflexivity.
  - right. reflexivity.
Defined.
